(** * pygame-sprite-perf: task pool, drawable nodes and image geometry

    A shallow embedding of [cam/utils.py] (AsyncTasksPool, AsyncTask),
    [cam/use_update_dirty_on_event.py] (BaseSprite, ImageSprite, the image
    geometry helpers, Game.update) and [cam/use_update_on_event.py]
    (image2surface, Game.update), followed by the properties of the
    specification stated and proved over the embedding, and by further
    code of the same files (the registry of the pool, [set_pressed],
    [get_color], [add_sprite], [Game.__init__], the camera of the tests)
    with its own properties. *)

From stdpp Require Import base option list gmap strings.
From Stdlib Require Import ZArith QArith Qabs Qround Qpower Lia Lqa Bool.
From Stdlib Require Import Floats.SpecFloat.

Local Open Scope Z_scope.

(** ** Python exceptions and results *)

Module Py.

Inductive exn :=
| ZeroDivisionError
| OverflowError
| ValueError (msg : string)
| AssertionError (msg : string)
| AttributeError (msg : string)
| KeyError
| RuntimeError (msg : string).

Inductive result (A : Type) :=
| Ok (a : A)
| Raise (e : exn).
Arguments Ok {A} a.
Arguments Raise {A} e.

#[export] Instance result_ret : MRet result := fun _ a => Ok a.
#[export] Instance result_bind : MBind result := fun _ _ k r =>
  match r with Ok a => k a | Raise e => Raise e end.

Definition raises {A} (r : result A) : Prop :=
  match r with Ok _ => False | Raise _ => True end.

End Py.
Import Py.

(** ** Binary64 arithmetic

    Python's [float] is IEEE 754 binary64.  A finite float is the rational it
    denotes; every operation returns the exact result rounded to nearest,
    ties to even, with 53 bits of precision, gradual underflow below
    [2^-1022] and overflow to infinity from [2^1024 - 2^970] on.  Signed
    zeros are identified: no operation used here tells them apart (Python
    raises on a division by either). *)

Module Float.

Definition pow2 (e : Z) : Q :=
  if 0 <=? e then inject_Z (2 ^ e) else Qinv (inject_Z (2 ^ (- e))).

(** [ilog2 x] is the integer [k] with [2^k <= x < 2^(k+1)], for [0 < x]. *)
Definition ilog2 (x : Q) : Z :=
  let d := Z.log2 (Qnum x) - Z.log2 (Zpos (Qden x)) in
  if Qle_bool (pow2 d) x then d else d - 1.

(** Nearest integer, ties to even. *)
Definition rne (x : Q) : Z :=
  let q := Qnum x / Zpos (Qden x) in
  let r := Qnum x mod Zpos (Qden x) in
  match 2 * r ?= Zpos (Qden x) with
  | Lt => q
  | Gt => q + 1
  | Eq => if Z.even q then q else q + 1
  end.

Inductive float :=
| Fin (q : Q)
| Inf (neg : bool)
| NaN.

(** The exponent of the unit in the last place of [x], for [0 < x]. *)
Definition ulp_exp (x : Q) : Z := Z.max (ilog2 x - 52) (-1074).

Definition round_pos (x : Q) : Q :=
  let e := ulp_exp x in
  Qred (inject_Z (rne (x / pow2 e)) * pow2 e).

Definition round (x : Q) : float :=
  match Qnum x with
  | Z0 => Fin 0
  | Zpos _ =>
      let v := round_pos x in
      if Qle_bool (pow2 1024) v then Inf false else Fin v
  | Zneg _ =>
      let v := round_pos (- x) in
      if Qle_bool (pow2 1024) v then Inf true else Fin (Qred (- v))
  end.

Definition is_neg (q : Q) : bool := Qnum q <? 0.

(** [float(n)] and the implicit conversion of an [int] operand. *)
Definition of_int (n : Z) : result float :=
  match round (inject_Z n) with
  | Inf _ => Raise OverflowError
  | f => Ok f
  end.

(** [a / b] on floats. *)
Definition truediv (a b : float) : result float :=
  match a, b with
  | _, Fin y =>
      if Qeq_bool y 0 then Raise ZeroDivisionError
      else match a with
           | Fin x => Ok (round (x / y))
           | Inf s => Ok (Inf (xorb s (is_neg y)))
           | NaN => Ok NaN
           end
  | Fin _, Inf _ => Ok (Fin 0)
  | _, _ => Ok NaN
  end.

(** [a * b] on floats. *)
Definition mul (a b : float) : float :=
  match a, b with
  | Fin x, Fin y => round (x * y)
  | Fin x, Inf s | Inf s, Fin x =>
      if Qeq_bool x 0 then NaN else Inf (xorb s (is_neg x))
  | Inf s, Inf t => Inf (xorb s t)
  | _, _ => NaN
  end.

(** [a > b] on floats. *)
Definition gtb (a b : float) : bool :=
  match a, b with
  | Fin x, Fin y => negb (Qle_bool x y)
  | Fin _, Inf s => s
  | Inf s, Fin _ => negb s
  | Inf s, Inf t => negb s && t
  | _, _ => false
  end.

Definition ltb (a b : float) : bool := gtb b a.

(** [a > n] for a float [a] and an int [n]: Python compares the two
    exactly, without converting the int. *)
Definition gtb_int (a : float) (n : Z) : bool :=
  match a with
  | Fin x => negb (Qle_bool x (inject_Z n))
  | Inf s => negb s
  | NaN => false
  end.

(** [int(a)]: truncation towards zero. *)
Definition to_int (a : float) : result Z :=
  match a with
  | Fin x => Ok (Z.quot (Qnum x) (Zpos (Qden x)))
  | Inf _ => Raise OverflowError
  | NaN => Raise (ValueError "cannot convert float NaN to integer")
  end.

(** The unit roundoff of binary64. *)
Definition u : Q := pow2 (-53).

(** The floats of the Standard Library's specification of IEEE 754
    ([SpecFloat]), read as floats of this model, and its binary64
    conversion, division and multiplication. *)
Definition of_spec_float (f : spec_float) : float :=
  match f with
  | S754_zero _ => Fin 0
  | S754_finite s m e =>
      Fin (Qred ((if s then - (1) else 1) * inject_Z (Zpos m) * pow2 e))
  | S754_infinity s => Inf s
  | S754_nan => NaN
  end.

Definition SF64_of_int (n : Z) : spec_float := binary_normalize 53 1024 n 0 false.
Definition SF64div : spec_float -> spec_float -> spec_float := SFdiv 53 1024.
Definition SF64mul : spec_float -> spec_float -> spec_float := SFmul 53 1024.

Definition is_Fin (f : float) : bool :=
  match f with Fin _ => true | _ => false end.

(** [float(a)], [float(a) / float(b)] and [float(a) * float(b)] agree with
    the Standard Library's binary64. *)
Definition agrees_with_SpecFloat (a b : Z) : bool :=
  let fa := round (inject_Z a) in
  let fb := round (inject_Z b) in
  bool_decide (is_Fin fa = true) && bool_decide (is_Fin fb = true)
  && match fa, of_spec_float (SF64_of_int a) with
     | Fin x, Fin y => Qeq_bool x y
     | _, _ => false
     end
  && match truediv fa fb, of_spec_float (SF64div (SF64_of_int a) (SF64_of_int b)) with
     | Ok (Fin x), Fin y => Qeq_bool x y
     | Ok (Inf s), Inf t => bool_decide (s = t)
     | Raise ZeroDivisionError, _ => bool_decide (b = 0)
     | _, _ => false
     end
  && match mul fa fb, of_spec_float (SF64mul (SF64_of_int a) (SF64_of_int b)) with
     | Fin x, Fin y => Qeq_bool x y
     | Inf s, Inf t => bool_decide (s = t)
     | _, _ => false
     end.

End Float.

(** ** Image geometry ([new_size_keep_aspect_ratio],
       [new_size_by_croping_ratio]) *)

(** A Python number: the local variables [tx], [ty] hold an [int] or a
    [float] depending on the branch taken. *)
Inductive num :=
| Int (n : Z)
| Flt (f : Float.float).

Definition int (v : num) : result Z :=
  match v with
  | Int n => Ok n
  | Flt f => Float.to_int f
  end.

(** [n / float(d)] *)
Definition div_by_float_of (n d : Z) : result Float.float :=
  fd ← Float.of_int d;
  fn ← Float.of_int n;
  Float.truediv fn fd.

(** [f * n] with [f] a float and [n] an int. *)
Definition mul_int (f : Float.float) (n : Z) : result Float.float :=
  fn ← Float.of_int n;
  mret (Float.mul f fn).

Definition new_size_keep_aspect_ratio
    (original_size target_size : Z * Z) (resize_type : string) : result (Z * Z) :=
  img_ratio ← div_by_float_of original_size.1 original_size.2;
  ratio ← div_by_float_of target_size.1 target_size.2;
  let '(ox, oy) := original_size in
  let '(tx, ty) := target_size in
  '(tx, ty) ←
    (if Float.gtb ratio img_ratio then
       (* fit to width *)
       scale_factor ← div_by_float_of target_size.1 ox;
       ty ← mul_int scale_factor oy;
       if Float.gtb_int ty target_size.2 && String.eqb resize_type "inner" then
         scale_factor ← div_by_float_of target_size.2 oy;
         tx ← mul_int scale_factor ox;
         mret (Flt tx, Int target_size.2)
       else mret (Int tx, Flt ty)
     else if Float.ltb ratio img_ratio then
       (* fit to height *)
       scale_factor ← div_by_float_of target_size.2 oy;
       tx ← mul_int scale_factor ox;
       if Float.gtb_int tx target_size.1 && String.eqb resize_type "inner" then
         scale_factor ← div_by_float_of target_size.1 ox;
         ty ← mul_int scale_factor oy;
         mret (Int target_size.1, Flt ty)
       else mret (Flt tx, Int ty)
     else mret (Int tx, Int ty));
  rx ← int tx;
  ry ← int ty;
  mret (rx, ry).

(** [s.startswith(p)] and [s.endswith(p)] *)
Definition startswith (s p : string) : bool := String.prefix p s.

Definition endswith (s p : string) : bool :=
  let n := String.length s in
  let k := String.length p in
  (k <=? n)%nat && String.eqb (String.substring (n - k) k s) p.

Definition new_size_by_croping_ratio
    (original_size target_size : Z * Z) (crop_type : string)
  : result (Z * Z * Z * Z) :=
  img_ratio ← div_by_float_of original_size.1 original_size.2;
  ratio ← div_by_float_of target_size.1 target_size.2;
  let '(tx, ty) := original_size in
  '(tx, ty) ←
    (if Float.gtb ratio img_ratio then
       (* crop on constant width *)
       fw ← Float.of_int original_size.1;
       q ← Float.truediv fw ratio;
       ty ← Float.to_int q;
       mret (tx, ty)
     else if Float.ltb ratio img_ratio then
       (* crop on constant height *)
       p ← mul_int ratio original_size.2;
       tx ← Float.to_int p;
       mret (tx, ty)
     else mret (tx, ty));
  let x :=
    if endswith crop_type "left" then 0
    else if endswith crop_type "center" then (original_size.1 - tx) `div` 2
    else if endswith crop_type "right" then original_size.1 - tx
    else 0 in
  let y :=
    if startswith crop_type "top" then 0
    else if startswith crop_type "center" then (original_size.2 - ty) `div` 2
    else if startswith crop_type "bottom" then original_size.2 - ty
    else 0 in
  mret (x, y, tx + x, ty + y).

(** The nine anchors listed in the docstring of [new_size_by_croping_ratio]. *)
Definition crop_types : list string :=
  [ "top-left"; "top-center"; "top-right";
    "center-left"; "center"; "center-right";
    "bottom-left"; "bottom-center"; "bottom-right" ]%string.

(** *** Quantities used to state and prove the properties of the geometry *)

(** The largest width or height the bounded properties cover. *)
Definition max_dim : Z := 2 ^ 24.

Definition dim (n : Z) : Prop := 0 < n <= max_dim.

(** What [float(n)], [a / float(b)] and [q * c] evaluate to on dimensions. *)
Definition fl_int (n : Z) : Q := Float.round_pos (inject_Z n).
Definition fdiv (a b : Z) : Q := Float.round_pos (fl_int a / fl_int b).
Definition fmul (q : Q) (c : Z) : Q := Float.round_pos (q * fl_int c).

(** The float computed for [w / ratio] with [ratio = tw / float(th)]. *)
Definition fquot (w tw th : Z) : Q := Float.round_pos (fl_int w / fdiv tw th).

(** [q] is [E] up to one rounding. *)
Definition near1 (q E : Q) : Prop :=
  (E * (1 - Float.u) <= q /\ q <= E * (1 + Float.u))%Q.

(** What [new_size_keep_aspect_ratio] computes while every operation stays
    in range. *)
Definition fit (ox oy tw th : Z) (inner : bool) : Z * Z :=
  let img_ratio := fdiv ox oy in
  let ratio := fdiv tw th in
  if negb (Qle_bool ratio img_ratio) then
    let ty := fmul (fdiv tw ox) oy in
    if negb (Qle_bool ty (inject_Z th)) && inner then
      (Qfloor (fmul (fdiv th oy) ox), th)
    else (tw, Qfloor ty)
  else if negb (Qle_bool img_ratio ratio) then
    let tx := fmul (fdiv th oy) ox in
    if negb (Qle_bool tx (inject_Z tw)) && inner then
      (tw, Qfloor (fmul (fdiv tw ox) oy))
    else (Qfloor tx, th)
  else (tw, th).

(** The width and height of the crop, in the same conditions, and the
    position of its corner for an anchor. *)
Definition crop_size (ow oh tw th : Z) : Z * Z :=
  let img_ratio := fdiv ow oh in
  let ratio := fdiv tw th in
  if negb (Qle_bool ratio img_ratio) then (ow, Qfloor (fquot ow tw th))
  else if negb (Qle_bool img_ratio ratio) then (Qfloor (fmul ratio oh), oh)
  else (ow, oh).

Definition anchor_x (crop_type : string) (ow tx : Z) : Z :=
  if endswith crop_type "left" then 0
  else if endswith crop_type "center" then (ow - tx) `div` 2
  else if endswith crop_type "right" then ow - tx
  else 0.

Definition anchor_y (crop_type : string) (oh ty : Z) : Z :=
  if startswith crop_type "top" then 0
  else if startswith crop_type "center" then (oh - ty) `div` 2
  else if startswith crop_type "bottom" then oh - ty
  else 0.

(** ** Task pool ([AsyncTasksPool]) *)

Module Pool.

(** The [futures.ThreadPoolExecutor] shared by every pool object, with the
    [stop_event] attribute the pool attaches to it.  [shut_down] is the
    executor's own flag, set by [shutdown()]: from then on the standard
    library's [submit] raises [RuntimeError]. *)
Record Executor := mkExecutor {
  stop_event : bool;
  shut_down : bool
}.

(** Tasks and futures are objects; they are named by natural numbers. *)
Definition task_id := nat.
Definition future_id := nat.

(** The process-wide state once a first pool object exists: the executor
    reached through [AsyncTask.POOL._pool], the class attribute [FUTURES],
    the tasks whose own stop event has been set by [kill], and the next
    fresh future. *)
Record World := mkWorld {
  executor : Executor;
  FUTURES : gmap future_id task_id;
  killed : gset task_id;
  next_future : future_id
}.

Definition shutting_down_msg : string := "AsyncTasksPool is shutting down".
Definition executor_shutdown_msg : string :=
  "cannot schedule new futures after shutdown".

(** [AsyncTasksPool()]: [None] stands for [AsyncTask.POOL is None]. *)
Definition __init__ (w : option World) : World :=
  match w with
  | None =>
      mkWorld (mkExecutor false false) ∅ ∅ 0%nat
  | Some w =>
      mkWorld (mkExecutor false (shut_down (executor w)))
              (FUTURES w) (killed w) (next_future w)
  end.

(** [ThreadPoolExecutor.submit] *)
Definition submit (w : World) : result future_id :=
  if shut_down (executor w) then Raise (RuntimeError executor_shutdown_msg)
  else Ok (next_future w).

Definition start_task (w : World) (task : task_id) : result future_id * World :=
  if stop_event (executor w) then (Raise (RuntimeError shutting_down_msg), w)
  else
    match submit w with
    | Raise e => (Raise e, w)
    | Ok future =>
        (Ok future,
         mkWorld (executor w) (<[future := task]> (FUTURES w)) (killed w)
                 (S (next_future w)))
    end.

(** [self.FUTURES.pop(future)] *)
Definition finish_task (w : World) (future : future_id) : result unit * World :=
  match FUTURES w !! future with
  | None => (Raise KeyError, w)
  | Some _ =>
      (Ok tt, mkWorld (executor w) (delete future (FUTURES w)) (killed w)
                      (next_future w))
  end.

(** [quit]: every tracked task is killed (its stop event set), the registry
    is cleared and the executor shut down. *)
Definition quit (w : World) : World :=
  mkWorld (mkExecutor true true) ∅
          (killed w ∪ list_to_set (map snd (map_to_list (FUTURES w))))
          (next_future w).

(** The operations a client can apply to the pool. *)
Inductive op :=
| Construct
| StartTask (task : task_id)
| FinishTask (future : future_id)
| Quit.

Definition step (w : World) (o : op) : World :=
  match o with
  | Construct => __init__ (Some w)
  | StartTask t => (start_task w t).2
  | FinishTask f => (finish_task w f).2
  | Quit => quit w
  end.

Definition run (w : World) (ops : list op) : World := foldl step w ops.

End Pool.

(** ** Task execution ([AsyncTask.__call__], [AsyncTask.emit]) *)

Module Task.

Section WithPayload.

Context {A : Type}.

(** [pygame.event.Event(type, result=data, exception=exception)] *)
Record Event := mkEvent {
  event_kind : Z;
  event_result : option A;
  event_exception : option exn
}.

(** What one call of the runnable does. *)
Inductive outcome :=
| Returns (v : A)
| Raises (ex : exn).

Record AsyncTask := mkAsyncTask {
  (** the outcome of the [i]-th call of the runnable *)
  runnable : nat -> outcome;
  event_type : option Z;
  loop : bool;
  (** what [_stop_event.is_set()] answers at the [i]-th test of the loop *)
  _stop_event : nat -> bool
}.

(** [emit]; the list is the pygame event queue, [post] appends to it. *)
Definition emit (self : AsyncTask) (data : option A) (exception : option exn)
    (queue : list Event) : list Event :=
  match event_type self with
  | Some k => queue ++ [mkEvent k data exception]
  | None => queue
  end.

(** The [while] loop of [__call__] from its [i]-th iteration on, with the
    current [result] and event queue.  [None]: the fuel ran out. *)
Fixpoint call_from (fuel : nat) (self : AsyncTask) (i : nat)
    (result : option A) (queue : list Event) : option (option A * list Event) :=
  match fuel with
  | O => None
  | S fuel =>
      if _stop_event self i then Some (result, queue)
      else
        match runnable self i with
        | Returns v =>
            let queue := emit self (Some v) None queue in
            if negb (loop self) then Some (Some v, queue)
            else call_from fuel self (S i) (Some v) queue
        | Raises ex =>
            Some (result, emit self None (Some ex) queue)
        end
  end.

Definition __call__ (fuel : nat) (self : AsyncTask) (queue : list Event) :=
  call_from fuel self 0%nat None queue.

(** The event the [i]-th iteration posts when an event type [k] is set. *)
Definition event_of (self : AsyncTask) (k : Z) (i : nat) : Event :=
  match runnable self i with
  | Returns v => mkEvent k (Some v) None
  | Raises ex => mkEvent k None (Some ex)
  end.

Definition posted (self : AsyncTask) (i n : nat) : list Event :=
  match event_type self with
  | Some k => map (event_of self k) (seq i n)
  | None => []
  end.

Definition fails_at (self : AsyncTask) (i : nat) : Prop :=
  match runnable self i with Raises _ => True | Returns _ => False end.

(** The run from the [i]-th iteration on stops after exactly [n]
    iterations: the stop event is unset at the test of each of them, each
    but the last returns with [loop] true, and then the run stops, because
    the last iteration failed, or [loop] is false, or the next test of the
    loop finds the stop event set. *)
Definition ends_at (self : AsyncTask) (i n : nat) : Prop :=
  (forall k, (i <= k < i + n)%nat -> _stop_event self k = false)
  /\ (forall k, (i <= k)%nat -> (S k < i + n)%nat ->
        loop self = true /\ ~ fails_at self k)
  /\ match n with
     | O => _stop_event self i = true
     | S m =>
         fails_at self (i + m) \/ loop self = false
         \/ _stop_event self (i + S m) = true
     end.

End WithPayload.

Arguments Event A : clear implicits.
Arguments outcome A : clear implicits.
Arguments AsyncTask A : clear implicits.

(** A looping task whose runnable returns twice and then fails. *)
Definition flaky (event : option Z) : AsyncTask Z :=
  mkAsyncTask
    (fun i => if (i <? 2)%nat then Returns (Z.of_nat i)
              else Raises (ValueError "capture"))
    event true (fun _ => false).

End Task.

(** ** Drawable nodes ([BaseSprite], [ImageSprite]) *)

Module Sprite.

(** The part of pygame and PIL the sprites rely on.  Surfaces and PIL
    images are values compared with Python's [==]: by content for
    [PIL.Image.Image], by identity for [pygame.Surface].
    [load_pygame_image] is called by [ImageSprite.draw] and defined nowhere
    in the module; it is taken as one more primitive. *)
Class Pygame := {
  Surface : Type;
  PILImage : Type;
  Surface_eq_dec :: EqDecision Surface;
  PILImage_eq_dec :: EqDecision PILImage;
  get_size : Surface -> Z * Z;
  (** [pygame.Surface(size, pygame.SRCALPHA, 32)] *)
  new_surface : Z * Z -> Surface;
  (** [surface.fill(color, None, special_flags)] *)
  fill : Surface -> list Z -> option string -> Surface;
  copy : Surface -> Surface;
  (** [pygame.image.frombuffer(im.tobytes(), im.size, im.mode)] *)
  frombuffer : PILImage -> Surface;
  rotate : Surface -> Z -> Surface;
  smoothscale : Surface -> Z * Z -> Surface;
  scale : Surface -> Z * Z -> Surface;
  (** [dest.blit(source, topleft, area)] *)
  blit : Surface -> Surface -> Z * Z -> option (Z * Z * Z * Z) -> Surface;
  flip : Surface -> bool -> bool -> Surface;
  load_pygame_image : string -> Surface;
  KEYDOWN : Z;
  K_SPACE : Z;
  USEREVENT : Z
}.

Section WithPygame.

Context `{Pygame}.

Definition color := list Z.

(** [if color:] on [None] or a tuple. *)
Definition truthy_color (c : option color) : bool :=
  match c with
  | Some (_ :: _) => true
  | _ => false
  end.

Definition colorize_pygame_image (surface : Surface) (c : color) : Surface :=
  let surface := copy surface in
  (* zero out RGB values *)
  let surface := fill surface [0; 0; 0; 255] (Some "BLEND_RGBA_MULT"%string) in
  (* add in new RGB values *)
  fill surface (take 3 c ++ [0]) (Some "BLEND_RGBA_ADD"%string).

(** Top-left corner of [image.get_rect(center=new_surface.get_rect().center)]. *)
Definition centered_topleft (image_size size : Z * Z) : Z * Z :=
  (size.1 `div` 2 - image_size.1 `div` 2, size.2 `div` 2 - image_size.2 `div` 2).

Definition transform_pygame_image (surface : Surface) (size : Z * Z)
    (antialiasing hflip vflip : bool) (angle : Z) (crop : bool)
    (c : option color) : result Surface :=
  let resize_type := (if crop then "outer" else "inner")%string in
  let surface := if bool_decide (angle ≠ 0) then rotate surface angle else surface in
  image ←
    (if bool_decide (size ≠ get_size surface) then
       new_size ← new_size_keep_aspect_ratio (get_size surface) size resize_type;
       mret (if antialiasing then smoothscale surface new_size
             else scale surface new_size)
     else mret (copy surface));
  image ←
    (if crop && bool_decide (size ≠ get_size image) then
       (* Crop image to fill surface *)
       area ← new_size_by_croping_ratio (get_size image) size "center";
       mret (blit (new_surface size) image (0, 0) (Some area))
     else if bool_decide (size ≠ get_size image) then
       (* Center image on surface *)
       mret (blit (new_surface size) image
                  (centered_topleft (get_size image) size) None)
     else mret image);
  let image := if hflip || vflip then flip image hflip vflip else image in
  let image :=
    if truthy_color c then colorize_pygame_image image (default [] c)
    else image in
  mret image.

(** [pygame.Rect] *)
Record Rect := mkRect {
  rect_x : Z;
  rect_y : Z;
  rect_w : Z;
  rect_h : Z
}.

Definition topleft (r : Rect) : Z * Z := (rect_x r, rect_y r).
Definition size (r : Rect) : Z * Z := (rect_w r, rect_h r).

(** The objects a skin can be, apart from a [str]: [None], an RGB tuple or
    list, a PIL image or a pygame surface.  [_image_orig] holds one. *)
Inductive obj :=
| ONone
| OTuple (c : color)
| OList (c : color)
| OPil (im : PILImage)
| OSurface (sf : Surface).

(** The argument of [set_skin] and the value of [get_skin]. *)
Inductive skin :=
| SStr (s : string)
| SObj (o : obj).

#[export] Instance obj_eq_dec : EqDecision obj.
Proof. solve_decision. Defined.

#[export] Instance skin_eq_dec : EqDecision skin.
Proof. solve_decision. Defined.

#[export] Instance Rect_eq_dec : EqDecision Rect.
Proof. solve_decision. Defined.

(** The attributes of one sprite object: those of [BaseSprite] (with
    [dirty] and [visible] inherited from [pygame.sprite.DirtySprite]) and
    those [ImageSprite] adds.  The sub-sprites are in [Sprite] below. *)
Record ImageSprite := mkImageSprite {
  _image_cache : option Surface;
  rect : Rect;
  color_ : option color;
  pressed : Z;
  layer : Z;
  dirty : Z;
  visible : Z;
  _image_orig : obj;
  path : option string;
  crop : bool;
  hflip : bool;
  vflip : bool;
  angle : Z;
  colorize : bool
}.

Definition set__image_cache (v : option Surface) (s : ImageSprite) :=
  mkImageSprite v (rect s) (color_ s) (pressed s) (layer s) (dirty s) (visible s)
    (_image_orig s) (path s) (crop s) (hflip s) (vflip s) (angle s) (colorize s).
Definition set_rect_ (v : Rect) (s : ImageSprite) :=
  mkImageSprite (_image_cache s) v (color_ s) (pressed s) (layer s) (dirty s)
    (visible s) (_image_orig s) (path s) (crop s) (hflip s) (vflip s) (angle s)
    (colorize s).
Definition set_color_ (v : option color) (s : ImageSprite) :=
  mkImageSprite (_image_cache s) (rect s) v (pressed s) (layer s) (dirty s)
    (visible s) (_image_orig s) (path s) (crop s) (hflip s) (vflip s) (angle s)
    (colorize s).
Definition set_dirty_ (v : Z) (s : ImageSprite) :=
  mkImageSprite (_image_cache s) (rect s) (color_ s) (pressed s) (layer s) v
    (visible s) (_image_orig s) (path s) (crop s) (hflip s) (vflip s) (angle s)
    (colorize s).
Definition set__image_orig (v : obj) (s : ImageSprite) :=
  mkImageSprite (_image_cache s) (rect s) (color_ s) (pressed s) (layer s)
    (dirty s) (visible s) v (path s) (crop s) (hflip s) (vflip s) (angle s)
    (colorize s).
Definition set_path (v : option string) (s : ImageSprite) :=
  mkImageSprite (_image_cache s) (rect s) (color_ s) (pressed s) (layer s)
    (dirty s) (visible s) (_image_orig s) v (crop s) (hflip s) (vflip s)
    (angle s) (colorize s).
Definition set_crop_ (v : bool) (s : ImageSprite) :=
  mkImageSprite (_image_cache s) (rect s) (color_ s) (pressed s) (layer s)
    (dirty s) (visible s) (_image_orig s) (path s) v (hflip s) (vflip s)
    (angle s) (colorize s).
Definition set_hflip (v : bool) (s : ImageSprite) :=
  mkImageSprite (_image_cache s) (rect s) (color_ s) (pressed s) (layer s)
    (dirty s) (visible s) (_image_orig s) (path s) (crop s) v (vflip s)
    (angle s) (colorize s).
Definition set_vflip (v : bool) (s : ImageSprite) :=
  mkImageSprite (_image_cache s) (rect s) (color_ s) (pressed s) (layer s)
    (dirty s) (visible s) (_image_orig s) (path s) (crop s) (hflip s) v
    (angle s) (colorize s).
Definition set_angle_ (v : Z) (s : ImageSprite) :=
  mkImageSprite (_image_cache s) (rect s) (color_ s) (pressed s) (layer s)
    (dirty s) (visible s) (_image_orig s) (path s) (crop s) (hflip s) (vflip s)
    v (colorize s).

(** The setter of [DirtySprite.visible]: it also marks the sprite dirty
    unless it is permanently dirty ([dirty == 2]). *)
Definition set_visible (v : Z) (s : ImageSprite) :=
  mkImageSprite (_image_cache s) (rect s) (color_ s) (pressed s) (layer s)
    (if dirty s <? 2 then 1 else dirty s) v (_image_orig s) (path s) (crop s)
    (hflip s) (vflip s) (angle s) (colorize s).

(** [BaseSprite.__init__] followed by [ImageSprite.__init__] without skin. *)
Definition new_sprite (sz : Z * Z) (lyr : Z) (colorize_ : bool) : ImageSprite :=
  mkImageSprite None (mkRect 0 0 sz.1 sz.2) None 0 lyr 1 1
    ONone None false false false 0 colorize_.

Definition set_dirty (redraw : bool) (self : ImageSprite) : ImageSprite :=
  let self := set_dirty_ 1 self in
  if redraw then set__image_cache None self else self.

Definition set_rect (x y width height : Z) (self : ImageSprite)
  : result unit * ImageSprite :=
  if negb (0 <? width) then
    (Raise (AssertionError "Sprite width shall be greater than zero"), self)
  else if negb (0 <? height) then
    (Raise (AssertionError "Sprite height shall be greater than zero"), self)
  else
    let self :=
      if bool_decide (topleft (rect self) ≠ (x, y)) then
        set_dirty false
          (set_rect_ (mkRect x y (rect_w (rect self)) (rect_h (rect self))) self)
      else self in
    let self :=
      if bool_decide (size (rect self) ≠ (width, height)) then
        set_dirty true
          (set_rect_ (mkRect (rect_x (rect self)) (rect_y (rect self)) width height)
             self)
      else self in
    (Ok tt, self).

Definition set_color (c : option color) (self : ImageSprite) : ImageSprite :=
  if bool_decide (c ≠ color_ self) then set_dirty true (set_color_ c self)
  else self.

(** [if self.path:] *)
Definition truthy_path (p : option string) : bool :=
  match p with
  | Some (String _ _) => true
  | _ => false
  end.

Definition draw (self : ImageSprite) : result Surface * ImageSprite :=
  let c := if colorize self then color_ self else None in
  let transformed (sf : Surface) :=
    transform_pygame_image sf (size (rect self)) true
      (hflip self) (vflip self) (angle self) (crop self) c in
  match _image_orig self with
  | ONone =>
      if truthy_path (path self) then
        let sf := load_pygame_image (default ""%string (path self)) in
        (transformed sf, set__image_orig (OSurface sf) self)
      else (Raise (ValueError "Path to image is missing"), self)
  | OTuple rgb | OList rgb =>
      (Ok (fill (new_surface (size (rect self))) rgb None), self)
  | OPil im => (transformed (frombuffer im), self)
  | OSurface sf => (transformed sf, self)
  end.

(** The [image] property. *)
Definition image (self : ImageSprite) : result Surface * ImageSprite :=
  match _image_cache self with
  | Some img => (Ok img, self)
  | None =>
      match draw self with
      | (Ok img, self) => (Ok img, set__image_cache (Some img) self)
      | (Raise e, self) => (Raise e, self)
      end
  end.

Definition set_skin (sk : skin) (self : ImageSprite) : result unit * ImageSprite :=
  match sk with
  | SStr p =>
      if bool_decide (Some p ≠ path self) then
        (Ok tt, set_dirty true (set__image_orig ONone (set_path (Some p) self)))
      else (Ok tt, self)
  | SObj (OTuple rgb as o) | SObj (OList rgb as o) =>
      if negb (length rgb =? 3)%nat then
        (Raise (AssertionError "Length of 3 is required for RGB tuple"), self)
      else if bool_decide (o ≠ _image_orig self) then
        (Ok tt, set_dirty true (set__image_orig o (set_path None self)))
      else (Ok tt, self)
  | SObj (OPil _ as o) | SObj (OSurface _ as o) =>
      if bool_decide (o ≠ _image_orig self) then
        (Ok tt, set_dirty true (set__image_orig o (set_path None self)))
      else (Ok tt, self)
  | SObj ONone =>
      (Raise (AssertionError "PIL Image or Pygame Surface is required"), self)
  end.

(** [self.path or self._image_orig] *)
Definition get_skin (self : ImageSprite) : skin :=
  match path self with
  | Some (String a p) => SStr (String a p)
  | _ => SObj (_image_orig self)
  end.

Definition set_crop (c : bool) (self : ImageSprite) : ImageSprite :=
  if bool_decide (c ≠ crop self) then set_dirty true (set_crop_ c self)
  else self.

Definition set_flip (hf vf : option bool) (self : ImageSprite) : ImageSprite :=
  let self :=
    match hf with
    | Some b =>
        if bool_decide (b ≠ hflip self) then set_dirty true (set_hflip b self)
        else self
    | None => self
    end in
  match vf with
  | Some b =>
      if bool_decide (b ≠ vflip self) then set_dirty true (set_vflip b self)
      else self
  | None => self
  end.

Definition set_angle (a : Z) (self : ImageSprite) : ImageSprite :=
  if bool_decide (a ≠ angle self) then set_dirty true (set_angle_ a self)
  else self.

(** A sprite with its sub-sprites: [add_sprite] appends a sprite to the
    [_subsprites] of its direct parent only. *)
#[warnings="-register-all"]
Inductive Sprite :=
| Node (self : ImageSprite) (_subsprites : list Sprite).

Definition node_self (n : Sprite) : ImageSprite :=
  match n with Node s _ => s end.

(** [get_sprites()] with its default arguments. *)
Definition get_sprites (n : Sprite) : list Sprite :=
  match n with Node _ subs => subs end.

(** [get_sprites(recursive=True)] *)
Fixpoint get_sprites_recursive (n : Sprite) : list Sprite :=
  match n with
  | Node _ subs => subs ++ concat (map get_sprites_recursive subs)
  end.

Fixpoint show (n : Sprite) : Sprite :=
  match n with
  | Node s subs =>
      if bool_decide (visible s = 0) then Node (set_visible 1 s) (map show subs)
      else n
  end.

Fixpoint hide (n : Sprite) : Sprite :=
  match n with
  | Node s subs =>
      if bool_decide (visible s ≠ 0) then Node (set_visible 0 s) (map hide subs)
      else n
  end.


(** The mutators, as a client applies them to one sprite. *)
Inductive mutation :=
| SetRect (x y width height : Z)
| SetSkin (sk : skin)
| SetColor (c : option color)
| SetCrop (c : bool)
| SetFlip (hf vf : option bool)
| SetAngle (a : Z)
| Render.

Definition apply (self : ImageSprite) (m : mutation) : ImageSprite :=
  match m with
  | SetRect x y width height => (set_rect x y width height self).2
  | SetSkin sk => (set_skin sk self).2
  | SetColor c => set_color c self
  | SetCrop c => set_crop c self
  | SetFlip hf vf => set_flip hf vf self
  | SetAngle a => set_angle a self
  | Render => (image self).2
  end.

(** What [draw] returns for the current skin, transform flags, colour and
    rectangle size. *)
Definition rendering (self : ImageSprite) : result Surface := (draw self).1.

(** The cached image, when there is one, is the rendering of the current
    attributes. *)
Definition coherent (self : ImageSprite) : Prop :=
  forall img, _image_cache self = Some img -> rendering self = Ok img.

(** Every sprite of the tree, the root included, satisfies [P]. *)
Fixpoint all_sprites (P : ImageSprite -> Prop) (n : Sprite) : Prop :=
  match n with
  | Node s subs => P s /\ foldr (fun m acc => all_sprites P m /\ acc) True subs
  end.


(** A method applied to the first sub-sprite of a sprite. *)
Definition on_first (f : Sprite -> Sprite) (n : Sprite) : Sprite :=
  match n with
  | Node s (m :: subs) => Node s (f m :: subs)
  | Node s [] => n
  end.

End WithPygame.

End Sprite.

(** ** The consumer loop ([Game.update]) *)

Module Game.

Import Sprite.

(** The display and the camera, as [Game.update] uses them. *)
Class Display `{Pygame} := {
  Screen : Type;
  (** [screen.get_rect().center] *)
  screen_center : Screen -> Z * Z;
  (** [screen.blit(surface, topleft)] *)
  screen_blit : Screen -> Surface -> Z * Z -> Screen;
  (** [pygame.display.update(rects)] *)
  display_update : Screen -> list Rect -> Screen;
  (** [surface.convert()] *)
  convert : Surface -> Surface;
  (** [camera.switch_mode_and_capture_image(capture_config, 'main')] *)
  camera_capture : PILImage;
  (** [pygame.sprite.LayeredDirty.draw] on the group holding one sprite *)
  sprites_draw : Sprite -> Screen -> result (list Rect * Sprite * Screen)
}.

Section WithDisplay.

Context `{Display}.

Definition CAM_EVENT : Z := USEREVENT + 201.

(** The events [pygame.event.get()] hands to [update]: key events, the
    events posted by [AsyncTask.emit], and the others. *)
Inductive event :=
| KeyEvent (type key : Z)
| TaskEvent (e : Task.Event PILImage)
| OtherEvent (type : Z).

Definition type_of (e : event) : Z :=
  match e with
  | KeyEvent t _ => t
  | TaskEvent e => Task.event_kind e
  | OtherEvent t => t
  end.

(** [event.type == pygame.KEYDOWN and event.key == pygame.K_SPACE] *)
Definition is_space_keydown (e : event) : bool :=
  match e with
  | KeyEvent t k => bool_decide (t = KEYDOWN) && bool_decide (k = K_SPACE)
  | _ => false
  end.

(** [event.result] *)
Definition result_of (e : event) : result (option PILImage) :=
  match e with
  | TaskEvent e => Ok (Task.event_result e)
  | _ => Raise (AttributeError "result")
  end.

(** The capture branch: the still image is shown at the top-left corner. *)
Definition capture_and_display (screen : Screen) : Screen :=
  let surface := convert (frombuffer camera_capture) in
  let r := mkRect 0 0 (get_size surface).1 (get_size surface).2 in
  display_update (screen_blit screen surface (topleft r)) [r].

(** [surface.get_rect(center=c)] *)
Definition rect_centered (sz c : Z * Z) : Rect :=
  mkRect (c.1 - sz.1 `div` 2) (c.2 - sz.2 `div` 2) sz.1 sz.2.

(** *** [use_update_on_event.Game] *)

Definition image2surface (img : option PILImage) (sz : Z * Z) : result Surface :=
  match img with
  | None => Raise (AttributeError "'NoneType' object has no attribute 'tobytes'")
  | Some im =>
      transform_pygame_image (frombuffer im) sz true false false 0 false None
  end.

Fixpoint update_loop (preview_size : Z * Z) (events : list event)
    (screen : Screen) (dirty_rects : list Rect) : result (Screen * list Rect) :=
  match events with
  | [] => Ok (screen, dirty_rects)
  | ev :: events =>
      let screen :=
        if is_space_keydown ev then capture_and_display screen else screen in
      if bool_decide (type_of ev = CAM_EVENT) then
        img ← result_of ev;
        surface ← image2surface img preview_size;
        let r := rect_centered (get_size surface) (screen_center screen) in
        let screen := screen_blit screen surface (topleft r) in
        update_loop preview_size events screen (dirty_rects ++ [r])
      else update_loop preview_size events screen dirty_rects
  end.

Definition update (preview_size : Z * Z) (screen : Screen) (events : list event)
  : result Screen :=
  '(screen, dirty_rects) ← update_loop preview_size events screen [];
  mret (display_update screen dirty_rects).

(** *** [use_update_dirty_on_event.Game] *)

Record Game := mkGame {
  (** [self.sprites.get_sprite(0)] *)
  sprite0 : Sprite;
  capture_counter : Z
}.

Definition skin_of (img : option PILImage) : skin :=
  match img with
  | None => SObj ONone
  | Some im => SObj (OPil im)
  end.

Fixpoint dirty_update_loop (self : Game) (events : list event) (screen : Screen)
  : result (Game * Screen) :=
  match events with
  | [] => Ok (self, screen)
  | ev :: events =>
      let screen :=
        if is_space_keydown ev then capture_and_display screen else screen in
      if bool_decide (type_of ev = CAM_EVENT) then
        img ← result_of ev;
        match sprite0 self with
        | Node s subs =>
            match set_skin (skin_of img) s with
            | (Raise e, _) => Raise e
            | (Ok _, s) =>
                dirty_update_loop
                  (mkGame (show (Node s subs)) (capture_counter self + 1))
                  events screen
            end
        end
      else dirty_update_loop self events screen
  end.

Definition dirty_update (self : Game) (screen : Screen) (events : list event)
  : result (Game * Screen) :=
  '(self, screen) ← dirty_update_loop self events screen;
  '(dirty_rects, sp, screen) ← sprites_draw (sprite0 self) screen;
  mret (mkGame sp (capture_counter self), display_update screen dirty_rects).

(** The event [AsyncTask.emit(None, ex)] posts for a task created with
    [event=CAM_EVENT]. *)
Definition failure_event (ex : exn) : event :=
  TaskEvent (Task.mkEvent CAM_EVENT None (Some ex)).

End WithDisplay.

End Game.

(** ** A symbolic pygame

    Surfaces are the terms that build them; a PIL image is an identifier
    with a size.  Used to run the sprites and the consumer loop on concrete
    inputs. *)

Module Symbolic.

Import Sprite Game.

Inductive canvas :=
| Blank (sz : Z * Z)
| Fill (s : canvas) (c : list Z) (flags : option string)
| Copy (s : canvas)
| FromBuffer (im : nat * (Z * Z))
| Rotate (s : canvas) (a : Z)
| Scale (smooth : bool) (s : canvas) (sz : Z * Z)
| Blit (dest src : canvas) (pos : Z * Z) (area : option (Z * Z * Z * Z))
| Flip (s : canvas) (h v : bool)
| Load (p : string).

#[export] Instance canvas_eq_dec : EqDecision canvas.
Proof. solve_decision. Defined.

Fixpoint canvas_size (s : canvas) : Z * Z :=
  match s with
  | Blank sz => sz
  | Fill s _ _ | Copy s | Flip s _ _ => canvas_size s
  | FromBuffer im => im.2
  | Rotate s a =>
      if bool_decide (a `mod` 180 = 0) then canvas_size s
      else ((canvas_size s).2, (canvas_size s).1)
  | Scale _ _ sz => sz
  | Blit dest _ _ _ => canvas_size dest
  | Load _ => (640, 480)
  end.

#[export] Instance pygame : Pygame := {|
  Surface := canvas;
  PILImage := nat * (Z * Z);
  get_size := canvas_size;
  new_surface := Blank;
  fill := Fill;
  copy := Copy;
  frombuffer := FromBuffer;
  rotate := Rotate;
  smoothscale s sz := Scale true s sz;
  scale s sz := Scale false s sz;
  blit := Blit;
  flip := Flip;
  load_pygame_image := Load;
  KEYDOWN := 768;
  K_SPACE := 32;
  USEREVENT := 32768
|}.

#[export] Instance display : Display := {|
  Screen := list (canvas * (Z * Z));
  screen_center _ := (400, 240);
  screen_blit screen sf pos := screen ++ [(sf, pos)];
  display_update screen _ := screen;
  convert sf := sf;
  camera_capture := (0%nat, (2592, 1944));
  sprites_draw sp screen := Ok ([], sp, screen)
|}.

(** A sprite filled with red, and a chain of three sprites. *)
Definition red : skin := SObj (OTuple [255; 0; 0]).

Definition red_sprite : ImageSprite :=
  (set_skin red (new_sprite (10, 10) 2 true)).2.

Definition chain : Sprite :=
  Node red_sprite [Node red_sprite [Node red_sprite []]].

(** The chain after [hide()] on its root, [show()] on the child and
    [hide()] on the grandchild: hidden, visible, hidden. *)
Definition mixed_chain : Sprite :=
  on_first (on_first hide) (on_first show (hide chain)).

(** Mutator calls and renderings applied to a fresh sprite. *)
Definition session : list mutation :=
  [SetSkin red; SetRect 5 5 20 30; Render; SetRect 7 7 20 30; SetAngle 0].

End Symbolic.

(** ** Further code of the same files *)

(** *** The registry of the pool and the result of a task *)

Module PoolMore.

Import Pool.

(** Every tracked future was handed out by [submit] before. *)
Definition well_tracked (w : World) : Prop :=
  forall f t, FUTURES w !! f = Some t -> (f < next_future w)%nat.

(** The tasks the registry tracks. *)
Definition tracked (w : World) : gset task_id :=
  list_to_set (map snd (map_to_list (FUTURES w))).

End PoolMore.

Module TaskMore.

Import Task.

Section WithPayload.

Context {A : Type}.

(** The value [result] holds after the iterations [i], ..., [i + n - 1]:
    that of the last call that returned. *)
Fixpoint last_result (self : AsyncTask A) (i n : nat) (result : option A)
  : option A :=
  match n with
  | O => result
  | S n =>
      last_result self (S i) n
        (match runnable self i with
         | Returns v => Some v
         | Raises _ => result
         end)
  end.

End WithPayload.

End TaskMore.

(** *** [BaseSprite.set_pressed], [BaseSprite.get_color],
        [BaseSprite.add_sprite] *)

Module SpriteMore.

Import Sprite.

Section WithPygame.

Context `{Pygame}.

Definition set_pressed_ (v : Z) (s : ImageSprite) :=
  mkImageSprite (_image_cache s) (rect s) (color_ s) v (layer s) (dirty s)
    (visible s) (_image_orig s) (path s) (crop s) (hflip s) (vflip s) (angle s)
    (colorize s).

(** [set_pressed]: [on_pressed] tells whether the attribute of that name
    holds a callback; the boolean returned tells whether it was called. *)
Definition set_pressed (on_pressed : bool) (state : Z) (self : ImageSprite)
  : bool * ImageSprite :=
  if bool_decide (pressed self ≠ state) then
    let self := set_pressed_ state self in
    if on_pressed then
      if bool_decide (pressed self ≠ 0) && bool_decide (visible self ≠ 0) then
        (false, set_visible 0 self)
      else if bool_decide (pressed self = 0) && bool_decide (visible self = 0) then
        (* Trigger callback when press is released *)
        (true, set_visible 1 self)
      else (false, self)
    else (false, self)
  else (false, self).

(** [abs(factor)] *)
Definition abs_num (factor : num) : num :=
  match factor with
  | Int n => Int (Z.abs n)
  | Flt (Float.Fin q) => Flt (Float.Fin (Qabs q))
  | Flt (Float.Inf _) => Flt (Float.Inf false)
  | Flt Float.NaN => Flt Float.NaN
  end.

(** [int(c * f)] for a channel [c] and a factor [f]. *)
Definition scale_channel (f : num) (c : Z) : result Z :=
  match f with
  | Int n => Ok (c * n)
  | Flt x =>
      fc ← Float.of_int c;
      Float.to_int (Float.mul fc x)
  end.

(** [get_color]; [average_color] is [pygame.transform.average_color]. *)
Definition get_color (average_color : Surface -> color) (factor : num)
    (self : ImageSprite) : result color * ImageSprite :=
  if truthy_color (color_ self) then
    (mapM (fun c => v ← scale_channel (abs_num factor) c; mret (Z.min v 255))
          (default [] (color_ self)), self)
  else
    match image self with
    | (Ok img, self) => (Ok (average_color img), self)
    | (Raise e, self) => (Raise e, self)
    end.

(** What pygame says of the size of the surfaces it builds. *)
Definition size_laws : Prop :=
  (forall sz, get_size (new_surface sz) = sz)
  /\ (forall sf c flags, get_size (fill sf c flags) = get_size sf)
  /\ (forall sf, get_size (copy sf) = get_size sf)
  /\ (forall sf sz, get_size (smoothscale sf sz) = sz)
  /\ (forall sf sz, get_size (scale sf sz) = sz)
  /\ (forall dest sf pos area, get_size (blit dest sf pos area) = get_size dest)
  /\ (forall sf h v, get_size (flip sf h v) = get_size sf).

(** The attributes of a sprite [show] and [hide] leave alone: all but
    [visible] and [dirty]. *)
Definition appearance (s : ImageSprite) : ImageSprite :=
  mkImageSprite (_image_cache s) (rect s) (color_ s) (pressed s) (layer s) 0 0
    (_image_orig s) (path s) (crop s) (hflip s) (vflip s) (angle s) (colorize s).

Fixpoint appearances (n : Sprite) : Sprite :=
  match n with
  | Node s subs => Node (appearance s) (map appearances subs)
  end.

(** The number of sprites of a tree. *)
Fixpoint count_sprites (n : Sprite) : nat :=
  match n with
  | Node _ subs => S (foldr (fun m acc => (count_sprites m + acc)%nat) 0%nat subs)
  end.

End WithPygame.

(** The sprites as objects: a sprite is named by a number, and holds the
    name of its parent and the names of its sub-sprites.  Numbers that name
    no sprite yet hold no parent and no sub-sprite. *)
Record object := mkObject {
  parent : option nat;
  _subsprites : list nat
}.

Definition heap := nat -> object.

Definition store (h : heap) (i : nat) (o : object) : heap :=
  fun j => if decide (j = i) then o else h j.

(** [self.add_sprite(sprite)]; [None]: the fuel ran out, which a cycle of
    parents makes happen. *)
Fixpoint add_sprite (fuel : nat) (h : heap) (self sprite : nat) : option heap :=
  match fuel with
  | O => None
  | S fuel =>
      let h :=
        if bool_decide (parent (h sprite) = Some self) then
          (* Register direct sprites *)
          store h self
            (mkObject (parent (h self)) (_subsprites (h self) ++ [sprite]))
        else h in
      match parent (h self) with
      | Some p =>
          (* Propagate to parent *)
          add_sprite fuel h p sprite
      | None => Some h
      end
  end.

(** The part of [BaseSprite.__init__] that builds the tree: the new sprite
    is [next], and is added to its parent when it has one. *)
Definition new_object (fuel : nat) (h : heap) (next : nat) (p : option nat)
  : option heap :=
  let h := store h next (mkObject p []) in
  match p with
  | Some q => add_sprite fuel h q next
  | None => Some h
  end.

(** No sprite is older than its parent. *)
Definition parents_first (h : heap) : Prop :=
  forall i p, parent (h i) = Some p -> (p < i)%nat.

End SpriteMore.

(** *** The consumer loop, continued *)

Module GameMore.

Import Sprite Game.

Section WithDisplay.

Context `{Display}.

(** The camera events of a list, and the images they carry. *)
Definition is_cam (ev : event) : bool := bool_decide (type_of ev = CAM_EVENT).

Definition frame_of (ev : event) : option PILImage :=
  match ev with
  | TaskEvent e => if is_cam ev then Task.event_result e else None
  | _ => None
  end.

(** A camera event that carries an image, or an event of another type. *)
Definition well_formed (ev : event) : Prop :=
  is_cam ev = true -> is_Some (frame_of ev).

Definition frames (events : list event) : list PILImage :=
  omap frame_of events.

(** The event [AsyncTask.emit(image)] posts for a task created with
    [event=CAM_EVENT]. *)
Definition frame_event (im : PILImage) : event :=
  TaskEvent (Task.mkEvent CAM_EVENT (Some im) None).

(** [Game.__init__] of [use_update_dirty_on_event], for its sprites: the
    preview sprite, centred and hidden, and the background. *)
Definition __init__ (display_size preview_size : Z * Z)
  : result (Game * ImageSprite) :=
  let img := new_sprite (10, 10) 3 true in
  match set_rect ((display_size.1 - preview_size.1) `div` 2)
                 ((display_size.2 - preview_size.2) `div` 2)
                 preview_size.1 preview_size.2 img with
  | (Raise e, _) => Raise e
  | (Ok _, img) =>
      let img := hide (Node img []) in
      let background := new_sprite display_size 0 true in
      match set_skin (SObj (OTuple [0; 0; 0])) background with
      | (Raise e, _) => Raise e
      | (Ok _, background) =>
          match set_rect 0 0 display_size.1 display_size.2 background with
          | (Raise e, _) => Raise e
          | (Ok _, background) => Ok (mkGame img 0, background)
          end
      end
  end.

End WithDisplay.

End GameMore.

(** A PIL image of the symbolic pygame. *)
Definition frame (n : nat) (sz : Z * Z) : @Sprite.PILImage Symbolic.pygame :=
  (n, sz).

(** The screen of the symbolic display before any blit. *)
Definition blank_screen : @Game.Screen Symbolic.pygame Symbolic.display := [].

(** *** The camera of the tests ([LibcameraCameraProxyMock],
        [create_camera]) *)

Module Camera.

(** PIL, as the mock uses it. *)
Class PIL := {
  Image : Type;
  (** [image.size] *)
  image_size : Image -> Z * Z;
  (** [ImageOps.fit(image, size)] *)
  ImageOps_fit : Image -> Z * Z -> Image
}.

Inductive error :=
| TypeError
| KeyError (key : string)
| IndexError
| StopIteration.

Inductive outcome (A : Type) :=
| Done (a : A)
| Failed (e : error).
Arguments Done {A} a.
Arguments Failed {A} e.

(** The dictionary of a channel, with the keys the code writes. *)
Record channel := mkChannel {
  size : option (Z * Z);
  format : option string
}.

(** A configuration: [{'type': ..., 'main': {...}}]. *)
Record configuration := mkConfiguration {
  type : string;
  main : channel
}.

Section WithPIL.

Context `{PIL}.

Record LibcameraCameraProxyMock := mkMock {
  fake_captures : list Image;
  (** how many images [next(self._take)] has handed out *)
  _take : nat;
  sensor_resolution : Z * Z;
  config : option configuration
}.

Definition __init__ (captures : list Image) : outcome LibcameraCameraProxyMock :=
  match captures with
  | [] => Failed IndexError
  | im :: _ => Done (mkMock captures 0 (image_size im) None)
  end.

Definition create_preview_configuration (self : LibcameraCameraProxyMock)
  : configuration :=
  mkConfiguration "preview" (mkChannel None None).

Definition create_still_configuration (self : LibcameraCameraProxyMock)
  : configuration :=
  mkConfiguration "still" (mkChannel (Some (sensor_resolution self)) None).

Definition configure (c : option configuration) (self : LibcameraCameraProxyMock)
  : LibcameraCameraProxyMock :=
  mkMock (fake_captures self) (_take self) (sensor_resolution self) c.

(** [next(self._take)] on [cycle(fake_captures)] *)
Definition next (self : LibcameraCameraProxyMock)
  : outcome Image * LibcameraCameraProxyMock :=
  match fake_captures self !! (_take self `mod` length (fake_captures self))%nat with
  | Some im =>
      (Done im, mkMock (fake_captures self) (S (_take self))
                  (sensor_resolution self) (config self))
  | None => (Failed StopIteration, self)
  end.

(** [self.config[channel]['size']] *)
Definition size_of (c : option configuration) (chan : string)
  : outcome (Z * Z) :=
  match c with
  | None => Failed TypeError
  | Some c =>
      if String.eqb chan "main" then
        match size (main c) with
        | Some sz => Done sz
        | None => Failed (KeyError "size")
        end
      else if String.eqb chan "type" then Failed TypeError
      else Failed (KeyError chan)
  end.

Definition capture_image (chan : string) (self : LibcameraCameraProxyMock)
  : outcome Image * LibcameraCameraProxyMock :=
  match next self with
  | (Failed e, self) => (Failed e, self)
  | (Done im, self) =>
      match size_of (config self) chan with
      | Failed e => (Failed e, self)
      | Done sz => (Done (ImageOps_fit im sz), self)
      end
  end.

Definition switch_mode_and_capture_image (c : configuration) (chan : string)
    (self : LibcameraCameraProxyMock)
  : outcome Image * LibcameraCameraProxyMock :=
  let old_config := config self in
  let self := configure (Some c) self in
  match capture_image chan self with
  | (Failed e, self) => (Failed e, self)
  | (Done im, self) => (Done im, configure old_config self)
  end.

(** [create_camera(size)], with [Picamera2] the mock over [captures]. *)
Definition create_camera (captures : list Image) (sz : Z * Z)
  : outcome (LibcameraCameraProxyMock * configuration) :=
  match __init__ captures with
  | Failed e => Failed e
  | Done camera =>
      let preview_config := create_preview_configuration camera in
      let preview_config :=
        mkConfiguration (type preview_config)
          (mkChannel (Some sz) (Some "BGR888"%string)) in
      let capture_config := create_still_configuration camera in
      let capture_config :=
        mkConfiguration (type capture_config)
          (mkChannel (Some (sensor_resolution camera))
                     (format (main capture_config))) in
      Done (configure (Some preview_config) camera, capture_config)
  end.

(** [k] calls of [capture_image] in a row: the outcomes, and the camera
    after them. *)
Fixpoint capture_images (k : nat) (chan : string) (self : LibcameraCameraProxyMock)
  : list (outcome Image) * LibcameraCameraProxyMock :=
  match k with
  | O => ([], self)
  | S k =>
      let '(r, self) := capture_image chan self in
      let '(rs, self) := capture_images k chan self in
      (r :: rs, self)
  end.

End WithPIL.

(** Images as numbers, with a size. *)
#[export] Instance symbolic_PIL : PIL := {|
  Image := nat * (Z * Z);
  image_size im := im.2;
  ImageOps_fit im sz := (im.1, sz)
|}.

(** Two images of one size, as [capture0.jpeg] and [capture1.jpeg]. *)
Definition two_captures : list (@Image symbolic_PIL) :=
  [(0%nat, (2592, 1944)); (1%nat, (2592, 1944))].

End Camera.

(** ** Properties of the task pool *)

Module PoolFacts.

Import Pool.

Lemma shut_down_step (w : World) (o : op) :
  shut_down (executor w) = true -> shut_down (executor (step w o)) = true.
Proof.
  intros Hs. destruct o as [|t|f|]; cbn.
  - exact Hs.
  - unfold start_task, submit. rewrite Hs.
    destruct (stop_event (executor w)); exact Hs.
  - unfold finish_task. destruct (FUTURES w !! f); exact Hs.
  - reflexivity.
Qed.

Lemma shut_down_run (ops : list op) (w : World) :
  shut_down (executor w) = true -> shut_down (executor (run w ops)) = true.
Proof.
  revert w. induction ops as [|o ops IH]; intros w Hs; cbn.
  - exact Hs.
  - apply IH, shut_down_step, Hs.
Qed.

Lemma stop_event_step (w : World) (o : op) :
  o ≠ Construct ->
  stop_event (executor w) = true -> stop_event (executor (step w o)) = true.
Proof.
  intros Ho Hs. destruct o as [|t|f|]; cbn.
  - congruence.
  - unfold start_task. rewrite Hs. exact Hs.
  - unfold finish_task. destruct (FUTURES w !! f); exact Hs.
  - reflexivity.
Qed.

Lemma stop_event_run (ops : list op) (w : World) :
  Construct ∉ ops ->
  stop_event (executor w) = true -> stop_event (executor (run w ops)) = true.
Proof.
  revert w. induction ops as [|o ops IH]; intros w Hn Hs; cbn.
  - exact Hs.
  - apply IH.
    + intros Hin. apply Hn. by right.
    + apply stop_event_step; [|exact Hs]. intros ->. apply Hn. by left.
Qed.

Lemma start_task_shut_down (w : World) (t : task_id) :
  shut_down (executor w) = true ->
  start_task w t =
    (Raise (RuntimeError (if stop_event (executor w) then shutting_down_msg
                          else executor_shutdown_msg)), w).
Proof.
  intros Hs. unfold start_task, submit. rewrite Hs.
  by destruct (stop_event (executor w)).
Qed.

(** C1, as stated, fails: once a pool object has been constructed after
    [quit], a submission is rejected by the executor, not with the pool's
    own shutting-down error. *)
Lemma start_task_after_quit_and_construct :
  let w := __init__ (Some (quit (__init__ None))) in
  stop_event (executor (quit (__init__ None))) = true /\
  (start_task w 7%nat).1 = Raise (RuntimeError executor_shutdown_msg) /\
  (start_task w 7%nat).1 ≠ Raise (RuntimeError shutting_down_msg).
Proof. cbn. split; [reflexivity|]. split; [reflexivity|]. discriminate. Qed.

(** C1, amended: after [quit], whatever operations follow (pool
    constructions, submissions, completions, further quits), every
    submission raises a [RuntimeError] and leaves the pool state as it is,
    so none ever succeeds again; the error is the pool's own
    "shutting down" one while the stop event is still set, which is the
    case as long as no pool object has been constructed since, and the
    executor's "cannot schedule new futures after shutdown" otherwise. *)
Theorem start_task_after_quit (w : World) (ops : list op) (t : task_id) :
  let w' := run (quit w) ops in
  start_task w' t =
    (Raise (RuntimeError (if stop_event (executor w') then shutting_down_msg
                          else executor_shutdown_msg)), w')
  /\ raises (start_task w' t).1
  /\ (Construct ∉ ops ->
      (start_task w' t).1 = Raise (RuntimeError shutting_down_msg)).
Proof.
  intros w'.
  assert (Hs : shut_down (executor w') = true)
    by (apply shut_down_run; reflexivity).
  rewrite (start_task_shut_down _ _ Hs). split; [reflexivity|].
  split; [exact I|].
  intros Hn. cbn. unfold w'. rewrite stop_event_run; done.
Qed.

(** After [quit], a submission, a second [quit] and a completion, a new
    submission is rejected with the pool's own error. *)
Lemma start_task_after_quit_witness :
  (start_task (run (quit (__init__ None)) [StartTask 1%nat; Quit; FinishTask 0%nat]) 2%nat).1
  = Raise (RuntimeError shutting_down_msg).
Proof.
  apply (start_task_after_quit (__init__ None)
           [StartTask 1%nat; Quit; FinishTask 0%nat] 2%nat).
  rewrite !elem_of_cons, elem_of_nil. intros [?|[?|[?|[]]]]; discriminate.
Defined.

End PoolFacts.

(** ** Properties of task execution *)

Module TaskFacts.

Import Task TaskMore.

Section WithPayload.

Context {A : Type}.
Implicit Types (self : AsyncTask A) (queue : list (Event A)).

Lemma posted_nil self (i : nat) : posted self i 0 = [].
Proof. unfold posted. by destruct (event_type self). Qed.

Lemma emit_posted self (i : nat) queue :
  emit self
    (match runnable self i with Returns v => Some v | Raises _ => None end)
    (match runnable self i with Returns _ => None | Raises ex => Some ex end)
    queue
  = queue ++ posted self i 1.
Proof.
  unfold emit, posted, event_of. destruct (event_type self) as [k|]; cbn.
  - by destruct (runnable self i).
  - by rewrite app_nil_r.
Qed.

Lemma posted_cons self (i n : nat) :
  posted self i (S n) = posted self i 1 ++ posted self (S i) n.
Proof. unfold posted. by destruct (event_type self). Qed.

Lemma posted_length self (i n : nat) :
  length (posted self i n) = match event_type self with Some _ => n | None => 0%nat end.
Proof.
  unfold posted. destruct (event_type self); [|done].
  by rewrite length_map, length_seq.
Qed.

Lemma call_from_once self (i : nat) (res : option A) queue :
  loop self = false -> call_from 1 self i res queue <> None.
Proof.
  intros Hl. cbn. destruct (_stop_event self i); [done|].
  destruct (runnable self i); [by rewrite Hl|done].
Qed.

Lemma call_from_failing (j : nat) self (i : nat) (res : option A) queue :
  fails_at self (i + j) -> call_from (S j) self i res queue <> None.
Proof.
  revert i res queue. induction j as [|j IH]; intros i res queue Hf.
  - replace (i + 0)%nat with i in Hf by lia. cbn.
    destruct (_stop_event self i); [done|].
    unfold fails_at in Hf. by destruct (runnable self i).
  - change (call_from (S (S j)) self i res queue) with
      (if _stop_event self i then Some (res, queue)
       else match runnable self i with
            | Returns v =>
                if negb (loop self) then Some (Some v, emit self (Some v) None queue)
                else call_from (S j) self (S i) (Some v)
                       (emit self (Some v) None queue)
            | Raises ex => Some (res, emit self None (Some ex) queue)
            end).
    destruct (_stop_event self i); [done|].
    destruct (runnable self i); [|done].
    destruct (negb (loop self)); [done|].
    apply IH. by replace (S i + j)%nat with (i + S j)%nat by lia.
Qed.

Lemma returns_not_fails self (i : nat) (v : A) :
  runnable self i = Returns v -> ~ fails_at self i.
Proof. unfold fails_at. intros ->. tauto. Qed.

Lemma raises_fails self (i : nat) (ex : exn) :
  runnable self i = Raises ex -> fails_at self i.
Proof. unfold fails_at. by intros ->. Qed.

Lemma ends_at_unique self (i n m : nat) :
  ends_at self i n -> ends_at self i m -> n = m.
Proof.
  assert (Hlt : forall n m, (n < m)%nat -> ends_at self i n -> ends_at self i m -> False).
  { clear n m. intros n m Hnm (_ & _ & Hend) (Hstop & Hcont & _).
    destruct n as [|k].
    - rewrite (Hstop i) in Hend by lia. discriminate.
    - destruct (Hcont (i + k)%nat ltac:(lia) ltac:(lia)) as [Hloop Hok].
      rewrite (Hstop (i + S k)%nat) in Hend by lia.
      destruct Hend as [Hf|[Hl|Hs]]; [by apply Hok|congruence|discriminate]. }
  intros Hn Hm. destruct (Nat.lt_trichotomy n m) as [H|[H|H]]; [|done|].
  - destruct (Hlt n m H Hn Hm).
  - destruct (Hlt m n H Hm Hn).
Qed.

Lemma ends_at_step self (i n : nat) :
  _stop_event self i = false -> loop self = true -> ~ fails_at self i ->
  ends_at self (S i) n -> ends_at self i (S n).
Proof.
  intros Hs Hl Hok (Hstop & Hcont & Hend). split; [|split].
  - intros k Hk. destruct (decide (k = i)) as [->|]; [done|]. apply Hstop. lia.
  - intros k Hk Hkn. destruct (decide (k = i)) as [->|]; [done|].
    apply Hcont; lia.
  - destruct n as [|m].
    + right. right. by replace (i + 1)%nat with (S i) by lia.
    + replace (i + S m)%nat with (S i + m)%nat by lia.
      by replace (i + S (S m))%nat with (S i + S m)%nat by lia.
Qed.

Lemma ends_at_next self (i n : nat) :
  loop self = true -> ~ fails_at self i ->
  ends_at self i (S n) -> ends_at self (S i) n.
Proof.
  intros Hl Hok (Hstop & Hcont & Hend). split; [|split].
  - intros k Hk. apply Hstop. lia.
  - intros k Hk Hkn. apply Hcont; lia.
  - destruct n as [|m].
    + replace (i + 0)%nat with i in Hend by lia.
      replace (i + 1)%nat with (S i) in Hend by lia.
      destruct Hend as [Hf|[Hf|Hs]]; [by destruct Hok|congruence|done].
    + replace (i + S m)%nat with (S i + m)%nat in Hend by lia.
      by replace (i + S (S m))%nat with (S i + S m)%nat in Hend by lia.
Qed.

Lemma ends_at_last self (i n : nat) :
  fails_at self i \/ loop self = false -> ends_at self i (S n) -> n = 0%nat.
Proof.
  intros Hlast (_ & Hcont & _). destruct n as [|m]; [done|].
  destruct (Hcont i ltac:(lia) ltac:(lia)) as [Hl Hok].
  destruct Hlast as [Hf|Hf]; [by destruct Hok|congruence].
Qed.

(** A run that ends stopped after the number of iterations [ends_at]
    fixes, posted their events and holds the last result. *)
Lemma call_from_ends (fuel : nat) self (i : nat) (res : option A) queue r queue' :
  call_from fuel self i res queue = Some (r, queue') ->
  exists n,
    ends_at self i n /\ queue' = queue ++ posted self i n
    /\ r = last_result self i n res.
Proof.
  revert i res queue.
  induction fuel as [|fuel IH]; intros i res queue Hc; [discriminate|].
  cbn in Hc. destruct (_stop_event self i) eqn:Hstop.
  - inversion Hc; subst. exists 0%nat. split; [|split].
    + split; [|split]; [intros k Hk; lia|intros k Hk Hkn; lia|done].
    + by rewrite posted_nil, app_nil_r.
    + reflexivity.
  - pose proof (emit_posted self i queue) as He.
    destruct (runnable self i) as [v|ex] eqn:Hrun.
    + destruct (loop self) eqn:Hloop; cbn in Hc.
      * apply IH in Hc as (n & Hends & Hq & Hr). exists (S n). split; [|split].
        -- apply ends_at_step; [done|done| |done].
           by eapply returns_not_fails.
        -- rewrite Hq, He, (posted_cons self i n), app_assoc. reflexivity.
        -- cbn. by rewrite Hrun.
      * inversion Hc; subst. exists 1%nat. split; [|split].
        -- split; [|split].
           ++ intros k Hk. by replace k with i by lia.
           ++ intros k Hk Hkn. lia.
           ++ right. by left.
        -- exact He.
        -- cbn. by rewrite Hrun.
    + inversion Hc; subst. exists 1%nat. split; [|split].
      * split; [|split].
        -- intros k Hk. by replace k with i by lia.
        -- intros k Hk Hkn. lia.
        -- left. replace (i + 0)%nat with i by lia.
           by eapply raises_fails.
      * exact He.
      * cbn. by rewrite Hrun.
Qed.

(** Conversely, where [ends_at] says the run stops after [n] iterations,
    [S n] units of fuel give its result and its events. *)
Lemma call_from_exact (n : nat) self (i : nat) (res : option A) queue :
  ends_at self i n ->
  call_from (S n) self i res queue
  = Some (last_result self i n res, queue ++ posted self i n).
Proof.
  revert i res queue. induction n as [|n IH]; intros i res queue Hends.
  - destruct Hends as (_ & _ & Hstop). cbn. rewrite Hstop.
    by rewrite posted_nil, app_nil_r.
  - pose proof Hends as (Hstop & _ & _).
    pose proof (emit_posted self i queue) as He.
    change (call_from (S (S n)) self i res queue) with
      (if _stop_event self i then Some (res, queue)
       else match runnable self i with
            | Returns v =>
                if negb (loop self) then Some (Some v, emit self (Some v) None queue)
                else call_from (S n) self (S i) (Some v)
                       (emit self (Some v) None queue)
            | Raises ex => Some (res, emit self None (Some ex) queue)
            end).
    rewrite (Hstop i) by lia. cbn [last_result].
    destruct (runnable self i) as [v|ex] eqn:Hrun.
    + destruct (loop self) eqn:Hloop; cbn [negb].
      * rewrite IH.
        -- by rewrite He, (posted_cons self i n), app_assoc.
        -- apply ends_at_next; [done| |done]. by eapply returns_not_fails.
      * rewrite (ends_at_last self i n (or_intror Hloop) Hends). by rewrite He.
    + rewrite (ends_at_last self i n (or_introl (raises_fails self i ex Hrun)) Hends).
      by rewrite He.
Qed.

Lemma posted_lookup self (i n j : nat) (k : Z) :
  event_type self = Some k -> (j < n)%nat ->
  posted self i n !! j
  = Some (match runnable self (i + j) with
          | Returns v => mkEvent k (Some v) None
          | Raises ex => mkEvent k None (Some ex)
          end).
Proof.
  intros Hk Hj. unfold posted. rewrite Hk, list_lookup_fmap.
  by rewrite lookup_seq_lt.
Qed.

(** C3, amended.  A run of [__call__] that ends went through a number [n]
    of iterations that the task fixes: the stop event was unset at the test
    of each of them, each but the last returned with [loop] true, and the
    run stopped because the last one failed, or [loop] is false, or the
    next test found the stop event set ([ends_at]; no other number of
    iterations fits).  Then:
    - each iteration posted its event if and only if an event type is set:
      with an event type [k], the queue grew by exactly one event per
      iteration, in order, of type [k], carrying the result of a call that
      returned, or the exception (and no result) of a call that failed;
      without, nothing was posted, for a failure either;
    - a failing call is the last iteration, whatever [loop] says;
    - with [loop] false there was at most one iteration.
    Such runs do end: where the conditions of [ends_at] hold for [n], the
    run with [S n] units of fuel returns, with the events of these [n]
    iterations; with [loop] false one unit is enough, and a call that
    fails at iteration [j] ends the run by then. *)
Theorem call_spec (self : AsyncTask A) :
  (forall fuel queue r queue',
      __call__ fuel self queue = Some (r, queue') ->
      exists n,
        ends_at self 0 n
        /\ queue' = queue ++ posted self 0 n
        /\ length (posted self 0 n) = (match event_type self with Some _ => n | None => 0%nat end)
        /\ (forall k, (k < n)%nat -> _stop_event self k = false)
        /\ (forall k, (k < n)%nat -> fails_at self k -> S k = n)
        /\ (loop self = false -> (n <= 1)%nat))
  /\ (forall n m, ends_at self 0 n -> ends_at self 0 m -> n = m)
  /\ (forall n queue,
        ends_at self 0 n ->
        exists r, __call__ (S n) self queue = Some (r, queue ++ posted self 0 n))
  /\ (forall n, event_type self = None -> posted self 0 n = [])
  /\ (forall n j k,
        event_type self = Some k -> (j < n)%nat ->
        posted self 0 n !! j
        = Some (match runnable self j with
                | Returns v => mkEvent k (Some v) None
                | Raises ex => mkEvent k None (Some ex)
                end))
  /\ (loop self = false -> forall queue, __call__ 1 self queue <> None)
  /\ (forall j queue, fails_at self j -> __call__ (S j) self queue <> None).
Proof.
  split; [|split; [|split; [|split; [|split; [|split]]]]].
  - intros fuel queue r queue' Hc.
    apply call_from_ends in Hc as (n & Hends & Hq & _).
    pose proof Hends as (Hs & Hcont & _).
    exists n. split; [exact Hends|]. split; [exact Hq|].
    split; [apply posted_length|]. split; [|split].
    + intros k Hk. apply Hs. lia.
    + intros k Hk Hfail.
      destruct (decide (S k < n)%nat) as [Hlt|]; [|lia].
      by destruct (Hcont k ltac:(lia) Hlt) as [_ Hok].
    + intros Hl. destruct (decide (1 < n)%nat) as [Hlt|]; [|lia].
      destruct (Hcont 0%nat ltac:(lia) Hlt) as [Hl' _]. congruence.
  - apply ends_at_unique.
  - intros n queue Hends. eexists. by apply call_from_exact.
  - intros n Hk. unfold posted. by rewrite Hk.
  - intros n j k Hk Hj. by apply posted_lookup.
  - intros Hl queue. by apply call_from_once.
  - intros j queue Hf. by apply call_from_failing.
Qed.

End WithPayload.

(** C3, as stated, fails: without an event type a failing runnable posts no
    event at all, where the claim wants exactly one carrying the failure. *)
Lemma call_failure_without_event_type :
  __call__ 5 (flaky None) [] = Some (Some 1, [])
  /\ fails_at (flaky None) 2.
Proof. split; [reflexivity|exact I]. Qed.

(** The run of [flaky] with an event type: two results, then the failure,
    and the loop stops: three iterations, and no other number. *)
Lemma call_spec_witness :
  __call__ 5 (flaky (Some 5)) []
  = Some (Some 1, [mkEvent 5 (Some 0) None; mkEvent 5 (Some 1) None;
                   mkEvent 5 None (Some (ValueError "capture"))])
  /\ (exists n,
        ends_at (flaky (Some 5)) 0 n
        /\ [mkEvent 5 (Some 0) None; mkEvent 5 (Some 1) None;
            mkEvent 5 None (Some (ValueError "capture"))]
           = [] ++ posted (flaky (Some 5)) 0 n
        /\ length (posted (flaky (Some 5)) 0 n) = n
        /\ (forall k, (k < n)%nat -> _stop_event (flaky (Some 5)) k = false)
        /\ (forall k, (k < n)%nat -> fails_at (flaky (Some 5)) k -> S k = n)
        /\ (loop (flaky (Some 5)) = false -> (n <= 1)%nat))
  /\ posted (flaky (Some 5)) 0 3 !! 2%nat
     = Some (mkEvent 5 None (Some (ValueError "capture"))).
Proof.
  split; [reflexivity|]. split.
  - apply (proj1 (call_spec (flaky (Some 5))) 5%nat [] (Some 1)).
    reflexivity.
  - apply (proj1 (proj2 (proj2 (proj2 (proj2 (call_spec (flaky (Some 5)))))))
             3%nat 2%nat 5); [reflexivity|lia].
Defined.

End TaskFacts.

(** ** Properties of the drawable nodes *)

Module SpriteFacts.

Import Sprite.

Section WithPygame.

Context `{Pygame}.
Implicit Types (self s : ImageSprite) (n : Sprite).

(** The test [v != current] fails when [v] is the current value. *)
Ltac same_value :=
  rewrite bool_decide_false by (let Hne := fresh in intros Hne; by apply Hne).

Lemma set_rect_current_ self :
  set_rect_ (rect self) self = self.
Proof. by destruct self. Qed.

(** C5.  Each mutator called with the value the sprite currently holds
    (equal under Python's [==], whatever the object passed) leaves every
    attribute of the sprite as it is: the dirty flag is not set and the
    cached image is kept.  For [set_skin] the current value is the one
    [get_skin] returns; on a sprite without skin, and on a rectangle whose
    stored size is not positive, the call fails its assertion, again
    without touching the sprite. *)
Theorem mutators_same_value_noop self :
  (set_rect (rect_x (rect self)) (rect_y (rect self))
            (rect_w (rect self)) (rect_h (rect self)) self).2 = self
  /\ (set_skin (get_skin self) self).2 = self
  /\ set_flip (Some (hflip self)) (Some (vflip self)) self = self
  /\ set_flip (Some (hflip self)) None self = self
  /\ set_flip None (Some (vflip self)) self = self
  /\ set_flip None None self = self
  /\ set_angle (angle self) self = self
  /\ set_crop (crop self) self = self.
Proof.
  repeat split.
  - unfold set_rect.
    destruct (0 <? rect_w (rect self)); [|done].
    destruct (0 <? rect_h (rect self)); [|done]. cbn.
    rewrite (bool_decide_false (topleft (rect self) ≠ _)) by (intros Hne; by apply Hne).
    by same_value.
  - unfold get_skin, set_skin.
    destruct (path self) as [[|a p]|] eqn:Hp.
    + destruct (_image_orig self) as [|c|c|im|sf] eqn:Ho; [done| | | |].
      * destruct (negb _); [done|]. by same_value.
      * destruct (negb _); [done|]. by same_value.
      * by same_value.
      * by same_value.
    + by same_value.
    + destruct (_image_orig self) as [|c|c|im|sf] eqn:Ho; [done| | | |].
      * destruct (negb _); [done|]. by same_value.
      * destruct (negb _); [done|]. by same_value.
      * by same_value.
      * by same_value.
  - unfold set_flip.
    rewrite (bool_decide_false (hflip self ≠ _)) by (intros Hne; by apply Hne).
    by same_value.
  - unfold set_flip. by same_value.
  - unfold set_flip. by same_value.
  - unfold set_angle. by same_value.
  - unfold set_crop. by same_value.
Qed.

(** C6.  [set_rect] fails the assertion on the width, and changes nothing,
    when the width is not positive; with a positive width it fails the
    assertion on the height, and changes nothing, when the height is not
    positive.  Otherwise it returns, the rectangle of the sprite is the
    one given, and the colour, the pressed state, the layer, the
    visibility, the skin, the path and the transformation flags are as
    before; when the rectangle was already the one given nothing changes,
    else the dirty flag is 1; the cached image is kept when the size is the
    current one (a move, or no change) and dropped when the size
    differs. *)
Theorem set_rect_spec self (x y width height : Z) :
  (width <= 0 ->
     set_rect x y width height self
     = (Raise (AssertionError "Sprite width shall be greater than zero"), self))
  /\ (0 < width -> height <= 0 ->
      set_rect x y width height self
      = (Raise (AssertionError "Sprite height shall be greater than zero"), self))
  /\ (0 < width -> 0 < height ->
      let self' := (set_rect x y width height self).2 in
      (set_rect x y width height self).1 = Ok tt
      /\ rect self' = mkRect x y width height
      /\ color_ self' = color_ self /\ pressed self' = pressed self
      /\ layer self' = layer self /\ visible self' = visible self
      /\ _image_orig self' = _image_orig self /\ path self' = path self
      /\ crop self' = crop self /\ hflip self' = hflip self
      /\ vflip self' = vflip self /\ angle self' = angle self
      /\ colorize self' = colorize self
      /\ (rect self = mkRect x y width height -> self' = self)
      /\ (rect self ≠ mkRect x y width height -> dirty self' = 1)
      /\ (size (rect self) = (width, height) ->
          _image_cache self' = _image_cache self)
      /\ (size (rect self) ≠ (width, height) -> _image_cache self' = None)).
Proof.
  unfold set_rect. split; [|split].
  - intros Hw. by rewrite (proj2 (Z.ltb_ge 0 width) Hw).
  - intros Hw Hh.
    by rewrite (proj2 (Z.ltb_lt 0 width) Hw), (proj2 (Z.ltb_ge 0 height) Hh).
  - intros Hw Hh.
    rewrite (proj2 (Z.ltb_lt 0 width) Hw), (proj2 (Z.ltb_lt 0 height) Hh).
    cbn [negb fst snd].
    destruct self as [cache [rx ry rw rh] c p l d v o pa cr hf vf a co].
    unfold topleft, size, set_dirty. cbn.
    repeat case_bool_decide; cbn in *; simplify_eq;
      repeat split; try done; intros; simplify_eq; congruence.
Qed.

(** *** Rendering and the cache *)

(** The branches of [draw]. *)
Ltac draw_cases self :=
  let orig := fresh "orig" in
  let p := fresh "p" in
  destruct self as [? ? ? ? ? ? ? orig p ? ? ? ? ?];
  unfold draw; cbn;
  destruct orig;
    [ let Htp := fresh "Htp" in
      destruct (truthy_path p) eqn:Htp; cbn; rewrite ?Htp; cbn
    | cbn .. ].

Lemma rendering_set_rect_position self (x y : Z) :
  rendering (set_rect_ (mkRect x y (rect_w (rect self)) (rect_h (rect self))) self)
  = rendering self.
Proof. unfold rendering. by draw_cases self. Qed.

Lemma rendering_set_dirty_ self (d : Z) : rendering (set_dirty_ d self) = rendering self.
Proof. unfold rendering. by draw_cases self. Qed.

Lemma rendering_set__image_cache self c :
  rendering (set__image_cache c self) = rendering self.
Proof. unfold rendering. by draw_cases self. Qed.

Lemma rendering_draw self : rendering (draw self).2 = rendering self.
Proof. unfold rendering. by draw_cases self. Qed.

Lemma dirty_draw self : dirty (draw self).2 = dirty self.
Proof. by draw_cases self. Qed.

Lemma cache_draw self : _image_cache (draw self).2 = _image_cache self.
Proof. by draw_cases self. Qed.

Lemma coherent_no_cache self : _image_cache self = None -> coherent self.
Proof. intros Hc img. by rewrite Hc. Qed.

Lemma image_unfold self :
  image self =
    match _image_cache self with
    | Some img => (Ok img, self)
    | None =>
        match rendering self with
        | Ok img => (Ok img, set__image_cache (Some img) (draw self).2)
        | Raise e => (Raise e, (draw self).2)
        end
    end.
Proof.
  unfold image, rendering. destruct (_image_cache self); [done|].
  by destruct (draw self) as [[img|e] s'].
Qed.

Lemma coherent_image self : coherent self -> coherent (image self).2.
Proof.
  intros Hc. rewrite image_unfold.
  destruct (_image_cache self) as [img|] eqn:Hcache; [done|].
  destruct (rendering self) as [img|e] eqn:Hr; cbn.
  - intros img' Himg. rewrite rendering_set__image_cache, rendering_draw.
    destruct (draw self).2; cbn in *. congruence.
  - apply coherent_no_cache. by rewrite cache_draw.
Qed.

Lemma coherent_set_dirty_true self : coherent (set_dirty true self).
Proof. by apply coherent_no_cache. Qed.

Lemma coherent_apply self (m : mutation) : coherent self -> coherent (apply self m).
Proof.
  intros Hc. destruct m as [x y width height|sk|c|c|hf vf|a|]; cbn.
  - unfold set_rect.
    destruct (negb (0 <? width)); [done|]. destruct (negb (0 <? height)); [done|].
    set (s1 := if bool_decide (topleft (rect self) ≠ (x, y)) then _ else self).
    assert (coherent s1) as Hs.
    { subst s1. destruct (bool_decide _); [|done].
      intros img Himg. unfold set_dirty.
      rewrite rendering_set_dirty_, rendering_set_rect_position.
      apply Hc. by destruct self. }
    clearbody s1. cbn [snd].
    destruct (bool_decide _); [apply coherent_set_dirty_true|done].
  - unfold set_skin.
    destruct sk as [p|[|rgb|rgb|im|sf]]; cbn;
      repeat (match goal with |- coherent (if ?b then _ else _).2 =>
                destruct b end; cbn);
      done || apply coherent_set_dirty_true.
  - unfold set_color. destruct (bool_decide _); [apply coherent_set_dirty_true|done].
  - unfold set_crop. destruct (bool_decide _); [apply coherent_set_dirty_true|done].
  - unfold set_flip.
    destruct hf as [b|], vf as [b'|];
      repeat (match goal with |- coherent (if ?b then _ else _) =>
                destruct b end);
      done || apply coherent_set_dirty_true.
  - unfold set_angle. destruct (bool_decide _); [apply coherent_set_dirty_true|done].
  - by apply coherent_image.
Qed.

Lemma coherent_foldl (ms : list mutation) self :
  coherent self -> coherent (foldl apply self ms).
Proof.
  revert self. induction ms as [|m ms IH]; intros self Hc; [done|].
  cbn. by apply IH, coherent_apply.
Qed.

(** C2, amended.  The [image] property returns the cached image when there
    is one, leaving the sprite as it is; otherwise it draws the image from
    the current skin, transform flags, colour and rectangle size, stores it
    as the new cache and returns it (or raises what [draw] raises, storing
    nothing).  In no case does it touch the dirty flag.  After any sequence
    of mutator calls and renderings from a fresh sprite, the image it
    returns is the rendering of the current attributes. *)
Theorem image_spec self :
  (forall img, _image_cache self = Some img -> image self = (Ok img, self))
  /\ (_image_cache self = None ->
      (image self).1 = rendering self
      /\ _image_cache (image self).2
         = match rendering self with Ok img => Some img | Raise _ => None end)
  /\ dirty (image self).2 = dirty self
  /\ (forall (sz : Z * Z) (lyr : Z) (col : bool) (ms : list mutation) img,
        self = foldl apply (new_sprite sz lyr col) ms ->
        (image self).1 = Ok img ->
        rendering self = Ok img /\ _image_cache (image self).2 = Some img).
Proof.
  split; [|split; [|split]].
  - intros img Hc. unfold image. by rewrite Hc.
  - intros Hc. rewrite image_unfold, Hc.
    destruct (rendering self); cbn; [done|]. by rewrite cache_draw.
  - rewrite image_unfold. destruct (_image_cache self); [done|].
    destruct (rendering self); cbn; [|apply dirty_draw].
    rewrite <- (dirty_draw self). by destruct (draw self).2.
  - intros sz lyr col ms img -> Hi.
    set (s := foldl apply (new_sprite sz lyr col) ms) in *.
    assert (Hc : coherent s) by (apply coherent_foldl; by apply coherent_no_cache).
    rewrite image_unfold in Hi |- *.
    destruct (_image_cache s) as [img'|] eqn:Hcache; cbn in *.
    + injection Hi as ->. split; [by apply Hc|done].
    + destruct (rendering s); cbn in *; [|done]. by injection Hi as ->.
Qed.

End WithPygame.

End SpriteFacts.

(** ** Properties of the sprite tree *)

Module TreeFacts.

Import Sprite.

Section WithPygame.

Context `{Pygame}.
Implicit Types (s : ImageSprite) (n : Sprite).

(** Induction over a sprite and its sub-sprites. *)
Lemma Sprite_ind' (P : Sprite -> Prop) :
  (forall s subs, Forall P subs -> P (Node s subs)) -> forall n, P n.
Proof.
  intros HN. fix IH 1. intros [s subs]. apply HN.
  induction subs as [|n subs IHs]; constructor; [apply IH|exact IHs].
Qed.

Lemma all_sprites_Forall (P : ImageSprite -> Prop) (subs : list Sprite) :
  foldr (fun m acc => all_sprites P m /\ acc) True subs
  <-> Forall (all_sprites P) subs.
Proof.
  induction subs as [|m subs IH]; cbn.
  - split; [constructor|done].
  - rewrite Forall_cons, IH. done.
Qed.

Lemma all_sprites_node (P : ImageSprite -> Prop) s subs :
  all_sprites P (Node s subs) <-> P s /\ Forall (all_sprites P) subs.
Proof. cbn. by rewrite all_sprites_Forall. Qed.








End WithPygame.

End TreeFacts.

(** ** Properties of the consumer loop *)

Module GameFacts.

Import Sprite Game.

Section WithDisplay.

Context `{Display}.

Lemma failure_event_emitted (ex : exn) (queue : list (Task.Event PILImage))
    (task : Task.AsyncTask PILImage) :
  Task.event_type task = Some CAM_EVENT ->
  Task.emit task None (Some ex) queue
  = queue ++ [Task.mkEvent CAM_EVENT None (Some ex)].
Proof. intros He. unfold Task.emit. by rewrite He. Qed.

(** C4 fails on the code.  An event that carries a task failure makes both
    versions of [Game.update] raise: [image2surface] calls [tobytes] on
    [None] ([AttributeError]), and [set_skin] fails its assertion on
    [None]; the events that follow it are not processed. *)
Theorem update_failure_event_raises (ex : exn) (events : list event)
    (preview_size : Z * Z) (screen : Screen) (self : Game) :
  update preview_size screen (failure_event ex :: events)
  = Raise (AttributeError "'NoneType' object has no attribute 'tobytes'")
  /\ dirty_update self screen (failure_event ex :: events)
     = Raise (AssertionError "PIL Image or Pygame Surface is required").
Proof.
  unfold update, dirty_update. cbn.
  rewrite bool_decide_true by done. cbn.
  by destruct (sprite0 self).
Qed.

End WithDisplay.

End GameFacts.

(** ** Properties of the binary64 model *)

Module FloatFacts.

Import Float.
Local Open Scope Q_scope.

Lemma pow2_Qpower (e : Z) : pow2 e == 2 ^ e.
Proof.
  unfold pow2. destruct (Z.leb_spec 0 e) as [He|He].
  - by rewrite Zpower_Qpower.
  - rewrite Zpower_Qpower by lia.
    rewrite <- Qpower_opp. by rewrite Z.opp_involutive.
Qed.

Lemma pow2_pos (e : Z) : 0 < pow2 e.
Proof. rewrite pow2_Qpower. by apply Qpower_0_lt. Qed.

Lemma pow2_add (a b : Z) : pow2 (a + b) == pow2 a * pow2 b.
Proof. rewrite !pow2_Qpower. by apply Qpower_plus. Qed.

Lemma pow2_le (a b : Z) : (a <= b)%Z -> pow2 a <= pow2 b.
Proof.
  intros Hab. rewrite !pow2_Qpower. apply Qpower_le_compat_l; [exact Hab|].
  by compute.
Qed.

Lemma pow2_lt (a b : Z) : (a < b)%Z -> pow2 a < pow2 b.
Proof.
  intros Hab. rewrite !pow2_Qpower. apply Qpower_lt_compat_l; [exact Hab|].
  by compute.
Qed.

Lemma pow2_lt_inv (a b : Z) : pow2 a < pow2 b -> (a < b)%Z.
Proof.
  intros Hab. destruct (Z.lt_ge_cases a b) as [|Hge]; [done|].
  apply pow2_le in Hge. exfalso. apply (Qlt_irrefl (pow2 a)).
  eapply Qlt_le_trans; eauto.
Qed.

Lemma pow2_nonneg_Z (e : Z) : (0 <= e)%Z -> pow2 e = inject_Z (2 ^ e).
Proof. intros He. unfold pow2. by rewrite (proj2 (Z.leb_le 0 e) He). Qed.

Lemma pow2_succ (e : Z) : pow2 (e + 1) == 2 * pow2 e.
Proof. rewrite pow2_add. change (pow2 1) with 2. ring. Qed.

Lemma pow2_sub (a b : Z) : pow2 (a - b) == pow2 a / pow2 b.
Proof.
  assert (Hb := pow2_pos b).
  assert (Ha : pow2 a == pow2 (a - b) * pow2 b).
  { rewrite <- pow2_add. by replace (a - b + b)%Z with a by lia. }
  rewrite Ha. field. lra.
Qed.

(** *** [ilog2] *)

Lemma log2_bracket (p : Z) :
  (0 < p)%Z -> inject_Z p < pow2 (Z.log2 p + 1) /\ pow2 (Z.log2 p) <= inject_Z p.
Proof.
  intros Hp. destruct (Z.log2_spec p Hp) as [Hlo Hhi].
  assert (0 <= Z.log2 p)%Z by apply Z.log2_nonneg.
  rewrite !pow2_nonneg_Z by lia. split.
  - rewrite <- Zlt_Qlt. by replace (Z.log2 p + 1)%Z with (Z.succ (Z.log2 p)) by lia.
  - by rewrite <- Zle_Qle.
Qed.

Lemma ilog2_spec (x : Q) :
  0 < x -> pow2 (ilog2 x) <= x /\ x < pow2 (ilog2 x + 1).
Proof.
  intros Hx. destruct x as [p q]. unfold ilog2. cbn [Qnum Qden].
  assert (Hp : (0 < p)%Z) by (unfold Qlt in Hx; cbn in Hx; lia).
  destruct (log2_bracket p Hp) as [Hp1 Hp2].
  destruct (log2_bracket (Zpos q) eq_refl) as [Hq1 Hq2].
  set (lp := Z.log2 p) in *. set (lq := Z.log2 (Z.pos q)) in *.
  assert (Hpq : p # q == inject_Z p / inject_Z (Zpos q)) by apply Qmake_Qdiv.
  assert (Hq0 : 0 < inject_Z (Zpos q)) by (by rewrite <- (Zlt_Qlt 0)).
  assert (Hlq := pow2_pos lq). assert (Hlq1 := pow2_pos (lq + 1)).
  destruct (Qle_bool (pow2 (lp - lq)) (p # q)) eqn:Hb.
  - apply Qle_bool_iff in Hb. split; [exact Hb|].
    rewrite Hpq. apply Qlt_shift_div_r; [exact Hq0|].
    eapply Qlt_le_trans; [exact Hp1|].
    replace (lp + 1)%Z with ((lp - lq + 1) + lq)%Z by lia.
    rewrite pow2_add. apply Qmult_le_l; [apply pow2_pos|exact Hq2].
  - assert (Hlt : p # q < pow2 (lp - lq)).
    { apply Qnot_le_lt. intros Hle. apply Qle_bool_iff in Hle. congruence. }
    replace (lp - lq - 1 + 1)%Z with (lp - lq)%Z by lia.
    split; [|exact Hlt].
    rewrite Hpq. apply Qle_shift_div_l; [exact Hq0|].
    apply Qle_trans with (pow2 (lp - lq - 1) * pow2 (lq + 1)).
    + apply Qmult_le_l; [apply pow2_pos|]. by apply Qlt_le_weak.
    + rewrite <- pow2_add. by replace (lp - lq - 1 + (lq + 1))%Z with lp by lia.
Qed.

Lemma ilog2_unique (x : Q) (k : Z) :
  pow2 k <= x -> x < pow2 (k + 1) -> ilog2 x = k.
Proof.
  intros Hlo Hhi.
  assert (Hx : 0 < x) by (eapply Qlt_le_trans; [apply pow2_pos|exact Hlo]).
  destruct (ilog2_spec x Hx) as [Hlo' Hhi'].
  assert (ilog2 x < k + 1)%Z
    by (apply pow2_lt_inv; eapply Qle_lt_trans; eauto).
  assert (k < ilog2 x + 1)%Z
    by (apply pow2_lt_inv; eapply Qle_lt_trans; eauto).
  lia.
Qed.

Lemma ilog2_mono (x y : Q) : 0 < x -> x <= y -> (ilog2 x <= ilog2 y)%Z.
Proof.
  intros Hx Hxy.
  assert (Hy : 0 < y) by (eapply Qlt_le_trans; eauto).
  destruct (ilog2_spec x Hx) as [Hlo _]. destruct (ilog2_spec y Hy) as [_ Hhi].
  assert (ilog2 x < ilog2 y + 1)%Z; [|lia].
  apply pow2_lt_inv. eapply Qle_lt_trans; [exact Hlo|].
  eapply Qle_lt_trans; eauto.
Qed.

(** *** [rne] *)

Lemma rne_spec (x : Q) :
  let q := Qfloor x in
  let f := x - inject_Z q in
  (f < 1 # 2 /\ rne x = q)
  \/ ((1 # 2) < f /\ rne x = (q + 1)%Z)
  \/ (f == 1 # 2 /\ rne x = if Z.even q then q else (q + 1)%Z).
Proof.
  destruct x as [n d]. unfold rne, Qfloor. cbn [Qnum Qden].
  pose proof (Z.div_mod n (Zpos d) ltac:(lia)) as Hdm.
  pose proof (Z.mod_pos_bound n (Zpos d) ltac:(lia)) as Hr.
  set (q := (n / Zpos d)%Z) in *. set (r := (n mod Zpos d)%Z) in *.
  assert (Hf : (n # d) - inject_Z q == r # d).
  { unfold Qeq, Qminus, Qplus, Qopp, inject_Z. cbn. nia. }
  cbv zeta. rewrite Hf.
  destruct (Z.compare_spec (2 * r) (Zpos d)) as [He|Hl|Hg].
  - right. right. split; [|done]. unfold Qeq. cbn. lia.
  - left. split; [|done]. unfold Qlt. cbn. lia.
  - right. left. split; [|done]. unfold Qlt. cbn. lia.
Qed.

Lemma Qfloor_frac (x : Q) :
  0 <= x - inject_Z (Qfloor x) /\ x - inject_Z (Qfloor x) < 1.
Proof.
  pose proof (Qfloor_le x). pose proof (Qlt_floor x) as Hlt.
  rewrite inject_Z_plus in Hlt. change (inject_Z 1) with 1 in Hlt. lra.
Qed.

Lemma rne_error (x : Q) :
  x - (1 # 2) <= inject_Z (rne x) /\ inject_Z (rne x) <= x + (1 # 2).
Proof.
  destruct (Qfloor_frac x) as [H0 H1].
  destruct (rne_spec x) as [[Hf ->]|[[Hf ->]|[Hf Hr]]].
  - lra.
  - rewrite inject_Z_plus. change (inject_Z 1) with 1. lra.
  - rewrite Hr. destruct (Z.even (Qfloor x)).
    + lra.
    + rewrite inject_Z_plus. change (inject_Z 1) with 1. lra.
Qed.

Lemma rne_mono (x y : Q) : x <= y -> (rne x <= rne y)%Z.
Proof.
  intros Hxy. pose proof (Qfloor_resp_le x y Hxy) as Hq.
  destruct (Qfloor_frac x) as [Hx0 Hx1]. destruct (Qfloor_frac y) as [Hy0 Hy1].
  assert (Hcase : (Qfloor x < Qfloor y)%Z \/ Qfloor x = Qfloor y) by lia.
  destruct Hcase as [Hlt|Heq].
  - assert (rne x <= Qfloor x + 1)%Z.
    { destruct (rne_spec x) as [[_ ->]|[[_ ->]|[_ ->]]];
        [lia|lia|destruct (Z.even _); lia]. }
    assert (Qfloor y <= rne y)%Z.
    { destruct (rne_spec y) as [[_ ->]|[[_ ->]|[_ ->]]];
        [lia|lia|destruct (Z.even _); lia]. }
    lia.
  - destruct (rne_spec x) as [[Hf ->]|[[Hf ->]|[Hf ->]]];
      destruct (rne_spec y) as [[Hg ->]|[[Hg ->]|[Hg ->]]];
      rewrite <- ?Heq in *; try lia; try (exfalso; lra);
      destruct (Z.even (Qfloor x)); try lia; exfalso; lra.
Qed.

Lemma rne_exact (x : Q) (n : Z) : x == inject_Z n -> rne x = n.
Proof.
  intros Hx.
  assert (Hq : Qfloor x = n) by (rewrite Hx; apply Qfloor_Z).
  destruct (rne_spec x) as [[Hf ->]|[[Hf _]|[Hf _]]]; [done| |];
    rewrite Hq in Hf; exfalso; lra.
Qed.

(** *** [round_pos] *)

Lemma round_pos_eq (x : Q) :
  round_pos x
  == inject_Z (rne (x / pow2 (ulp_exp x))) * pow2 (ulp_exp x).
Proof. unfold round_pos. apply Qred_correct. Qed.

Lemma round_pos_error (x : Q) :
  x - pow2 (ulp_exp x) / 2 <= round_pos x
  /\ round_pos x <= x + pow2 (ulp_exp x) / 2.
Proof.
  rewrite round_pos_eq. set (e := ulp_exp x).
  assert (He := pow2_pos e).
  destruct (rne_error (x / pow2 e)) as [Hlo Hhi].
  set (m := inject_Z (rne (x / pow2 e))) in *.
  assert (Hx : x == x / pow2 e * pow2 e) by (field; lra).
  set (y := x / pow2 e) in *.
  split.
  - apply Qle_trans with ((y - (1 # 2)) * pow2 e).
    + rewrite Hx at 1. apply Qle_lteq. right. field.
    + apply Qmult_le_compat_r; lra.
  - apply Qle_trans with ((y + (1 # 2)) * pow2 e).
    + apply Qmult_le_compat_r; lra.
    + rewrite Hx at 1. apply Qle_lteq. right. field.
Qed.

Lemma ulp_exp_normal (x : Q) :
  pow2 (-1022) <= x -> ulp_exp x = (ilog2 x - 52)%Z /\ pow2 (ulp_exp x + 52) <= x.
Proof.
  intros Hx.
  assert (Hx0 : 0 < x) by (eapply Qlt_le_trans; [apply pow2_pos|exact Hx]).
  destruct (ilog2_spec x Hx0) as [Hlo Hhi].
  assert (-1022 < ilog2 x + 1)%Z
    by (apply pow2_lt_inv; eapply Qle_lt_trans; eauto).
  unfold ulp_exp. rewrite Z.max_l by lia.
  split; [done|]. by replace (ilog2 x - 52 + 52)%Z with (ilog2 x) by lia.
Qed.

Lemma round_pos_relative (x : Q) :
  pow2 (-1022) <= x ->
  x * (1 - u) <= round_pos x /\ round_pos x <= x * (1 + u).
Proof.
  intros Hx. destruct (ulp_exp_normal x Hx) as [_ Hle].
  destruct (round_pos_error x) as [Hlo Hhi].
  set (e := ulp_exp x) in *.
  assert (He : pow2 e / 2 <= x * u).
  { unfold u. apply Qle_trans with (pow2 (e + 52) * pow2 (-53)).
    - rewrite <- pow2_add. replace (e + 52 + -53)%Z with (e - 1)%Z by lia.
      rewrite pow2_sub. change (pow2 1) with 2. lra.
    - apply Qmult_le_compat_r; [exact Hle|]. apply Qlt_le_weak, pow2_pos. }
  split; lra.
Qed.

Lemma round_pos_mono (x y : Q) :
  0 < x -> x <= y -> round_pos x <= round_pos y.
Proof.
  intros Hx Hxy.
  assert (Hy : 0 < y) by (eapply Qlt_le_trans; eauto).
  pose proof (ilog2_mono x y Hx Hxy) as Hk.
  rewrite !round_pos_eq.
  destruct (ilog2_spec x Hx) as [_ Hxhi]. destruct (ilog2_spec y Hy) as [Hylo _].
  unfold ulp_exp in *.
  set (kx := ilog2 x) in *. set (ky := ilog2 y) in *.
  set (ex := Z.max (kx - 52) (-1074)). set (ey := Z.max (ky - 52) (-1074)).
  assert (Hex := pow2_pos ex). assert (Hey := pow2_pos ey).
  assert (Hcase : ex = ey \/ (ex < ey)%Z) by lia.
  destruct Hcase as [<-|Hlt].
  - apply Qmult_le_compat_r; [|lra]. rewrite <- Zle_Qle. apply rne_mono.
    apply Qmult_le_compat_r; [exact Hxy|]. apply Qlt_le_weak, Qinv_lt_0_compat, Hex.
  - apply Qle_trans with (pow2 (ex + 53)).
    + rewrite pow2_add, (Qmult_comm (pow2 ex) (pow2 53)).
      apply Qmult_le_compat_r; [|lra].
      rewrite (pow2_nonneg_Z 53) by lia. rewrite <- Zle_Qle.
      rewrite <- (rne_exact (inject_Z (2 ^ 53)) (2 ^ 53)) by reflexivity.
      apply rne_mono. rewrite <- (pow2_nonneg_Z 53) by lia.
      apply Qle_shift_div_r; [exact Hex|]. rewrite <- pow2_add.
      apply Qlt_le_weak. eapply Qlt_le_trans; [exact Hxhi|].
      apply pow2_le. lia.
    + apply Qle_trans with (pow2 52 * pow2 ey).
      * rewrite <- pow2_add. apply pow2_le. lia.
      * apply Qmult_le_compat_r; [|lra].
        rewrite (pow2_nonneg_Z 52) by lia. rewrite <- Zle_Qle.
        rewrite <- (rne_exact (inject_Z (2 ^ 52)) (2 ^ 52)) by reflexivity.
        apply rne_mono. rewrite <- (pow2_nonneg_Z 52) by lia.
        apply Qle_shift_div_l; [exact Hey|]. rewrite <- pow2_add.
        eapply Qle_trans; [|exact Hylo]. apply pow2_le. lia.
Qed.

Lemma round_pos_proper (x y : Q) : 0 < x -> x == y -> round_pos x == round_pos y.
Proof.
  intros Hx Hxy. apply Qle_antisym; apply round_pos_mono; lra.
Qed.

Lemma round_pos_int (n : Z) :
  (0 < n <= 2 ^ 53)%Z -> round_pos (inject_Z n) == inject_Z n.
Proof.
  intros Hn.
  assert (Hx : 0 < inject_Z n) by (rewrite <- (Zlt_Qlt 0); lia).
  destruct (ilog2_spec _ Hx) as [Hlo Hhi].
  assert (Hk0 : (0 < ilog2 (inject_Z n) + 1)%Z).
  { apply pow2_lt_inv. eapply Qle_lt_trans; [|exact Hhi].
    change (pow2 0) with (inject_Z 1). rewrite <- Zle_Qle. lia. }
  assert (Hk1 : (ilog2 (inject_Z n) < 54)%Z).
  { apply pow2_lt_inv. eapply Qle_lt_trans; [exact Hlo|].
    rewrite (pow2_nonneg_Z 54) by lia. rewrite <- Zlt_Qlt. lia. }
  rewrite round_pos_eq. unfold ulp_exp.
  set (k := ilog2 (inject_Z n)) in *. rewrite Z.max_l by lia.
  assert (Hcase : (k <= 52)%Z \/ k = 53%Z) by lia.
  destruct Hcase as [Hk|Hk].
  - assert (He : inject_Z n / pow2 (k - 52) == inject_Z (n * 2 ^ (52 - k))).
    { rewrite inject_Z_mult, <- pow2_nonneg_Z by lia.
      replace (52 - k)%Z with (0 - (k - 52))%Z by lia.
      rewrite (pow2_sub 0). change (pow2 0) with 1.
      assert (Hp := pow2_pos (k - 52)). field. lra. }
    rewrite (rne_exact _ _ He).
    rewrite inject_Z_mult, <- pow2_nonneg_Z by lia.
    rewrite <- Qmult_assoc, <- pow2_add.
    replace (52 - k + (k - 52))%Z with 0%Z by lia. change (pow2 0) with 1. ring.
  - assert (n = 2 ^ 53)%Z as ->.
    { rewrite Hk in Hlo. rewrite (pow2_nonneg_Z 53) in Hlo by lia.
      rewrite <- Zle_Qle in Hlo. lia. }
    rewrite Hk. vm_compute. reflexivity.
Qed.

(** *** The operations on positive floats in the normal range *)

Lemma round_normal (x : Q) :
  pow2 (-1022) <= x -> x <= pow2 1000 -> round x = Fin (round_pos x).
Proof.
  intros Hlo Hhi.
  assert (Hx : 0 < x) by (eapply Qlt_le_trans; [apply pow2_pos|exact Hlo]).
  destruct (round_pos_relative x Hlo) as [_ Hr].
  unfold round. destruct x as [[|p|p] d]; 
    try (exfalso; unfold Qlt in Hx; cbn in Hx; lia).
  cbn [Qnum]. destruct (Qle_bool (pow2 1024) (round_pos (Zpos p # d))) eqn:Hb; [|done].
  exfalso. apply Qle_bool_iff in Hb.
  assert (Hu : u <= 1) by (by compute). assert (Hu0 : 0 < u) by apply pow2_pos.
  assert (H2 : pow2 1000 * 2 < pow2 1024).
  { rewrite Qmult_comm, <- pow2_succ. by apply pow2_lt. }
  assert ((Zpos p # d) * (1 + u) <= pow2 1000 * 2) as H3; [|lra].
  apply Qmult_le_compat_nonneg; split; lra.
Qed.

Lemma of_int_exact (n : Z) :
  (0 < n <= 2 ^ 53)%Z -> of_int n = Ok (Fin (round_pos (inject_Z n))).
Proof.
  intros Hn. unfold of_int. rewrite round_normal; [done| |].
  - apply Qle_trans with (inject_Z 1); [by compute|]. rewrite <- Zle_Qle. lia.
  - apply Qle_trans with (inject_Z (2 ^ 53)); [rewrite <- Zle_Qle; lia|].
    rewrite <- (pow2_nonneg_Z 53) by lia. by apply pow2_le.
Qed.

Lemma truediv_normal (x y : Q) :
  0 < y -> pow2 (-1022) <= x / y -> x / y <= pow2 1000 ->
  truediv (Fin x) (Fin y) = Ok (Fin (round_pos (x / y))).
Proof.
  intros Hy Hlo Hhi. unfold truediv.
  destruct (Qeq_bool y 0) eqn:Hb.
  - apply Qeq_bool_iff in Hb. lra.
  - by rewrite round_normal.
Qed.

Lemma mul_normal (x y : Q) :
  pow2 (-1022) <= x * y -> x * y <= pow2 1000 ->
  mul (Fin x) (Fin y) = Fin (round_pos (x * y)).
Proof. intros Hlo Hhi. unfold mul. by rewrite round_normal. Qed.

Lemma to_int_floor (x : Q) :
  0 <= x -> to_int (Fin x) = Ok (Qfloor x).
Proof.
  intros Hx. unfold to_int, Qfloor. destruct x as [n d]. cbn [Qnum Qden].
  assert (0 <= n)%Z by (unfold Qle in Hx; cbn in Hx; lia).
  by rewrite Z.quot_div_nonneg by lia.
Qed.

End FloatFacts.

(** ** Properties of the image geometry *)

Module GeometryFacts.

Import Float FloatFacts.
Local Open Scope Q_scope.

Lemma u_value : u == 1 # 9007199254740992.
Proof. by compute. Qed.

Lemma dim_Q (n : Z) : dim n -> 1 <= inject_Z n /\ inject_Z n <= 16777216.
Proof.
  intros [Hlo Hhi]. unfold max_dim in Hhi. split.
  - change 1 with (inject_Z 1). rewrite <- Zle_Qle. lia.
  - change 16777216 with (inject_Z 16777216). rewrite <- Zle_Qle. lia.
Qed.

Lemma ratio_bounds (a b : Z) :
  dim a -> dim b ->
  (1 # 16777216) <= inject_Z a / inject_Z b /\ inject_Z a / inject_Z b <= 16777216.
Proof.
  intros Ha Hb. destruct (dim_Q a Ha), (dim_Q b Hb). split.
  - apply Qle_shift_div_l; lra.
  - apply Qle_shift_div_r; lra.
Qed.

Lemma ratio_le (a b c d : Z) :
  (0 < b)%Z -> (0 < d)%Z ->
  inject_Z a / inject_Z b <= inject_Z c / inject_Z d <-> (a * d <= c * b)%Z.
Proof.
  intros Hb Hd. destruct b as [|pb|pb], d as [|pd|pd]; try lia.
  unfold Qle, Qdiv, Qmult, Qinv, inject_Z. cbn. nia.
Qed.

Lemma near1_round (x : Q) :
  pow2 (-1022) <= x -> near1 (round_pos x) x.
Proof. apply round_pos_relative. Qed.

Lemma small_is_normal (x : Q) : (1 # 1125899906842624) <= x -> pow2 (-1022) <= x.
Proof. intros Hx. eapply Qle_trans; [|exact Hx]. by compute. Qed.

Lemma large_is_finite (x : Q) : x <= 1125899906842624 -> x <= pow2 1000.
Proof. intros Hx. eapply Qle_trans; [exact Hx|]. by compute. Qed.

Lemma fl_int_exact (n : Z) : dim n -> fl_int n == inject_Z n.
Proof. intros [Hlo Hhi]. apply round_pos_int. unfold max_dim in Hhi. lia. Qed.

Lemma fl_ratio (a b : Z) :
  dim a -> dim b -> fl_int a / fl_int b == inject_Z a / inject_Z b.
Proof. intros Ha Hb. by rewrite !fl_int_exact. Qed.

Lemma fdiv_near (a b : Z) :
  dim a -> dim b -> near1 (fdiv a b) (inject_Z a / inject_Z b).
Proof.
  intros Ha Hb. destruct (ratio_bounds a b Ha Hb).
  unfold near1. rewrite <- (fl_ratio a b Ha Hb).
  apply near1_round, small_is_normal. rewrite fl_ratio by done. lra.
Qed.

Lemma fdiv_mono (a b c d : Z) :
  dim a -> dim b -> dim c -> dim d ->
  (a * d <= c * b)%Z -> fdiv a b <= fdiv c d.
Proof.
  intros Ha Hb Hc Hd Hle. apply round_pos_mono.
  - destruct (ratio_bounds a b Ha Hb). rewrite fl_ratio by done. lra.
  - rewrite !fl_ratio by done. apply ratio_le; [apply Hb|apply Hd|exact Hle].
Qed.

Lemma div_by_float_of_dim (a b : Z) :
  dim a -> dim b -> div_by_float_of a b = Ok (Fin (fdiv a b)).
Proof.
  intros Ha Hb. unfold div_by_float_of.
  rewrite (of_int_exact b) by (unfold dim, max_dim in Hb; lia).
  rewrite (of_int_exact a) by (unfold dim, max_dim in Ha; lia).
  unfold mbind, result_bind. destruct (ratio_bounds a b Ha Hb) as [Hlo Hhi].
  destruct (dim_Q b Hb). fold (fl_int a) (fl_int b).
  pose proof (fl_ratio a b Ha Hb) as He.
  rewrite truediv_normal; [done| | |].
  - rewrite fl_int_exact by done. lra.
  - apply small_is_normal. rewrite He. lra.
  - apply large_is_finite. rewrite He. lra.
Qed.

Lemma mul_int_dim (q : Q) (c : Z) :
  (1 # 33554432) <= q -> q <= 33554432 -> dim c ->
  mul_int (Fin q) c = Ok (Fin (fmul q c))
  /\ near1 (fmul q c) (q * inject_Z c).
Proof.
  intros Hlo Hhi Hc. unfold mul_int.
  rewrite (of_int_exact c) by (unfold dim, max_dim in Hc; lia).
  unfold mbind, result_bind, mret, result_ret. fold (fl_int c).
  destruct (dim_Q c Hc) as [Hc1 Hc2].
  pose proof (fl_int_exact c Hc) as He.
  assert (Hp1 : (1 # 33554432) <= q * inject_Z c).
  { apply Qle_trans with (q * 1); [lra|]. apply Qmult_le_l; lra. }
  assert (Hp2 : q * inject_Z c <= 33554432 * 16777216).
  { apply Qmult_le_compat_nonneg; split; lra. }
  split.
  - rewrite mul_normal; [done| |].
    + apply small_is_normal. rewrite He. lra.
    + apply large_is_finite. rewrite He. lra.
  - unfold near1, fmul. rewrite <- He. apply near1_round, small_is_normal.
    rewrite He. lra.
Qed.

Lemma near1_literal (q E : Q) :
  near1 q E ->
  E * (1 - (1 # 9007199254740992)) <= q /\ q <= E * (1 + (1 # 9007199254740992)).
Proof. unfold near1. by rewrite u_value. Qed.

Lemma fdiv_range (a b : Z) :
  dim a -> dim b -> (1 # 33554432) <= fdiv a b /\ fdiv a b <= 33554432.
Proof.
  intros Ha Hb. destruct (ratio_bounds a b Ha Hb).
  destruct (near1_literal _ _ (fdiv_near a b Ha Hb)). split; lra.
Qed.

(** [fmul (fdiv a b) c], the float computed for [a / float(b) * c], is
    within [1 / b] of the exact [a * c / b]. *)
Lemma scaled_near (a b c : Z) :
  dim a -> dim b -> dim c ->
  inject_Z (a * c) - 1 < fmul (fdiv a b) c * inject_Z b
  /\ fmul (fdiv a b) c * inject_Z b < inject_Z (a * c) + 1
  /\ 0 < fmul (fdiv a b) c.
Proof.
  intros Ha Hb Hc.
  destruct (fdiv_range a b Ha Hb) as [Hq1 Hq2].
  destruct (mul_int_dim (fdiv a b) c Hq1 Hq2 Hc) as [_ Hf].
  apply near1_literal in Hf. destruct Hf as [Hf1 Hf2].
  destruct (near1_literal _ _ (fdiv_near a b Ha Hb)) as [Hd1 Hd2].
  destruct (dim_Q a Ha) as [Ha1 Ha2]. destruct (dim_Q b Hb) as [Hb1 Hb2].
  destruct (dim_Q c Hc) as [Hc1 Hc2].
  set (f := fmul (fdiv a b) c) in *. set (q := fdiv a b) in *.
  set (A := inject_Z a) in *. set (B := inject_Z b) in *. set (C := inject_Z c) in *.
  rewrite inject_Z_mult. fold A C.
  assert (Hr : A / B * B == A) by (field; lra).
  assert (HAC : 0 <= A * C /\ A * C <= 16777216 * 16777216).
  { split; [apply Qmult_le_0_compat; lra|].
    apply Qmult_le_compat_nonneg; split; lra. }
  (* one rounding, scaled by [C * B] *)
  assert (Hqc1 : A * C * (1 - (1 # 9007199254740992)) <= q * C * B).
  { apply Qle_trans with (A / B * (1 - (1 # 9007199254740992)) * C * B).
    - apply Qle_lteq. right. rewrite <- Hr at 1. ring.
    - apply Qmult_le_compat_r; [|lra]. apply Qmult_le_compat_r; lra. }
  assert (Hqc2 : q * C * B <= A * C * (1 + (1 # 9007199254740992))).
  { apply Qle_trans with (A / B * (1 + (1 # 9007199254740992)) * C * B).
    - apply Qmult_le_compat_r; [|lra]. apply Qmult_le_compat_r; lra.
    - apply Qle_lteq. right. rewrite <- Hr at 2. ring. }
  (* the second rounding, scaled by [B] *)
  assert (Hfb1 : q * C * B * (1 - (1 # 9007199254740992)) <= f * B).
  { apply Qle_trans with (q * C * (1 - (1 # 9007199254740992)) * B).
    - apply Qle_lteq. right. ring.
    - apply Qmult_le_compat_r; lra. }
  assert (Hfb2 : f * B <= q * C * B * (1 + (1 # 9007199254740992))).
  { apply Qle_trans with (q * C * (1 + (1 # 9007199254740992)) * B).
    - apply Qmult_le_compat_r; lra.
    - apply Qle_lteq. right. ring. }
  assert (Hqc0 : 0 < q * C) by (apply Qmult_lt_0_compat; lra).
  set (P := q * C * B) in *. set (T := A * C) in *.
  split; [lra|]. split; [lra|]. lra.
Qed.

Lemma floor_scaled (f : Q) (t b : Z) :
  (0 < b)%Z ->
  inject_Z t - 1 < f * inject_Z b -> f * inject_Z b < inject_Z t + 1 ->
  (Qfloor f * b <= t /\ t - b <= Qfloor f * b)%Z.
Proof.
  intros Hb Hlo Hhi.
  assert (HB : 0 < inject_Z b) by (by rewrite <- (Zlt_Qlt 0)).
  pose proof (Qfloor_le f) as Hf1. pose proof (Qlt_floor f) as Hf2.
  split.
  - assert (Hlt : inject_Z (Qfloor f * b) < inject_Z (t + 1)).
    { rewrite inject_Z_mult, inject_Z_plus. change (inject_Z 1) with 1.
      eapply Qle_lt_trans; [|exact Hhi]. apply Qmult_le_compat_r; lra. }
    rewrite <- Zlt_Qlt in Hlt. lia.
  - assert (Hlt : inject_Z (t - 1) < inject_Z ((Qfloor f + 1) * b)).
    { rewrite inject_Z_mult. replace (t - 1)%Z with (t + -1)%Z by lia.
      rewrite inject_Z_plus. change (inject_Z (-1)) with (-1).
      eapply Qlt_trans; [|apply Qmult_lt_compat_r; [exact HB|exact Hf2]]. lra. }
    rewrite <- Zlt_Qlt in Hlt. lia.
Qed.

(** *** [new_size_keep_aspect_ratio] on dimensions *)

Lemma mul_int_scaled (a b c : Z) :
  dim a -> dim b -> dim c ->
  mul_int (Fin (fdiv a b)) c = Ok (Fin (fmul (fdiv a b) c)).
Proof.
  intros Ha Hb Hc. destruct (fdiv_range a b Ha Hb) as [H1 H2].
  by destruct (mul_int_dim _ c H1 H2 Hc).
Qed.

Lemma to_int_scaled (a b c : Z) :
  dim a -> dim b -> dim c ->
  to_int (Fin (fmul (fdiv a b) c)) = Ok (Qfloor (fmul (fdiv a b) c)).
Proof.
  intros Ha Hb Hc. apply to_int_floor.
  destruct (scaled_near a b c Ha Hb Hc) as (_ & _ & H0). lra.
Qed.

Lemma new_size_keep_aspect_ratio_dim (ox oy tw th : Z) (resize_type : string) :
  dim ox -> dim oy -> dim tw -> dim th ->
  new_size_keep_aspect_ratio (ox, oy) (tw, th) resize_type
  = Ok (fit ox oy tw th (String.eqb resize_type "inner")).
Proof.
  intros Hox Hoy Htw Hth. unfold new_size_keep_aspect_ratio, fit. cbn [fst snd].
  rewrite !div_by_float_of_dim by done.
  unfold mbind, result_bind, mret, result_ret. cbv beta iota. cbn [gtb ltb].
  rewrite !mul_int_scaled by done. cbv beta iota. cbn [gtb_int].
  destruct (negb (Qle_bool (fdiv tw th) (fdiv ox oy)));
    [|destruct (negb (Qle_bool (fdiv ox oy) (fdiv tw th)))];
    try destruct (negb (Qle_bool _ (inject_Z _)) && String.eqb resize_type "inner");
    cbv beta iota; cbn [int]; rewrite ?to_int_scaled by done; done.
Qed.

Lemma fdiv_gt_exact (a b c d : Z) :
  dim a -> dim b -> dim c -> dim d ->
  negb (Qle_bool (fdiv a b) (fdiv c d)) = true -> (c * b < a * d)%Z.
Proof.
  intros Ha Hb Hc Hd Hgt.
  destruct (Z.lt_ge_cases (c * b) (a * d)) as [|Hge]; [done|].
  apply (fdiv_mono a b c d Ha Hb Hc Hd) in Hge.
  apply Qle_bool_iff in Hge. by rewrite Hge in Hgt.
Qed.

Lemma ratio_scale (a b d : Z) :
  (0 < b)%Z -> inject_Z a / inject_Z b * (inject_Z b * inject_Z d) == inject_Z (a * d).
Proof.
  intros Hb. assert (0 < inject_Z b) by (by rewrite <- (Zlt_Qlt 0)).
  rewrite inject_Z_mult. field. lra.
Qed.

Lemma fdiv_le_exact (a b c d : Z) :
  dim a -> dim b -> dim c -> dim d ->
  fdiv c d <= fdiv a b -> (c * b <= a * d)%Z.
Proof.
  intros Ha Hb Hc Hd Hle.
  destruct (Z.le_gt_cases (c * b) (a * d)) as [|Hgt]; [done|]. exfalso.
  destruct (near1_literal _ _ (fdiv_near a b Ha Hb)) as [_ Hab].
  destruct (near1_literal _ _ (fdiv_near c d Hc Hd)) as [Hcd _].
  destruct (dim_Q a Ha) as [Ha1 Ha2], (dim_Q b Hb) as [Hb1 Hb2],
    (dim_Q c Hc) as [Hc1 Hc2], (dim_Q d Hd) as [Hd1 Hd2].
  set (BD := inject_Z b * inject_Z d).
  assert (HBD : 0 <= BD) by (apply Qmult_le_0_compat; lra).
  assert (Hsc : inject_Z c / inject_Z d * (1 - (1 # 9007199254740992)) * BD
               <= inject_Z a / inject_Z b * (1 + (1 # 9007199254740992)) * BD).
  { apply Qmult_le_compat_r; [lra|exact HBD]. }
  assert (Hx : inject_Z a / inject_Z b * BD == inject_Z (a * d))
    by (apply ratio_scale, Hb).
  assert (Hy : inject_Z c / inject_Z d * BD == inject_Z (c * b)).
  { unfold BD. rewrite (Qmult_comm (inject_Z b)). apply ratio_scale, Hd. }
  assert (HX : 0 <= inject_Z (a * d) /\ inject_Z (a * d) <= 16777216 * 16777216).
  { rewrite inject_Z_mult. split; [apply Qmult_le_0_compat; lra|].
    apply Qmult_le_compat_nonneg; split; lra. }
  assert (HY : inject_Z (a * d) + 1 <= inject_Z (c * b)
               /\ inject_Z (c * b) <= 16777216 * 16777216).
  { split.
    - change 1 with (inject_Z 1). rewrite <- inject_Z_plus, <- Zle_Qle. lia.
    - rewrite inject_Z_mult. apply Qmult_le_compat_nonneg; split; lra. }
  set (X := inject_Z (a * d)) in *. set (Y := inject_Z (c * b)) in *.
  set (r1 := inject_Z a / inject_Z b) in *. set (r2 := inject_Z c / inject_Z d) in *.
  assert (Hsc2 : Y * (1 - (1 # 9007199254740992)) <= X * (1 + (1 # 9007199254740992))).
  { rewrite <- Hx, <- Hy. lra. }
  lra.
Qed.

Lemma scaled_floor (a b c : Z) :
  dim a -> dim b -> dim c ->
  let r := Qfloor (fmul (fdiv a b) c) in
  (0 <= r /\ r * b <= a * c /\ a * c - b <= r * b)%Z.
Proof.
  intros Ha Hb Hc r.
  destruct (scaled_near a b c Ha Hb Hc) as (Hlo & Hhi & H0).
  split.
  - change 0%Z with (Qfloor 0). apply Qfloor_resp_le. lra.
  - apply floor_scaled; [apply Hb|exact Hlo|exact Hhi].
Qed.

Lemma floor_le_int (f : Q) (n : Z) : Qle_bool f (inject_Z n) = true -> (Qfloor f <= n)%Z.
Proof.
  intros Hle. apply Qle_bool_iff in Hle.
  rewrite <- (Qfloor_Z n). by apply Qfloor_resp_le.
Qed.

Lemma fit_inner (ox oy tw th : Z) :
  dim ox -> dim oy -> dim tw -> dim th ->
  let '(rx, ry) := fit ox oy tw th true in
  (0 <= rx <= tw /\ 0 <= ry <= th /\ (rx = tw \/ ry = th)
   /\ Z.abs (rx * oy - ry * ox) <= Z.max ox oy)%Z.
Proof.
  intros Hox Hoy Htw Hth. unfold fit.
  pose proof (scaled_floor tw ox oy Htw Hox Hoy) as (Hy0 & Hy1 & Hy2).
  pose proof (scaled_floor th oy ox Hth Hoy Hox) as (Hx0 & Hx1 & Hx2).
  pose proof Hox as [Hox0 _]. pose proof Hoy as [Hoy0 _].
  pose proof Htw as [Htw0 _]. pose proof Hth as [Hth0 _].
  destruct (negb (Qle_bool (fdiv tw th) (fdiv ox oy))) eqn:Hgt.
  - apply fdiv_gt_exact in Hgt; [|done..].
    destruct (negb (Qle_bool _ (inject_Z th))) eqn:Hc; cbn [andb].
    + repeat split; try lia; nia.
    + apply negb_false_iff, floor_le_int in Hc. repeat split; try lia; nia.
  - apply negb_false_iff, Qle_bool_iff in Hgt.
    destruct (negb (Qle_bool (fdiv ox oy) (fdiv tw th))) eqn:Hlt.
    + apply fdiv_gt_exact in Hlt; [|done..].
      destruct (negb (Qle_bool _ (inject_Z tw))) eqn:Hc; cbn [andb].
      * repeat split; try lia; nia.
      * apply negb_false_iff, floor_le_int in Hc. repeat split; try lia; nia.
    + apply negb_false_iff, Qle_bool_iff in Hlt.
      apply fdiv_le_exact in Hgt; [|done..]. apply fdiv_le_exact in Hlt; [|done..].
      repeat split; try lia; nia.
Qed.

Lemma fit_outer (ox oy tw th : Z) :
  dim ox -> dim oy -> dim tw -> dim th ->
  let '(rx, ry) := fit ox oy tw th false in
  (tw <= rx /\ th <= ry /\ (rx = tw \/ ry = th)
   /\ Z.abs (rx * oy - ry * ox) <= Z.max ox oy)%Z.
Proof.
  intros Hox Hoy Htw Hth. unfold fit. rewrite !andb_false_r.
  pose proof (scaled_floor tw ox oy Htw Hox Hoy) as (Hy0 & Hy1 & Hy2).
  pose proof (scaled_floor th oy ox Hth Hoy Hox) as (Hx0 & Hx1 & Hx2).
  pose proof Hox as [Hox0 _]. pose proof Hoy as [Hoy0 _].
  pose proof Htw as [Htw0 _]. pose proof Hth as [Hth0 _].
  destruct (negb (Qle_bool (fdiv tw th) (fdiv ox oy))) eqn:Hgt.
  - apply fdiv_gt_exact in Hgt; [|done..].
    repeat split; try lia; nia.
  - apply negb_false_iff, Qle_bool_iff in Hgt.
    destruct (negb (Qle_bool (fdiv ox oy) (fdiv tw th))) eqn:Hlt.
    + apply fdiv_gt_exact in Hlt; [|done..].
      repeat split; try lia; nia.
    + apply negb_false_iff, Qle_bool_iff in Hlt.
      apply fdiv_le_exact in Hgt; [|done..]. apply fdiv_le_exact in Hlt; [|done..].
      repeat split; try lia; nia.
Qed.

(** *** [new_size_by_croping_ratio] on dimensions *)

(** The dimension the fit computes is the one that keeps the aspect ratio
    of the source, rounded down: never above it, and less than one pixel
    below. *)
Lemma fit_ratio (ox oy tw th : Z) (inner : bool) :
  dim ox -> dim oy -> dim tw -> dim th ->
  let '(rx, ry) := fit ox oy tw th inner in
  ((rx = tw /\ 0 <= tw * oy - ry * ox <= ox)
   \/ (ry = th /\ 0 <= th * ox - rx * oy <= oy))%Z.
Proof.
  intros Hox Hoy Htw Hth. unfold fit.
  pose proof (scaled_floor tw ox oy Htw Hox Hoy) as (Hy0 & Hy1 & Hy2).
  pose proof (scaled_floor th oy ox Hth Hoy Hox) as (Hx0 & Hx1 & Hx2).
  pose proof Hox as [Hox0 _]. pose proof Hoy as [Hoy0 _].
  destruct (negb (Qle_bool (fdiv tw th) (fdiv ox oy))) eqn:Hgt.
  - destruct (negb (Qle_bool _ (inject_Z th)) && inner); [right|left]; lia.
  - apply negb_false_iff, Qle_bool_iff in Hgt.
    destruct (negb (Qle_bool (fdiv ox oy) (fdiv tw th))) eqn:Hlt.
    + destruct (negb (Qle_bool _ (inject_Z tw)) && inner); [left|right]; lia.
    + apply negb_false_iff, Qle_bool_iff in Hlt.
      apply fdiv_le_exact in Hgt; [|done..]. apply fdiv_le_exact in Hlt; [|done..].
      left. lia.
Qed.

Lemma quot_range (w tw th : Z) :
  dim w -> dim tw -> dim th ->
  0 < fdiv tw th
  /\ (1 # 33554432) <= fl_int w / fdiv tw th
  /\ fl_int w / fdiv tw th <= 33554432 * 16777216.
Proof.
  intros Hw Htw Hth. destruct (fdiv_range tw th Htw Hth) as [Hr1 Hr2].
  destruct (dim_Q w Hw) as [Hw1 Hw2]. pose proof (fl_int_exact w Hw) as He.
  split; [lra|]. split.
  - apply Qle_shift_div_l; [lra|]. rewrite He.
    apply Qle_trans with ((1 # 33554432) * 33554432); [|lra].
    apply Qmult_le_l; lra.
  - apply Qle_shift_div_r; [lra|]. rewrite He.
    apply Qle_trans with (33554432 * 16777216 * (1 # 33554432)); [lra|].
    apply Qmult_le_l; lra.
Qed.

(** [fquot w tw th] is within [1 / tw] of the exact [w * th / tw]. *)
Lemma quot_near (w tw th : Z) :
  dim w -> dim tw -> dim th ->
  inject_Z (w * th) - 1 < fquot w tw th * inject_Z tw
  /\ fquot w tw th * inject_Z tw < inject_Z (w * th) + 1
  /\ 0 < fquot w tw th.
Proof.
  intros Hw Htw Hth.
  destruct (quot_range w tw th Hw Htw Hth) as (Hr0 & Hx1 & Hx2).
  destruct (near1_literal _ _ (fdiv_near tw th Htw Hth)) as [Hr1 Hr2].
  assert (Hg : near1 (fquot w tw th) (fl_int w / fdiv tw th)).
  { apply near1_round, small_is_normal. lra. }
  apply near1_literal in Hg. destruct Hg as [Hg1 Hg2].
  destruct (dim_Q w Hw) as [Hw1 Hw2]. destruct (dim_Q tw Htw) as [Htw1 Htw2].
  destruct (dim_Q th Hth) as [Hth1 Hth2].
  pose proof (fl_int_exact w Hw) as He.
  set (g := fquot w tw th) in *. set (ratio := fdiv tw th) in *.
  set (x := fl_int w / ratio) in *.
  set (W := inject_Z w) in *. set (TW := inject_Z tw) in *.
  set (TH := inject_Z th) in *. set (R := TW / TH) in *.
  rewrite inject_Z_mult. fold W TH.
  assert (Hxr : x * ratio == W) by (unfold x; rewrite He; field; lra).
  assert (HR : R * TH == TW) by (unfold R; field; lra).
  assert (Hx0 : 0 < x) by lra.
  assert (HR0 : 0 < R) by (unfold R; apply Qlt_shift_div_l; lra).
  (* [x * R] against [W] *)
  assert (Hq1 : x * R * (1 - (1 # 9007199254740992)) <= W).
  { rewrite <- Hxr, <- Qmult_assoc. apply Qmult_le_l; lra. }
  assert (Hq2 : W <= x * R * (1 + (1 # 9007199254740992))).
  { rewrite <- Hxr, <- Qmult_assoc. apply Qmult_le_l; lra. }
  assert (HxR0 : 0 < x * R) by (apply Qmult_lt_0_compat; lra).
  (* scaled by [TH] *)
  assert (Ht1 : x * R * TH * (1 - (1 # 9007199254740992)) <= W * TH).
  { apply Qle_trans with (x * R * (1 - (1 # 9007199254740992)) * TH).
    - apply Qle_lteq. right. ring.
    - apply Qmult_le_compat_r; lra. }
  assert (Ht2 : W * TH <= x * R * TH * (1 + (1 # 9007199254740992))).
  { apply Qle_trans with (x * R * (1 + (1 # 9007199254740992)) * TH).
    - apply Qmult_le_compat_r; lra.
    - apply Qle_lteq. right. ring. }
  assert (HxT : x * R * TH == x * TW) by (rewrite <- HR; ring).
  (* the rounding of [x], scaled by [TW] *)
  assert (Hgt1 : x * TW * (1 - (1 # 9007199254740992)) <= g * TW).
  { apply Qle_trans with (x * (1 - (1 # 9007199254740992)) * TW).
    - apply Qle_lteq. right. ring.
    - apply Qmult_le_compat_r; lra. }
  assert (Hgt2 : g * TW <= x * TW * (1 + (1 # 9007199254740992))).
  { apply Qle_trans with (x * (1 + (1 # 9007199254740992)) * TW).
    - apply Qmult_le_compat_r; lra.
    - apply Qle_lteq. right. ring. }
  assert (HWT : 0 <= W * TH /\ W * TH <= 16777216 * 16777216).
  { split; [apply Qmult_le_0_compat; lra|].
    apply Qmult_le_compat_nonneg; split; lra. }
  rewrite HxT in Ht1, Ht2.
  set (P := x * TW) in *. set (T := W * TH) in *.
  split; [lra|]. split; lra.
Qed.

Lemma quot_floor (w tw th : Z) :
  dim w -> dim tw -> dim th ->
  let r := Qfloor (fquot w tw th) in
  (0 <= r /\ r * tw <= w * th /\ w * th - tw <= r * tw)%Z.
Proof.
  intros Hw Htw Hth r.
  destruct (quot_near w tw th Hw Htw Hth) as (Hlo & Hhi & H0).
  split.
  - change 0%Z with (Qfloor 0). apply Qfloor_resp_le. lra.
  - apply floor_scaled; [apply Htw|exact Hlo|exact Hhi].
Qed.

Lemma new_size_by_croping_ratio_dim (ow oh tw th : Z) (crop_type : string) :
  dim ow -> dim oh -> dim tw -> dim th ->
  new_size_by_croping_ratio (ow, oh) (tw, th) crop_type
  = Ok (let '(tx, ty) := crop_size ow oh tw th in
        let x := anchor_x crop_type ow tx in
        let y := anchor_y crop_type oh ty in
        (x, y, tx + x, ty + y)%Z).
Proof.
  intros How Hoh Htw Hth. unfold new_size_by_croping_ratio, crop_size.
  cbn [fst snd]. rewrite !div_by_float_of_dim by done.
  unfold mbind, result_bind, mret, result_ret. cbv beta iota. cbn [gtb ltb].
  destruct (quot_range ow tw th How Htw Hth) as (Hr0 & Hx1 & Hx2).
  destruct (quot_near ow tw th How Htw Hth) as (_ & _ & Hg0).
  destruct (negb (Qle_bool (fdiv tw th) (fdiv ow oh)));
    [|destruct (negb (Qle_bool (fdiv ow oh) (fdiv tw th)))].
  - rewrite of_int_exact by (unfold dim, max_dim in How; lia). fold (fl_int ow).
    rewrite truediv_normal;
      [|lra|apply small_is_normal; lra|apply large_is_finite; lra].
    fold (fquot ow tw th). rewrite to_int_floor by lra. reflexivity.
  - rewrite mul_int_scaled, to_int_scaled by done. reflexivity.
  - reflexivity.
Qed.

Lemma crop_size_bounds (ow oh tw th : Z) :
  dim ow -> dim oh -> dim tw -> dim th ->
  let '(tx, ty) := crop_size ow oh tw th in
  (0 <= tx <= ow /\ 0 <= ty <= oh
   /\ (tw < ow * th -> th < oh * tw -> 0 < tx /\ 0 < ty))%Z.
Proof.
  intros How Hoh Htw Hth. unfold crop_size.
  pose proof (quot_floor ow tw th How Htw Hth) as (Hy0 & Hy1 & Hy2).
  pose proof (scaled_floor tw th oh Htw Hth Hoh) as (Hx0 & Hx1 & Hx2).
  pose proof How as [How0 _]. pose proof Hoh as [Hoh0 _].
  pose proof Htw as [Htw0 _]. pose proof Hth as [Hth0 _].
  destruct (negb (Qle_bool (fdiv tw th) (fdiv ow oh))) eqn:Hgt.
  - apply fdiv_gt_exact in Hgt; [|done..]. repeat split; try lia; nia.
  - destruct (negb (Qle_bool (fdiv ow oh) (fdiv tw th))) eqn:Hlt.
    + apply fdiv_gt_exact in Hlt; [|done..]. repeat split; try lia; nia.
    + repeat split; lia.
Qed.

Lemma anchor_x_bounds (crop_type : string) (ow tx : Z) :
  (0 <= tx <= ow -> 0 <= anchor_x crop_type ow tx <= ow - tx)%Z.
Proof.
  intros Ht. unfold anchor_x.
  destruct (endswith crop_type "left"); [lia|].
  destruct (endswith crop_type "center").
  - split; [apply Z.div_pos; lia|apply Z.div_le_upper_bound; lia].
  - destruct (endswith crop_type "right"); lia.
Qed.

Lemma anchor_y_bounds (crop_type : string) (oh ty : Z) :
  (0 <= ty <= oh -> 0 <= anchor_y crop_type oh ty <= oh - ty)%Z.
Proof.
  intros Ht. unfold anchor_y.
  destruct (startswith crop_type "top"); [lia|].
  destruct (startswith crop_type "center").
  - split; [apply Z.div_pos; lia|apply Z.div_le_upper_bound; lia].
  - destruct (startswith crop_type "bottom"); lia.
Qed.

(** *** The claims on the geometry *)

Local Close Scope Q_scope.

(** C8.  The inner fit is to return a size with no dimension above the
    target's for all positive sizes, and so says its docstring (a new size
    included in the targeted one).  It computes in binary64 floats, and
    beyond the integers a float holds exactly it does not: source
    161994653x3 fitted into 10558570650489207x195535540 gets the width
    10558570650489208, one above the target's. *)
Theorem fit_inner_exceeds_target :
  new_size_keep_aspect_ratio (161994653, 3) (10558570650489207, 195535540) "inner"
  = Ok (10558570650489208, 195535540)%Z
  /\ (10558570650489207 < 10558570650489208)%Z.
Proof. split; [vm_compute; reflexivity|lia]. Qed.

(** On sizes whose widths and heights are positive and at most [2^24] the
    inner fit does what its docstring says: no dimension exceeds the
    target's, one dimension is the target's, and the other is the one that
    keeps the source's aspect ratio, rounded down (never above it, less
    than one pixel below); source 1920x1080 fitted into 400x300 gives
    (400, 225). *)
Theorem fit_inner_spec :
  (forall ox oy tw th : Z,
      dim ox -> dim oy -> dim tw -> dim th ->
      exists rx ry : Z,
        new_size_keep_aspect_ratio (ox, oy) (tw, th) "inner" = Ok (rx, ry)
        /\ (0 <= rx <= tw)%Z /\ (0 <= ry <= th)%Z
        /\ (rx = tw \/ ry = th)
        /\ (Z.abs (rx * oy - ry * ox) <= Z.max ox oy)%Z
        /\ ((rx = tw /\ 0 <= tw * oy - ry * ox <= ox)
            \/ (ry = th /\ 0 <= th * ox - rx * oy <= oy))%Z)
  /\ new_size_keep_aspect_ratio (1920, 1080) (400, 300) "inner" = Ok (400, 225)%Z.
Proof.
  split; [|vm_compute; reflexivity].
  intros ox oy tw th Hox Hoy Htw Hth.
  rewrite new_size_keep_aspect_ratio_dim by done.
  change (String.eqb "inner" "inner") with true.
  pose proof (fit_inner ox oy tw th Hox Hoy Htw Hth) as Hfit.
  pose proof (fit_ratio ox oy tw th true Hox Hoy Htw Hth) as Hratio.
  destruct (fit ox oy tw th true) as [rx ry]. exists rx, ry.
  split; [reflexivity|]. tauto.
Qed.

(** C9.  The outer fit is to return a size with both dimensions at least
    the target's for all positive sizes, and so says its docstring (a new
    size excluded in the targeted one).  It computes in binary64 floats,
    and beyond the integers a float holds exactly it does not: source
    182327542x3 fitted over 9832564364716245x161784077 gets the width
    9832564364716244, one below the target's. *)
Theorem fit_outer_below_target :
  new_size_keep_aspect_ratio (182327542, 3) (9832564364716245, 161784077) "outer"
  = Ok (9832564364716244, 161784077)%Z
  /\ (9832564364716244 < 9832564364716245)%Z.
Proof. split; [vm_compute; reflexivity|lia]. Qed.

(** On sizes whose widths and heights are positive and at most [2^24] the
    outer fit does what its docstring says: both dimensions are at least
    the target's, one being the target's and the other the one that keeps
    the source's aspect ratio, rounded down (never above it, less than one
    pixel below); source 1920x1080 fitted over 400x300 gives (533, 300). *)
Theorem fit_outer_spec :
  (forall ox oy tw th : Z,
      dim ox -> dim oy -> dim tw -> dim th ->
      exists rx ry : Z,
        new_size_keep_aspect_ratio (ox, oy) (tw, th) "outer" = Ok (rx, ry)
        /\ (tw <= rx)%Z /\ (th <= ry)%Z
        /\ (rx = tw \/ ry = th)
        /\ (Z.abs (rx * oy - ry * ox) <= Z.max ox oy)%Z
        /\ ((rx = tw /\ 0 <= tw * oy - ry * ox <= ox)
            \/ (ry = th /\ 0 <= th * ox - rx * oy <= oy))%Z)
  /\ new_size_keep_aspect_ratio (1920, 1080) (400, 300) "outer" = Ok (533, 300)%Z.
Proof.
  split; [|vm_compute; reflexivity].
  intros ox oy tw th Hox Hoy Htw Hth.
  rewrite new_size_keep_aspect_ratio_dim by done.
  change (String.eqb "outer" "inner") with false.
  pose proof (fit_outer ox oy tw th Hox Hoy Htw Hth) as Hfit.
  pose proof (fit_ratio ox oy tw th false Hox Hoy Htw Hth) as Hratio.
  destruct (fit ox oy tw th false) as [rx ry]. exists rx, ry.
  split; [reflexivity|]. tauto.
Qed.

(** C10, as stated, fails: the crop of a 1x1 source to the ratio 2:1 has
    height zero, so [y1 < y2] does not hold. *)
Lemma crop_empty_rectangle :
  new_size_by_croping_ratio (1, 1) (2, 1) "center" = Ok (0, 0, 1, 0)%Z.
Proof. vm_compute. reflexivity. Qed.

(** C10, amended.  For source and target sizes whose widths and heights are
    positive and at most [2^24], and for every anchor (the nine listed ones
    and any other string), the crop rectangle satisfies
    [0 <= x1 <= x2 <= source_w] and [0 <= y1 <= y2 <= source_h]; the
    inequalities [x1 < x2] and [y1 < y2] are strict when
    [target_w < source_w * target_h] and [target_h < source_h * target_w],
    that is when the crop does not truncate to an empty rectangle. *)
Theorem crop_rectangle_spec (ow oh tw th : Z) (crop_type : string) :
  dim ow -> dim oh -> dim tw -> dim th ->
  exists x1 y1 x2 y2 : Z,
    new_size_by_croping_ratio (ow, oh) (tw, th) crop_type = Ok (x1, y1, x2, y2)
    /\ (0 <= x1 <= x2)%Z /\ (x2 <= ow)%Z /\ (0 <= y1 <= y2)%Z /\ (y2 <= oh)%Z
    /\ ((tw < ow * th)%Z -> (th < oh * tw)%Z -> (x1 < x2)%Z /\ (y1 < y2)%Z).
Proof.
  intros How Hoh Htw Hth.
  rewrite new_size_by_croping_ratio_dim by done.
  pose proof (crop_size_bounds ow oh tw th How Hoh Htw Hth) as Hb.
  destruct (crop_size ow oh tw th) as [tx ty].
  destruct Hb as (Hx & Hy & Hpos).
  pose proof (anchor_x_bounds crop_type ow tx Hx).
  pose proof (anchor_y_bounds crop_type oh ty Hy).
  eexists _, _, _, _. split; [reflexivity|].
  repeat split; try lia; intros H1 H2; destruct (Hpos H1 H2); lia.
Qed.

End GeometryFacts.

(** ** The binary64 model against the Standard Library's *)

Module FloatChecks.

Import Float.

(** Conversion, division and multiplication agree with [SpecFloat] on a
    grid of small integers, on the operands of the scenarios and on
    operands near the limits of the format. *)
Example agrees_on_small_integers :
  forallb (fun a => forallb (fun b => agrees_with_SpecFloat (Z.of_nat a) (Z.of_nat b))
                      (seq 0 40)) (seq 0 40) = true.
Proof. vm_compute. reflexivity. Qed.

Example agrees_on_scenarios :
  forallb (fun p => agrees_with_SpecFloat p.1 p.2)
    [(1920, 1080); (400, 300); (400, 1920); (300, 1080); (1, 49); (38, 132);
     (161994653, 3); (10558570650489207, 195535540); (195535540, 3);
     (9832564364716245, 161784077); (-7, 3); (3, -2 ^ 60 - 1);
     (2 ^ 53 + 1, 3); (2 ^ 53 + 3, 7); (1, 10 ^ 308); (10 ^ 200 + 1, 10 ^ 109 + 12345);
     (2 ^ 1024 - 2 ^ 970 - 1, 2 ^ 1000 + 1); (10 ^ 300, 10 ^ 10)] = true.
Proof. vm_compute. reflexivity. Qed.

Example of_int_overflows : of_int (2 ^ 1024 - 2 ^ 970) = Raise OverflowError.
Proof. vm_compute. reflexivity. Qed.

Example one_over_49_times_49 :
  (x ← div_by_float_of 1 49; y ← mul_int x 49; to_int y) = Ok 0.
Proof. vm_compute. reflexivity. Qed.

End FloatChecks.

(** ** Scenarios *)

Module Scenarios.

Import Sprite Game Symbolic.

Example start_task_accepted :
  (Pool.start_task (Pool.__init__ None) 7%nat).1 = Ok 0%nat.
Proof. reflexivity. Qed.

Example crop_scenario :
  new_size_by_croping_ratio (1920, 1080) (4, 3) "center" = Ok (240, 0, 1680, 1080).
Proof. vm_compute. reflexivity. Qed.

Example fit_square_off_by_one :
  new_size_keep_aspect_ratio (38, 38) (132, 53) "inner" = Ok (52, 53).
Proof. vm_compute. reflexivity. Qed.

Example mixed_chain_value :
  mixed_chain
  = Node (set_visible 0 red_sprite)
      [Node (set_visible 1 (set_visible 0 red_sprite))
         [Node (set_visible 0 (set_visible 1 (set_visible 0 red_sprite))) []]].
Proof. reflexivity. Qed.

(** C2, as stated, fails: rendering a dirty sprite returns its image and
    leaves the dirty flag set. *)
Lemma image_keeps_dirty :
  (image red_sprite).1 = Ok (Fill (Blank (10, 10)) [255; 0; 0] None)
  /\ dirty red_sprite = 1
  /\ dirty (image red_sprite).2 = 1.
Proof. repeat split. Qed.

(** After [session], the image is the red fill at the latest size. *)
Lemma image_spec_witness :
  let s := foldl apply (new_sprite (10, 10) 2 true) session in
  rendering s = Ok (Fill (Blank (20, 30)) [255; 0; 0] None)
  /\ _image_cache (image s).2 = Some (Fill (Blank (20, 30)) [255; 0; 0] None).
Proof.
  intros s.
  apply (proj2 (proj2 (proj2 (SpriteFacts.image_spec s))) (10, 10) 2 true session);
    reflexivity.
Defined.

(** [set_rect] on the red sprite once rendered: a null width, a move, a
    resize. *)
Lemma set_rect_spec_witness :
  set_rect 0 0 0 5 (image red_sprite).2
  = (Raise (AssertionError "Sprite width shall be greater than zero"),
     (image red_sprite).2)
  /\ (rect (set_rect 3 4 10 10 (image red_sprite).2).2 = mkRect 3 4 10 10
      /\ dirty (set_rect 3 4 10 10 (image red_sprite).2).2 = 1
      /\ _image_cache (set_rect 3 4 10 10 (image red_sprite).2).2
         = Some (Fill (Blank (10, 10)) [255; 0; 0] None))
  /\ (rect (set_rect 0 0 20 20 (image red_sprite).2).2 = mkRect 0 0 20 20
      /\ dirty (set_rect 0 0 20 20 (image red_sprite).2).2 = 1
      /\ _image_cache (set_rect 0 0 20 20 (image red_sprite).2).2 = None).
Proof.
  split; [|split].
  - apply (proj1 (SpriteFacts.set_rect_spec (image red_sprite).2 0 0 0 5)). lia.
  - destruct (proj2 (proj2 (SpriteFacts.set_rect_spec (image red_sprite).2 3 4 10 10))
                ltac:(lia) ltac:(lia))
      as (_ & Hrect & _ & _ & _ & _ & _ & _ & _ & _ & _ & _ & _ & _ & Hdirty
          & Hkeep & _).
    split; [exact Hrect|]. split.
    + apply Hdirty. discriminate.
    + rewrite Hkeep; reflexivity.
  - destruct (proj2 (proj2 (SpriteFacts.set_rect_spec (image red_sprite).2 0 0 20 20))
                ltac:(lia) ltac:(lia))
      as (_ & Hrect & _ & _ & _ & _ & _ & _ & _ & _ & _ & _ & _ & _ & Hdirty
          & _ & Hdrop).
    split; [exact Hrect|]. split.
    + apply Hdirty. discriminate.
    + apply Hdrop. discriminate.
Defined.



(** The inner fit of the scenario is within the bounds. *)
Lemma fit_inner_spec_witness :
  exists rx ry : Z,
    new_size_keep_aspect_ratio (1920, 1080) (400, 300) "inner" = Ok (rx, ry)
    /\ 0 <= rx <= 400 /\ 0 <= ry <= 300
    /\ (rx = 400 \/ ry = 300)
    /\ Z.abs (rx * 1080 - ry * 1920) <= Z.max 1920 1080
    /\ ((rx = 400 /\ 0 <= 400 * 1080 - ry * 1920 <= 1920)
        \/ (ry = 300 /\ 0 <= 300 * 1920 - rx * 1080 <= 1080)).
Proof.
  apply (proj1 GeometryFacts.fit_inner_spec 1920 1080 400 300);
    unfold dim, max_dim; lia.
Defined.

(** The outer fit of the scenario is within the bounds. *)
Lemma fit_outer_spec_witness :
  exists rx ry : Z,
    new_size_keep_aspect_ratio (1920, 1080) (400, 300) "outer" = Ok (rx, ry)
    /\ 400 <= rx /\ 300 <= ry
    /\ (rx = 400 \/ ry = 300)
    /\ Z.abs (rx * 1080 - ry * 1920) <= Z.max 1920 1080
    /\ ((rx = 400 /\ 0 <= 400 * 1080 - ry * 1920 <= 1920)
        \/ (ry = 300 /\ 0 <= 300 * 1920 - rx * 1080 <= 1080)).
Proof.
  apply (proj1 GeometryFacts.fit_outer_spec 1920 1080 400 300);
    unfold dim, max_dim; lia.
Defined.

(** The crop of the scenario, anchored bottom-right. *)
Lemma crop_rectangle_spec_witness :
  exists x1 y1 x2 y2 : Z,
    new_size_by_croping_ratio (1920, 1080) (4, 3) "bottom-right"
    = Ok (x1, y1, x2, y2)
    /\ 0 <= x1 <= x2 /\ x2 <= 1920 /\ 0 <= y1 <= y2 /\ y2 <= 1080
    /\ (4 < 1920 * 3 -> 3 < 1080 * 4 -> x1 < x2 /\ y1 < y2).
Proof.
  apply (GeometryFacts.crop_rectangle_spec 1920 1080 4 3 "bottom-right");
    unfold dim, max_dim; lia.
Defined.

End Scenarios.

(** ** Further properties of the task pool *)

Module PoolMoreFacts.

Import Pool PoolMore.

Lemma well_tracked_step (w : World) (o : op) :
  well_tracked w -> well_tracked (step w o).
Proof.
  intros Hw. destruct o as [|t|f|]; cbn.
  - exact Hw.
  - unfold start_task, submit.
    destruct (stop_event (executor w)); [exact Hw|].
    destruct (shut_down (executor w)); [exact Hw|].
    intros f t'. cbn. destruct (decide (f = next_future w)) as [->|Hne].
    + lia.
    + rewrite lookup_insert_ne by done. intros Hf. apply Hw in Hf. lia.
  - unfold finish_task. destruct (FUTURES w !! f) eqn:Hf; [|exact Hw].
    intros f' t'. cbn. intros Hl. apply lookup_delete_Some in Hl as [_ Hl].
    by apply Hw in Hl.
  - intros f t. cbn. by rewrite lookup_empty.
Qed.

Lemma well_tracked_run (ops : list op) (w : World) :
  well_tracked w -> well_tracked (run w ops).
Proof.
  revert w. induction ops as [|o ops IH]; intros w Hw; cbn; [done|].
  by apply IH, well_tracked_step.
Qed.

Lemma well_tracked_init : well_tracked (__init__ None).
Proof. intros f t. cbn. by rewrite lookup_empty. Qed.

Lemma well_tracked_reachable (ops : list op) :
  well_tracked (run (__init__ None) ops).
Proof. apply well_tracked_run, well_tracked_init. Qed.

(** In a state the pool can reach, with the stop event unset and the
    executor running, a submission is accepted: it returns a future that
    was not tracked, registers the task under it and leaves the other
    registrations and the executor as they were. *)
Theorem start_task_accepts (ops : list op) (task : task_id) :
  let w := run (__init__ None) ops in
  stop_event (executor w) = false -> shut_down (executor w) = false ->
  let '(r, w') := start_task w task in
  r = Ok (next_future w)
  /\ FUTURES w !! next_future w = None
  /\ FUTURES w' !! next_future w = Some task
  /\ (forall f, f <> next_future w -> FUTURES w' !! f = FUTURES w !! f)
  /\ executor w' = executor w.
Proof.
  intros w Hstop Hshut.
  pose proof (well_tracked_reachable ops) as Hw. fold w in Hw.
  unfold start_task, submit. rewrite Hstop, Hshut. cbn.
  split; [done|]. split.
  - destruct (FUTURES w !! next_future w) eqn:Hf; [|done].
    apply Hw in Hf. lia.
  - split; [by rewrite lookup_insert_eq|]. split; [|done].
    intros f Hne. by rewrite lookup_insert_ne.
Qed.

(** Two submissions, then a completion: a case of [start_task_accepts]. *)
Lemma start_task_accepts_witness :
  let w := run (__init__ None) [StartTask 4%nat; StartTask 5%nat; FinishTask 0%nat] in
  (start_task w 6%nat).1 = Ok 2%nat
  /\ FUTURES (start_task w 6%nat).2 !! 2%nat = Some 6%nat.
Proof.
  intros w.
  pose proof (start_task_accepts
                [StartTask 4%nat; StartTask 5%nat; FinishTask 0%nat] 6%nat
                eq_refl eq_refl) as Hs.
  fold w in Hs. destruct (start_task w 6%nat) as [r w'].
  destruct Hs as (-> & _ & Hf & _). split; [reflexivity|exact Hf].
Defined.

(** A submission followed by the completion of its future leaves the
    registry as it was before the submission. *)
Theorem start_finish_roundtrip (ops : list op) (task : task_id) :
  let w := run (__init__ None) ops in
  stop_event (executor w) = false -> shut_down (executor w) = false ->
  let w1 := (start_task w task).2 in
  (finish_task w1 (next_future w)).1 = Ok tt
  /\ FUTURES (finish_task w1 (next_future w)).2 = FUTURES w.
Proof.
  intros w Hstop Hshut w1.
  pose proof (well_tracked_reachable ops) as Hw. fold w in Hw.
  assert (Hnone : FUTURES w !! next_future w = None).
  { destruct (FUTURES w !! next_future w) eqn:Hf; [|done]. apply Hw in Hf. lia. }
  subst w1. unfold start_task, submit. rewrite Hstop, Hshut. cbn.
  unfold finish_task. cbn. rewrite lookup_insert_eq. cbn.
  split; [done|]. by rewrite delete_insert_id.
Qed.

Lemma start_finish_roundtrip_witness :
  let w := run (__init__ None) [StartTask 4%nat] in
  FUTURES (finish_task (start_task w 9%nat).2 1%nat).2 = FUTURES w.
Proof.
  intros w.
  apply (start_finish_roundtrip [StartTask 4%nat] 9%nat); reflexivity.
Defined.

(** The completion of a future the registry does not track raises
    [KeyError] and changes nothing; so does a second completion of a
    future, the first one having removed it. *)
Theorem finish_task_untracked (w : World) (f : future_id) :
  (FUTURES w !! f = None -> finish_task w f = (Raise KeyError, w))
  /\ (finish_task (finish_task w f).2 f).1 = Raise KeyError.
Proof.
  split.
  - intros Hf. unfold finish_task. by rewrite Hf.
  - unfold finish_task at 2. destruct (FUTURES w !! f) eqn:Hf; cbn.
    + unfold finish_task. cbn. by rewrite lookup_delete_eq.
    + unfold finish_task. by rewrite Hf.
Qed.

Lemma finish_task_untracked_witness :
  finish_task (__init__ None) 3%nat = (Raise KeyError, __init__ None).
Proof. apply (proj1 (finish_task_untracked (__init__ None) 3%nat)). reflexivity. Defined.

Lemma FUTURES_after_quit_step (w : World) (o : op) :
  shut_down (executor w) = true -> FUTURES w = ∅ -> FUTURES (step w o) = ∅.
Proof.
  intros Hs He. destruct o as [|t|f|]; cbn.
  - exact He.
  - unfold start_task, submit. rewrite Hs.
    by destruct (stop_event (executor w)).
  - unfold finish_task. rewrite He, lookup_empty. exact He.
  - reflexivity.
Qed.

(** After [quit] the registry is empty and stays empty whatever the
    operations that follow, and the executor stays shut down: no task is
    tracked again. *)
Theorem registry_empty_after_quit (w : World) (ops : list op) :
  FUTURES (run (quit w) ops) = ∅
  /\ shut_down (executor (run (quit w) ops)) = true.
Proof.
  assert (Hq : FUTURES (quit w) = ∅ /\ shut_down (executor (quit w)) = true)
    by done.
  revert Hq. generalize (quit w). clear w.
  induction ops as [|o ops IH]; intros w [He Hs]; cbn; [done|].
  apply IH. split.
  - by apply FUTURES_after_quit_step.
  - by apply PoolFacts.shut_down_step.
Qed.

Lemma killed_step (w : World) (o : op) : killed w ⊆ killed (step w o).
Proof.
  destruct o as [|t|f|]; cbn.
  - done.
  - unfold start_task, submit.
    by destruct (stop_event (executor w)), (shut_down (executor w)).
  - unfold finish_task. by destruct (FUTURES w !! f).
  - apply union_subseteq_l.
Qed.

(** [quit] kills every task the registry tracks, and a killed task stays
    killed whatever the operations that follow. *)
Theorem quit_kills_tracked (w : World) (ops : list op) (t : task_id) :
  t ∈ tracked w ∪ killed w -> t ∈ killed (run (quit w) ops).
Proof.
  intros Ht.
  assert (Hq : t ∈ killed (quit w)).
  { cbn. unfold tracked in Ht.
    apply elem_of_union in Ht as [Ht|Ht];
      [by apply elem_of_union_r|by apply elem_of_union_l]. }
  revert Hq. generalize (quit w). clear.
  induction ops as [|o ops IH]; intros w Hk; cbn; [done|].
  apply IH. by apply killed_step.
Qed.

Lemma quit_kills_tracked_witness :
  5%nat ∈ killed (run (quit (run (__init__ None) [StartTask 4%nat; StartTask 5%nat]))
                  [Construct; StartTask 6%nat]).
Proof.
  apply quit_kills_tracked. apply elem_of_union_l.
  unfold tracked. apply elem_of_list_to_set, list_elem_of_In.
  vm_compute. tauto.
Defined.

End PoolMoreFacts.

(** ** Further properties of task execution *)

Module TaskMoreFacts.

Import Task TaskMore.

Section WithPayload.

Context {A : Type}.
Implicit Types (self : AsyncTask A) (queue : list (Event A)).

Lemma last_result_cases self (i n : nat) (res : option A) :
  (last_result self i n res = res
   /\ forall k, (i <= k < i + n)%nat -> fails_at self k)
  \/ (exists k v,
        (i <= k < i + n)%nat /\ runnable self k = Returns v
        /\ last_result self i n res = Some v
        /\ forall j, (k < j < i + n)%nat -> fails_at self j).
Proof.
  revert i res. induction n as [|n IH]; intros i res.
  - left. split; [done|]. intros k Hk. lia.
  - cbn [last_result].
    destruct (IH (S i) (match runnable self i with
                        | Returns v => Some v
                        | Raises _ => res
                        end)) as [[Hr Hf]|(k & v & Hk & Hv & Hr & Hf)].
    + destruct (runnable self i) as [v|ex] eqn:Hrun.
      * right. exists i, v. split; [lia|]. split; [done|]. split; [done|].
        intros j Hj. apply Hf. lia.
      * left. split; [done|]. intros k Hk.
        destruct (decide (k = i)) as [->|].
        -- by eapply TaskFacts.raises_fails.
        -- apply Hf. lia.
    + right. exists k, v. split; [lia|]. split; [done|]. split; [done|].
      intros j Hj. apply Hf. lia.
Qed.

(** A run of [__call__] that ends went through the number [n] of
    iterations that [ends_at] fixes, posted the events of these iterations
    and returns the value of the last call of the runnable that returned,
    [None] when no call did: a failing call does not change the result.
    Where the conditions of [ends_at] hold for [n], the run with [S n]
    units of fuel returns exactly that. *)
Theorem call_returns_last_result self :
  (forall fuel queue r queue',
      __call__ fuel self queue = Some (r, queue') ->
      exists n,
        ends_at self 0 n /\ queue' = queue ++ posted self 0 n
        /\ r = last_result self 0 n None)
  /\ (forall n queue,
        ends_at self 0 n ->
        __call__ (S n) self queue
        = Some (last_result self 0 n None, queue ++ posted self 0 n))
  /\ (forall n,
        match last_result self 0 n None with
        | None => forall k, (k < n)%nat -> fails_at self k
        | Some v =>
            exists k, (k < n)%nat /\ runnable self k = Returns v
                      /\ forall j, (k < j < n)%nat -> fails_at self j
        end).
Proof.
  split; [|split].
  - intros fuel queue r queue'. apply TaskFacts.call_from_ends.
  - intros n queue. apply TaskFacts.call_from_exact.
  - intros n.
    destruct (last_result_cases self 0 n None) as [[-> Hf]|(k & v & Hk & Hv & -> & Hf)].
    + intros k Hk. apply Hf. lia.
    + exists k. split; [lia|]. split; [done|]. intros j Hj. apply Hf. lia.
Qed.

Lemma call_from_cancelled (k : nat) self (i : nat) (res : option A) queue :
  loop self = true ->
  (forall j, (i <= j < i + k)%nat -> _stop_event self j = false /\ ~ fails_at self j) ->
  _stop_event self (i + k) = true ->
  call_from (S k) self i res queue
  = Some (last_result self i k res, queue ++ posted self i k).
Proof.
  intros Hloop. revert i res queue.
  induction k as [|k IH]; intros i res queue Hrun Hstop.
  - replace (i + 0)%nat with i in Hstop by lia. cbn. rewrite Hstop.
    by rewrite TaskFacts.posted_nil, app_nil_r.
  - destruct (Hrun i ltac:(lia)) as [Hs Hf].
    pose proof (TaskFacts.emit_posted self i queue) as He.
    change (call_from (S (S k)) self i res queue) with
      (if _stop_event self i then Some (res, queue)
       else match runnable self i with
            | Returns v =>
                if negb (loop self) then Some (Some v, emit self (Some v) None queue)
                else call_from (S k) self (S i) (Some v)
                       (emit self (Some v) None queue)
            | Raises ex => Some (res, emit self None (Some ex) queue)
            end).
    rewrite Hs, Hloop. unfold fails_at in Hf. cbn [last_result negb].
    destruct (runnable self i) as [v|ex]; [|done].
    rewrite IH.
    + by rewrite He, (TaskFacts.posted_cons self i k), app_assoc.
    + intros j Hj. apply Hrun. lia.
    + by replace (S i + k)%nat with (i + S k)%nat by lia.
Qed.

(** Cancellation is seen between iterations only: a looping task whose
    calls all return runs until the first test of the loop that finds the
    stop event set, having gone through every iteration before it, posted
    their events and kept the last result. *)
Theorem call_cancelled (k : nat) self queue :
  loop self = true ->
  (forall j, (j < k)%nat -> _stop_event self j = false /\ ~ fails_at self j) ->
  _stop_event self k = true ->
  __call__ (S k) self queue
  = Some (last_result self 0 k None, queue ++ posted self 0 k).
Proof.
  intros Hloop Hrun Hstop. apply call_from_cancelled; [done| |done].
  intros j Hj. apply Hrun. lia.
Qed.

Lemma call_from_forever (fuel : nat) self (i : nat) (res : option A) queue :
  loop self = true ->
  (forall j, _stop_event self j = false /\ ~ fails_at self j) ->
  call_from fuel self i res queue = None.
Proof.
  intros Hloop Hrun. revert i res queue.
  induction fuel as [|fuel IH]; intros i res queue; [done|].
  cbn. destruct (Hrun i) as [-> Hf]. unfold fails_at in Hf.
  destruct (runnable self i); [|done]. rewrite Hloop. cbn. apply IH.
Qed.

(** A looping task that is never stopped and whose calls all return never
    ends: no amount of fuel makes [__call__] return. *)
Theorem call_never_returns (fuel : nat) self queue :
  loop self = true ->
  (forall j, _stop_event self j = false /\ ~ fails_at self j) ->
  __call__ fuel self queue = None.
Proof. apply call_from_forever. Qed.

End WithPayload.

(** The run of [flaky]: three iterations, and the last result is the
    second one. *)
Lemma call_returns_last_result_witness :
  exists n,
    ends_at (flaky (Some 5)) 0 n
    /\ [mkEvent 5 (Some 0) None; mkEvent 5 (Some 1) None;
        mkEvent 5 None (Some (ValueError "capture"))]
       = [] ++ posted (flaky (Some 5)) 0 n
    /\ Some 1 = last_result (flaky (Some 5)) 0 n None.
Proof.
  apply (proj1 (call_returns_last_result (flaky (Some 5))) 5%nat [] (Some 1)).
  reflexivity.
Defined.

(** A counter stopped at the third test of its loop. *)
Lemma call_cancelled_witness :
  __call__ 3 (mkAsyncTask (fun i => Returns (Z.of_nat i)) (Some 7) true
                (fun i => (2 <=? i)%nat)) []
  = Some (Some 1, [mkEvent 7 (Some 0) None; mkEvent 7 (Some 1) None]).
Proof.
  apply (call_cancelled 2
           (mkAsyncTask (fun i => Returns (Z.of_nat i)) (Some 7) true
              (fun i => (2 <=? i)%nat)) []).
  - reflexivity.
  - intros j Hj. split.
    + destruct j as [|[|j]]; [reflexivity|reflexivity|lia].
    + intros Hf. exact Hf.
  - reflexivity.
Defined.

(** A counter nobody stops. *)
Lemma call_never_returns_witness :
  __call__ 100 (mkAsyncTask (fun i => Returns (Z.of_nat i)) (Some 7) true
                  (fun _ => false)) [] = None.
Proof.
  apply (call_never_returns 100
           (mkAsyncTask (fun i => Returns (Z.of_nat i)) (Some 7) true
              (fun _ => false)) []).
  - reflexivity.
  - intros j. split; [reflexivity|]. intros Hf. exact Hf.
Defined.

End TaskMoreFacts.

(** ** Further properties of the drawable nodes *)

Module SpriteMoreFacts.

Import Sprite SpriteMore.

Section WithPygame.

Context `{Pygame}.
Implicit Types (self s : ImageSprite) (n : Sprite).

(** *** Mutators and the dirty flag *)

Lemma set_dirty_changed (redraw : bool) s :
  dirty (set_dirty redraw s) = 1
  /\ (_image_cache (set_dirty redraw s) = _image_cache s
      \/ _image_cache (set_dirty redraw s) = None).
Proof. destruct redraw; cbn; auto. Qed.

(** No mutator leaves a sprite it has changed clean: after a call the
    sprite is as it was, or its dirty flag is 1; and the cached image is the
    one it had, or is dropped. *)
Theorem mutators_mark_dirty self (m : mutation) :
  m <> Render ->
  (apply self m = self \/ dirty (apply self m) = 1)
  /\ (_image_cache (apply self m) = _image_cache self
      \/ _image_cache (apply self m) = None).
Proof.
  intros Hm. destruct m as [x y width height|sk|c|c|hf vf|a|]; cbn; [| | | | | |done].
  - unfold set_rect.
    destruct (negb (0 <? width)); [auto|]. destruct (negb (0 <? height)); [auto|].
    cbn [snd].
    destruct (bool_decide (topleft (rect self) ≠ (x, y)));
      destruct (bool_decide (size (rect _) ≠ (width, height))); cbn; auto.
  - unfold set_skin.
    destruct sk as [p|[|rgb|rgb|im|sf]]; cbn;
      repeat (match goal with |- context [if ?b then _ else _] => destruct b end;
              cbn); auto.
  - unfold set_color. destruct (bool_decide _); cbn; auto.
  - unfold set_crop. destruct (bool_decide _); cbn; auto.
  - unfold set_flip. destruct hf as [b|], vf as [b'|];
      repeat (match goal with |- context [if ?b then _ else _] => destruct b end;
              cbn); auto.
  - unfold set_angle. destruct (bool_decide _); cbn; auto.
Qed.

(** *** The size of the rendered image *)

Lemma transform_pygame_image_size (sf : Surface) (sz : Z * Z)
    (antialiasing hf vf : bool) (a : Z) (cr : bool) (c : option color) img :
  size_laws ->
  transform_pygame_image sf sz antialiasing hf vf a cr c = Ok img ->
  get_size img = sz.
Proof.
  intros (Hnew & Hfill & Hcopy & Hsmooth & Hscale & Hblit & Hflip).
  unfold transform_pygame_image.
  set (sf' := if bool_decide (a ≠ 0) then rotate sf a else sf).
  set (scaled := if bool_decide (sz ≠ get_size sf') then _ else _).
  destruct scaled as [im1|e]; [|discriminate]. cbn.
  set (placed := if cr && bool_decide (sz ≠ get_size im1) then _ else _).
  assert (Hplaced : forall im2, placed = Ok im2 -> get_size im2 = sz).
  { subst placed. intros im2.
    destruct (bool_decide (sz ≠ get_size im1)) eqn:Hd.
    - destruct cr; cbn.
      + destruct (new_size_by_croping_ratio _ _ _); [|discriminate]. cbn.
        intros [= <-]. by rewrite Hblit, Hnew.
      + intros [= <-]. by rewrite Hblit, Hnew.
    - rewrite andb_false_r. intros [= <-].
      apply bool_decide_eq_false in Hd. by apply dec_stable in Hd. }
  destruct placed as [im2|e]; [|discriminate]. cbn.
  specialize (Hplaced im2 eq_refl). intros [= <-].
  assert (Hf : get_size (if hf || vf then flip im2 hf vf else im2) = sz).
  { destruct (hf || vf); [by rewrite Hflip|done]. }
  destruct (truthy_color c); [|done].
  unfold colorize_pygame_image. by rewrite !Hfill, Hcopy.
Qed.

(** Whatever the skin, the flags and the size of the source image, the
    image a sprite renders has the size of its rectangle. *)
Theorem rendering_has_rect_size self img :
  size_laws -> rendering self = Ok img -> get_size img = size (rect self).
Proof.
  intros Hlaws. pose proof Hlaws as (Hnew & Hfill & _).
  unfold rendering, draw.
  destruct (_image_orig self) as [|rgb|rgb|im|sf]; cbn.
  - destruct (truthy_path (path self)); cbn; [|discriminate].
    by apply transform_pygame_image_size.
  - intros [= <-]. by rewrite Hfill, Hnew.
  - intros [= <-]. by rewrite Hfill, Hnew.
  - by apply transform_pygame_image_size.
  - by apply transform_pygame_image_size.
Qed.

(** *** [set_skin], then [image] *)

(** On a sprite whose cache is coherent, [set_skin] with an RGB tuple
    makes [image] return the fill of a surface of the rectangle's size
    with that colour, and [set_skin] with a PIL image makes it return the
    transformation of that image to the rectangle's size under the
    sprite's flags: whether the skin is new or the one already set. *)
Theorem set_skin_then_image self :
  coherent self ->
  (forall rgb, length rgb = 3%nat ->
     (image (set_skin (SObj (OTuple rgb)) self).2).1
     = Ok (fill (new_surface (size (rect self))) rgb None))
  /\ (forall im,
        (image (set_skin (SObj (OPil im)) self).2).1
        = transform_pygame_image (frombuffer im) (size (rect self)) true
            (hflip self) (vflip self) (angle self) (crop self)
            (if colorize self then color_ self else None)).
Proof.
  intros Hc. split.
  - intros rgb Hlen. unfold set_skin. rewrite Hlen. cbn [Nat.eqb negb].
    destruct (bool_decide (OTuple rgb ≠ _image_orig self)) eqn:Hd; cbn [snd].
    + reflexivity.
    + apply bool_decide_eq_false in Hd. apply dec_stable in Hd.
      rewrite SpriteFacts.image_unfold.
      assert (Hr : rendering self
                   = Ok (fill (new_surface (size (rect self))) rgb None)).
      { unfold rendering, draw. by rewrite <- Hd. }
      destruct (_image_cache self) as [img|] eqn:Hcache; cbn.
      * rewrite <- Hr. symmetry. by apply Hc.
      * by rewrite Hr.
  - intros im. unfold set_skin.
    destruct (bool_decide (OPil im ≠ _image_orig self)) eqn:Hd; cbn [snd].
    + unfold image. cbn. by destruct (transform_pygame_image _ _ _ _ _ _ _ _).
    + apply bool_decide_eq_false in Hd. apply dec_stable in Hd.
      rewrite SpriteFacts.image_unfold.
      assert (Hr : rendering self
                   = transform_pygame_image (frombuffer im) (size (rect self)) true
                       (hflip self) (vflip self) (angle self) (crop self)
                       (if colorize self then color_ self else None)).
      { unfold rendering, draw. by rewrite <- Hd. }
      destruct (_image_cache self) as [img|] eqn:Hcache; cbn.
      * rewrite <- Hr. symmetry. by apply Hc.
      * rewrite <- Hr. by destruct (rendering self).
Qed.

(** *** The tree *)

Lemma get_sprites_recursive_node s (subs : list Sprite) :
  get_sprites_recursive (Node s subs)
  = subs ++ concat (map get_sprites_recursive subs).
Proof. reflexivity. Qed.

Lemma Forall_concat_map {A B} (P : B -> Prop) (f : A -> list B) (l : list A) :
  Forall P (concat (map f l)) <-> Forall (fun a => Forall P (f a)) l.
Proof.
  induction l as [|a l IH]; cbn.
  - split; constructor.
  - rewrite Forall_app, Forall_cons, IH. done.
Qed.

(** [get_sprites(recursive=True)] lists the descendants of a sprite, all
    of them and nothing else: a property holds of every sprite of a tree
    exactly when it holds of the root and of every sprite listed, and the
    list has one entry per sprite below the root. *)
Theorem get_sprites_recursive_spec (P : ImageSprite -> Prop) n :
  (all_sprites P n
   <-> P (node_self n) /\ Forall (fun m => P (node_self m)) (get_sprites_recursive n))
  /\ S (length (get_sprites_recursive n)) = count_sprites n.
Proof.
  induction n as [s subs IH] using TreeFacts.Sprite_ind'. split.
  - rewrite TreeFacts.all_sprites_node, get_sprites_recursive_node.
    cbn [node_self]. rewrite Forall_app, Forall_concat_map.
    assert (Hiff : Forall (all_sprites P) subs
                   <-> Forall (fun m => P (node_self m)) subs
                       /\ Forall (fun m => Forall (fun k => P (node_self k))
                                            (get_sprites_recursive m)) subs).
    { clear s. induction IH as [|m subs [Hm _] _ IHsubs].
      - split; repeat constructor.
      - rewrite !Forall_cons, Hm, IHsubs. tauto. }
    rewrite Hiff. tauto.
  - rewrite get_sprites_recursive_node. cbn [count_sprites]. f_equal.
    rewrite length_app. induction subs as [|m subs IHs]; [done|].
    apply Forall_cons in IH as [[_ Hm] IH]. cbn.
    rewrite length_app. specialize (IHs IH). lia.
Qed.

Lemma appearance_set_visible (v : Z) s : appearance (set_visible v s) = appearance s.
Proof. reflexivity. Qed.

(** [show] and [hide] change nothing but the visibility and the dirty flag
    of sprites: every other attribute of every sprite of the tree and the
    tree itself stay as they are. *)
Theorem show_hide_keep_appearance n :
  appearances (show n) = appearances n /\ appearances (hide n) = appearances n.
Proof.
  induction n as [s subs IH] using TreeFacts.Sprite_ind'. split.
  - cbn [show]. destruct (bool_decide (visible s = 0)); [|done].
    cbn [appearances]. rewrite appearance_set_visible. f_equal.
    rewrite <- list_fmap_compose. apply Forall_fmap_ext_1.
    eapply Forall_impl; [exact IH|]. by intros m [Hm _].
  - cbn [hide]. destruct (bool_decide (visible s ≠ 0)); [|done].
    cbn [appearances]. rewrite appearance_set_visible. f_equal.
    rewrite <- list_fmap_compose. apply Forall_fmap_ext_1.
    eapply Forall_impl; [exact IH|]. by intros m [_ Hm].
Qed.

End WithPygame.

End SpriteMoreFacts.

(** ** Properties of [set_pressed], [get_color] and [add_sprite] *)

Module SpriteObjectFacts.

Import Sprite SpriteMore.

Section WithPygame.

Context `{Pygame}.
Implicit Types (self s : ImageSprite).

(** [set_pressed] with the state the sprite is in does nothing; without a
    callback it changes [pressed] only; the callback is called only when a
    hidden sprite is released, which shows it again; and on a visible,
    released sprite with a callback, a press hides the sprite without
    calling it and the release that follows shows the sprite and calls the
    callback, once. *)
Theorem set_pressed_spec self (state : Z) (on_pressed : bool) :
  (pressed self = state -> set_pressed on_pressed state self = (false, self))
  /\ set_pressed false state self
     = (false, if bool_decide (pressed self ≠ state) then set_pressed_ state self
               else self)
  /\ ((set_pressed on_pressed state self).1 = true ->
      on_pressed = true /\ state = 0 /\ pressed self ≠ 0 /\ visible self = 0
      /\ visible (set_pressed on_pressed state self).2 = 1)
  /\ (pressed self = 0 -> visible self ≠ 0 -> state ≠ 0 ->
      let pressed_down := set_pressed true state self in
      pressed_down = (false, set_visible 0 (set_pressed_ state self))
      /\ set_pressed true 0 pressed_down.2
         = (true, set_visible 1 (set_pressed_ 0 pressed_down.2))).
Proof.
  unfold set_pressed. split; [|split; [|split]].
  - intros Hp. rewrite bool_decide_false; [done|]. intros Hne. by apply Hne.
  - by destruct (bool_decide (pressed self ≠ state)).
  - destruct on_pressed; repeat case_bool_decide; cbn in *;
      repeat case_bool_decide; cbn in *; intros Hf; try discriminate;
      repeat split; congruence.
  - intros Hp Hv Hs. cbn.
    rewrite (bool_decide_true (pressed self ≠ state)) by congruence. cbn.
    rewrite (bool_decide_true (state ≠ 0)) by done.
    rewrite (bool_decide_true (visible self ≠ 0)) by done. cbn.
    split; [done|].
    rewrite (bool_decide_true (state ≠ 0)) by done. cbn.
    rewrite (bool_decide_false (0 ≠ 0)) by (intros Hne; by apply Hne). cbn.
    by rewrite !(bool_decide_true (0 = 0)) by done.
Qed.

(** *** [get_color] *)

Lemma mapM_cons {A B} (f : A -> result B) (x : A) (l : list A) :
  mapM f (x :: l) = y ← f x; k ← mapM f l; mret (y :: k).
Proof. reflexivity. Qed.

Lemma mapM_Ok_Forall2 {A B} (f : A -> result B) (l : list A) (k : list B) :
  mapM f l = Ok k -> Forall2 (fun a b => f a = Ok b) l k.
Proof.
  revert k. induction l as [|a l IH]; intros k.
  - intros [= <-]. constructor.
  - rewrite mapM_cons. destruct (f a) as [b|e] eqn:Hb; [|discriminate]. cbn.
    destruct (mapM f l) as [k'|e]; [|discriminate]. cbn. intros [= <-].
    constructor; [done|]. by apply IH.
Qed.

Lemma mapM_Ok_map {A B} (f : A -> result B) (g : A -> B) (l : list A) :
  (forall a, f a = Ok (g a)) -> mapM f l = Ok (map g l).
Proof.
  intros Hf. induction l as [|a l IH]; [done|].
  rewrite mapM_cons, Hf, IH. reflexivity.
Qed.

(** On a sprite with a colour, [get_color] leaves the sprite alone and
    returns, when it returns, one channel for each channel of the colour,
    none above 255; with an integer factor it always returns: each channel
    times the absolute value of the factor, capped at 255. *)
Theorem get_color_capped (average_color : Surface -> color) (factor : num) self :
  truthy_color (color_ self) = true ->
  (get_color average_color factor self).2 = self
  /\ (forall l, (get_color average_color factor self).1 = Ok l ->
        length l = length (default [] (color_ self))
        /\ Forall (fun v => v <= 255) l)
  /\ (forall n, factor = Int n ->
        (get_color average_color factor self).1
        = Ok (map (fun c => Z.min (c * Z.abs n) 255) (default [] (color_ self)))).
Proof.
  intros Hc. unfold get_color. rewrite Hc. cbn [fst snd].
  split; [done|]. split.
  - intros l Hl. apply mapM_Ok_Forall2 in Hl. split.
    + symmetry. by eapply Forall2_length.
    + eapply Forall2_Forall_r; [exact Hl|]. apply Forall_forall.
      intros c _ v. destruct (scale_channel (abs_num factor) c); [|discriminate].
      cbn. intros [= <-]. lia.
  - intros n ->. by apply mapM_Ok_map.
Qed.

End WithPygame.

(** *** [add_sprite] *)

Lemma parents_first_store (h : heap) (i : nat) (subs : list nat) :
  parents_first h -> parents_first (store h i (mkObject (parent (h i)) subs)).
Proof.
  intros Hp j p. unfold store. destruct (decide (j = i)) as [->|]; cbn; apply Hp.
Qed.

Lemma add_sprite_ancestor (fuel : nat) (h : heap) (q self sprite : nat) :
  parents_first h -> parent (h sprite) = Some self ->
  (q < self)%nat -> (q < fuel)%nat ->
  add_sprite fuel h q sprite = Some h.
Proof.
  intros Hp Hs. revert q.
  induction fuel as [|fuel IH]; intros q Hq Hf; [lia|].
  cbn. rewrite Hs. rewrite bool_decide_false by (intros [= ->]; lia).
  destruct (parent (h q)) as [p|] eqn:Hpq; [|done].
  apply Hp in Hpq. apply IH; lia.
Qed.

(** In a tree where no sprite is older than its parent, the sprite built
    with a parent is appended to the sub-sprites of that parent and of no
    other sprite: the parents of the parent are gone through and left as
    they are. *)
Theorem new_object_registers (h : heap) (next : nat) (p : option nat) :
  parents_first h ->
  (forall q, p = Some q -> (q < next)%nat) ->
  exists h',
    new_object next h next p = Some h'
    /\ parents_first h'
    /\ parent (h' next) = p
    /\ (forall q, p = Some q ->
          _subsprites (h' q) = _subsprites (h q) ++ [next]
          /\ parent (h' q) = parent (h q))
    /\ (forall k, k <> next -> p <> Some k -> h' k = h k).
Proof.
  intros Hp Hq. unfold new_object.
  set (h0 := store h next (mkObject p [])).
  assert (Hp0 : parents_first h0).
  { intros j r. unfold h0, store. destruct (decide (j = next)) as [->|]; cbn.
    - apply Hq.
    - apply Hp. }
  assert (Hnext : h0 next = mkObject p []).
  { unfold h0, store. by rewrite decide_True. }
  assert (Hother : forall k, k <> next -> h0 k = h k).
  { intros k Hk. unfold h0, store. by rewrite decide_False. }
  destruct p as [q|].
  - specialize (Hq q eq_refl).
    destruct next as [|next]; [lia|].
    change (add_sprite (S next) h0 q (S next)) with
      (let h1 :=
         if bool_decide (parent (h0 (S next)) = Some q) then
           store h0 q (mkObject (parent (h0 q)) (_subsprites (h0 q) ++ [S next]))
         else h0 in
       match parent (h1 q) with
       | Some r => add_sprite next h1 r (S next)
       | None => Some h1
       end).
    rewrite Hnext. cbn [parent]. rewrite bool_decide_true by done. cbv zeta.
    set (h1 := store h0 q _).
    assert (Hp1 : parents_first h1) by (by apply parents_first_store).
    assert (Hh1 : forall k, h1 k = if decide (k = q) then
                                    mkObject (parent (h0 q))
                                      (_subsprites (h0 q) ++ [S next])
                                  else h0 k) by done.
    assert (Hres : match parent (h1 q) with
                   | Some r => add_sprite next h1 r (S next)
                   | None => Some h1
                   end = Some h1).
    { destruct (parent (h1 q)) as [r|] eqn:Hr; [|done].
      apply (add_sprite_ancestor next h1 r q (S next)); [done| | |].
      - rewrite Hh1, decide_False by lia. by rewrite Hnext.
      - by apply Hp1 in Hr.
      - apply Hp1 in Hr. lia. }
    rewrite Hres. exists h1. split; [done|]. split; [done|]. split.
    + rewrite Hh1, decide_False by lia. by rewrite Hnext.
    + split.
      * intros q' [= <-]. rewrite Hh1, decide_True by done. cbn.
        rewrite Hother by lia. done.
      * intros k Hk Hkq. rewrite Hh1, decide_False by congruence.
        by apply Hother.
  - exists h0. split; [done|]. split; [done|]. split; [by rewrite Hnext|].
    split; [done|]. intros k Hk _. by apply Hother.
Qed.

End SpriteObjectFacts.

(** ** Further properties of the image geometry *)

Module GeometryMoreFacts.

Import Float FloatFacts GeometryFacts.

Lemma fdiv_gt_iff (a b c d : Z) :
  dim a -> dim b -> dim c -> dim d ->
  negb (Qle_bool (fdiv a b) (fdiv c d)) = true <-> c * b < a * d.
Proof.
  intros Ha Hb Hc Hd. split; [by apply fdiv_gt_exact|].
  intros Hlt. apply negb_true_iff.
  destruct (Qle_bool (fdiv a b) (fdiv c d)) eqn:Hle; [|done].
  apply Qle_bool_iff in Hle. apply fdiv_le_exact in Hle; [lia|done..].
Qed.

Lemma fdiv_gt_false (a b c d : Z) :
  dim a -> dim b -> dim c -> dim d ->
  a * d <= c * b -> negb (Qle_bool (fdiv a b) (fdiv c d)) = false.
Proof.
  intros Ha Hb Hc Hd Hle. apply negb_false_iff, Qle_bool_iff.
  by apply fdiv_mono.
Qed.

(** For sizes up to [2^24], a target of the aspect ratio of the source is
    returned as it is by the fit, in either mode, and the crop to that
    ratio is the whole source, for every anchor. *)
Theorem equal_ratio_is_identity (ox oy tw th : Z) (resize_type crop_type : string) :
  dim ox -> dim oy -> dim tw -> dim th ->
  ox * th = tw * oy ->
  new_size_keep_aspect_ratio (ox, oy) (tw, th) resize_type = Ok (tw, th)
  /\ new_size_by_croping_ratio (ox, oy) (tw, th) crop_type = Ok (0, 0, ox, oy).
Proof.
  intros Hox Hoy Htw Hth Heq. split.
  - rewrite new_size_keep_aspect_ratio_dim by done. unfold fit.
    by rewrite !fdiv_gt_false by (done || lia).
  - rewrite new_size_by_croping_ratio_dim by done. unfold crop_size.
    rewrite !fdiv_gt_false by (done || lia).
    pose proof (anchor_x_bounds crop_type ox ox ltac:(unfold dim in Hox; lia)).
    pose proof (anchor_y_bounds crop_type oy oy ltac:(unfold dim in Hoy; lia)).
    repeat f_equal; lia.
Qed.

Lemma equal_ratio_is_identity_witness :
  new_size_keep_aspect_ratio (1920, 1080) (640, 360) "inner" = Ok (640, 360)
  /\ new_size_by_croping_ratio (1920, 1080) (640, 360) "top-right"
     = Ok (0, 0, 1920, 1080).
Proof.
  apply (equal_ratio_is_identity 1920 1080 640 360 "inner" "top-right");
    unfold dim, max_dim; lia.
Defined.

Lemma fit_transposed (ox oy tw th : Z) (inner : bool) :
  dim ox -> dim oy -> dim tw -> dim th ->
  fit oy ox th tw inner = ((fit ox oy tw th inner).2, (fit ox oy tw th inner).1).
Proof.
  intros Hox Hoy Htw Hth. unfold fit.
  destruct (Z.lt_trichotomy (ox * th) (tw * oy)) as [Hlt|[Heq|Hgt]].
  - rewrite (proj2 (fdiv_gt_iff tw th ox oy Htw Hth Hox Hoy)) by lia.
    rewrite (fdiv_gt_false th tw oy ox) by (done || lia).
    rewrite (proj2 (fdiv_gt_iff oy ox th tw Hoy Hox Hth Htw)) by lia.
    destruct (negb (Qle_bool _ (inject_Z th)) && inner); cbn [fst snd]; reflexivity.
  - by rewrite !fdiv_gt_false by (done || lia).
  - rewrite (fdiv_gt_false tw th ox oy) by (done || lia).
    rewrite (proj2 (fdiv_gt_iff ox oy tw th Hox Hoy Htw Hth)) by lia.
    rewrite (proj2 (fdiv_gt_iff th tw oy ox Hth Htw Hoy Hox)) by lia.
    destruct (negb (Qle_bool _ (inject_Z tw)) && inner); cbn [fst snd]; reflexivity.
Qed.

(** For sizes up to [2^24] the fit treats widths and heights alike:
    exchanging them in the source and in the target exchanges them in the
    result. *)
Theorem fit_transpose (ox oy tw th rx ry : Z) (resize_type : string) :
  dim ox -> dim oy -> dim tw -> dim th ->
  new_size_keep_aspect_ratio (ox, oy) (tw, th) resize_type = Ok (rx, ry) ->
  new_size_keep_aspect_ratio (oy, ox) (th, tw) resize_type = Ok (ry, rx).
Proof.
  intros Hox Hoy Htw Hth. rewrite !new_size_keep_aspect_ratio_dim by done.
  intros [= Hfit]. rewrite (fit_transposed ox oy tw th _ Hox Hoy Htw Hth), Hfit.
  reflexivity.
Qed.

Lemma fit_transpose_witness :
  new_size_keep_aspect_ratio (1080, 1920) (300, 400) "outer" = Ok (300, 533).
Proof.
  apply (fit_transpose 1920 1080 400 300 533 300 "outer");
    try (unfold dim, max_dim; lia).
  vm_compute. reflexivity.
Defined.

(** For sizes up to [2^24] the crop keeps one dimension of the source and
    gives the other the target's aspect ratio, from below and within one
    pixel. *)
Theorem crop_has_target_ratio (ow oh tw th : Z) (crop_type : string) :
  dim ow -> dim oh -> dim tw -> dim th ->
  exists x1 y1 x2 y2 : Z,
    new_size_by_croping_ratio (ow, oh) (tw, th) crop_type = Ok (x1, y1, x2, y2)
    /\ ((x2 - x1 = ow /\ 0 <= ow * th - (y2 - y1) * tw <= tw)
        \/ (y2 - y1 = oh /\ 0 <= tw * oh - (x2 - x1) * th <= th)).
Proof.
  intros How Hoh Htw Hth.
  rewrite new_size_by_croping_ratio_dim by done. unfold crop_size.
  pose proof (quot_floor ow tw th How Htw Hth) as (Hy0 & Hy1 & Hy2).
  pose proof (scaled_floor tw th oh Htw Hth Hoh) as (Hx0 & Hx1 & Hx2).
  destruct (negb (Qle_bool (fdiv tw th) (fdiv ow oh))) eqn:Hgt.
  - eexists _, _, _, _. split; [reflexivity|]. left. lia.
  - apply negb_false_iff, Qle_bool_iff in Hgt.
    destruct (negb (Qle_bool (fdiv ow oh) (fdiv tw th))) eqn:Hlt.
    + eexists _, _, _, _. split; [reflexivity|]. right. lia.
    + apply negb_false_iff, Qle_bool_iff in Hlt.
      apply fdiv_le_exact in Hgt; [|done..]. apply fdiv_le_exact in Hlt; [|done..].
      pose proof Htw as [Htw0 _].
      eexists _, _, _, _. split; [reflexivity|]. left. lia.
Qed.

Lemma crop_has_target_ratio_witness :
  exists x1 y1 x2 y2 : Z,
    new_size_by_croping_ratio (1000, 700) (16, 9) "center" = Ok (x1, y1, x2, y2)
    /\ ((x2 - x1 = 1000 /\ 0 <= 1000 * 9 - (y2 - y1) * 16 <= 16)
        \/ (y2 - y1 = 700 /\ 0 <= 16 * 700 - (x2 - x1) * 9 <= 9)).
Proof.
  apply (crop_has_target_ratio 1000 700 16 9 "center"); unfold dim, max_dim; lia.
Defined.

(** The size of the crop does not depend on the anchor, and one of its
    dimensions is the source's: this for all sizes on which the function
    returns. *)
Theorem crop_size_anchor_free (original_size target_size : Z * Z)
    (crop_type crop_type' : string) (x1 y1 x2 y2 : Z) :
  new_size_by_croping_ratio original_size target_size crop_type
  = Ok (x1, y1, x2, y2) ->
  (x2 - x1 = original_size.1 \/ y2 - y1 = original_size.2)
  /\ exists x1' y1' x2' y2' : Z,
       new_size_by_croping_ratio original_size target_size crop_type'
       = Ok (x1', y1', x2', y2')
       /\ x2' - x1' = x2 - x1 /\ y2' - y1' = y2 - y1.
Proof.
  unfold new_size_by_croping_ratio. destruct original_size as [ow oh].
  destruct (div_by_float_of (ow, oh).1 (ow, oh).2) as [img_ratio|e]; [|discriminate].
  destruct (div_by_float_of target_size.1 target_size.2) as [ratio|e];
    [|discriminate].
  unfold mbind, result_bind, mret, result_ret. cbn [fst snd].
  destruct (gtb ratio img_ratio).
  - destruct (of_int ow) as [fw|e]; [|discriminate].
    destruct (truediv fw ratio) as [q|e]; [|discriminate].
    destruct (to_int q) as [ty|e]; [|discriminate].
    intros [= <- <- <- <-]. split; [left; lia|].
    eexists _, _, _, _. split; [reflexivity|]. lia.
  - destruct (ltb ratio img_ratio).
    + destruct (mul_int ratio oh) as [p|e]; [|discriminate].
      destruct (to_int p) as [tx|e]; [|discriminate].
      intros [= <- <- <- <-]. split; [right; lia|].
      eexists _, _, _, _. split; [reflexivity|]. lia.
    + intros [= <- <- <- <-]. split; [left; lia|].
      eexists _, _, _, _. split; [reflexivity|]. lia.
Qed.

Lemma crop_size_anchor_free_witness :
  exists x1' y1' x2' y2' : Z,
    new_size_by_croping_ratio (1920, 1080) (4, 3) "bottom-left"
    = Ok (x1', y1', x2', y2')
    /\ x2' - x1' = 1680 - 240 /\ y2' - y1' = 1080 - 0.
Proof.
  apply (crop_size_anchor_free (1920, 1080) (4, 3) "center" "bottom-left"
           240 0 1680 1080).
  vm_compute. reflexivity.
Defined.

(** Where the nine anchors put the crop: a [left] crop starts at 0, a
    [right] crop ends at the width of the source, a crop centred
    horizontally leaves margins that differ by at most one pixel, the
    larger on the right; and the same from top to bottom. *)
Theorem crop_anchor_positions (original_size target_size : Z * Z)
    (crop_type : string) (x1 y1 x2 y2 : Z) :
  new_size_by_croping_ratio original_size target_size crop_type
  = Ok (x1, y1, x2, y2) ->
  (crop_type ∈ ["top-left"; "center-left"; "bottom-left"]%string -> x1 = 0)
  /\ (crop_type ∈ ["top-right"; "center-right"; "bottom-right"]%string ->
      x2 = original_size.1)
  /\ (crop_type ∈ ["top-center"; "center"; "bottom-center"]%string ->
      0 <= (original_size.1 - x2) - x1 <= 1)
  /\ (crop_type ∈ ["top-left"; "top-center"; "top-right"]%string -> y1 = 0)
  /\ (crop_type ∈ ["bottom-left"; "bottom-center"; "bottom-right"]%string ->
      y2 = original_size.2)
  /\ (crop_type ∈ ["center-left"; "center"; "center-right"]%string ->
      0 <= (original_size.2 - y2) - y1 <= 1).
Proof.
  unfold new_size_by_croping_ratio.
  destruct (div_by_float_of original_size.1 original_size.2) as [img_ratio|e];
    [|discriminate].
  destruct (div_by_float_of target_size.1 target_size.2) as [ratio|e];
    [|discriminate].
  unfold mbind at 1 2. unfold result_bind. destruct original_size as [ow oh].
  match goal with |- context [mbind _ ?r] => destruct r as [[tx ty]|e] end;
    [|discriminate].
  unfold mbind, result_bind, mret, result_ret. cbn [fst snd].
  intros [= <- <- <- <-].
  repeat apply conj; intros Hin;
    repeat (apply elem_of_cons in Hin as [->|Hin]);
    try (by apply elem_of_nil in Hin);
    vm_compute endswith; vm_compute startswith; cbv iota;
    Z.div_mod_to_equations; lia.
Qed.

Lemma crop_anchor_positions_witness :
  (("center" : string) ∈ ["top-center"; "center"; "bottom-center"]%string ->
   0 <= ((1920, 1080).1 - 1680) - 240 <= 1)
  /\ (("center" : string) ∈ ["center-left"; "center"; "center-right"]%string ->
      0 <= ((1920, 1080).2 - 1080) - 0 <= 1).
Proof.
  pose proof (crop_anchor_positions (1920, 1080) (4, 3) "center" 240 0 1680 1080)
    as Hpos.
  assert (Hrun : new_size_by_croping_ratio (1920, 1080) (4, 3) "center"
                 = Ok (240, 0, 1680, 1080)) by (vm_compute; reflexivity).
  destruct (Hpos Hrun) as (_ & _ & Hh & _ & _ & Hv). split; assumption.
Defined.

(** *** Errors *)

Lemma of_int_zero : of_int 0 = Ok (Fin 0).
Proof. reflexivity. Qed.

Lemma div_by_zero (n : Z) : dim n -> div_by_float_of n 0 = Raise ZeroDivisionError.
Proof.
  intros Hn. unfold div_by_float_of. rewrite of_int_zero.
  rewrite (of_int_exact n) by (unfold dim, max_dim in Hn; lia).
  reflexivity.
Qed.

(** A source or a target of height zero makes both functions raise
    [ZeroDivisionError], and so does a source of width zero for the fit:
    this with the other dimensions positive and up to [2^24]. *)
Theorem zero_dimension_raises (a b c : Z) (resize_type crop_type : string) :
  dim a -> dim b -> dim c ->
  (forall t, new_size_keep_aspect_ratio (a, 0) t resize_type = Raise ZeroDivisionError)
  /\ new_size_keep_aspect_ratio (a, b) (c, 0) resize_type = Raise ZeroDivisionError
  /\ new_size_keep_aspect_ratio (0, a) (b, c) resize_type = Raise ZeroDivisionError
  /\ (forall t, new_size_by_croping_ratio (a, 0) t crop_type = Raise ZeroDivisionError)
  /\ new_size_by_croping_ratio (a, b) (c, 0) crop_type = Raise ZeroDivisionError.
Proof.
  intros Ha Hb Hc. split; [|split; [|split; [|split]]].
  - intros t. unfold new_size_keep_aspect_ratio. cbn [fst snd].
    by rewrite (div_by_zero a).
  - unfold new_size_keep_aspect_ratio. cbn [fst snd].
    rewrite (div_by_float_of_dim a b) by done. by rewrite (div_by_zero c).
  - unfold new_size_keep_aspect_ratio. cbn [fst snd].
    assert (Hz : div_by_float_of 0 a = Ok (Fin 0)).
    { unfold div_by_float_of.
      rewrite (of_int_exact a) by (unfold dim, max_dim in Ha; lia).
      rewrite of_int_zero. unfold mbind, result_bind, truediv.
      destruct (Qeq_bool (round_pos (inject_Z a)) 0) eqn:Hq.
      - apply Qeq_bool_iff in Hq. pose proof (fl_int_exact a Ha) as He.
        unfold fl_int in He. destruct (dim_Q a Ha). exfalso.
        apply (Qlt_irrefl 0). rewrite <- Hq at 2. rewrite He.
        eapply Qlt_le_trans; [|eassumption]. reflexivity.
      - reflexivity. }
    rewrite Hz, (div_by_float_of_dim b c) by done.
    unfold mbind, result_bind. cbn [gtb].
    destruct (fdiv_range b c Hb Hc) as [Hlo _].
    assert (Hgt : negb (Qle_bool (fdiv b c) 0) = true).
    { apply negb_true_iff. destruct (Qle_bool (fdiv b c) 0) eqn:Hle; [|done].
      apply Qle_bool_iff in Hle. exfalso. apply (Qlt_irrefl 0).
      eapply Qlt_le_trans; [|exact Hle]. eapply Qlt_le_trans; [|exact Hlo].
      reflexivity. }
    rewrite Hgt. by rewrite (div_by_zero b).
  - intros t. unfold new_size_by_croping_ratio. cbn [fst snd].
    by rewrite (div_by_zero a).
  - unfold new_size_by_croping_ratio. cbn [fst snd].
    rewrite (div_by_float_of_dim a b) by done. by rewrite (div_by_zero c).
Qed.

Lemma zero_dimension_raises_witness :
  new_size_keep_aspect_ratio (640, 480) (400, 0) "inner" = Raise ZeroDivisionError
  /\ new_size_keep_aspect_ratio (0, 640) (480, 400) "inner"
     = Raise ZeroDivisionError.
Proof.
  pose proof (zero_dimension_raises 640 480 400 "inner" "center") as Hz.
  destruct Hz as (_ & Hth & Hw & _); try (unfold dim, max_dim; lia).
  split; assumption.
Defined.

Lemma of_int_overflow (n : Z) : 2 ^ 1024 <= n -> of_int n = Raise OverflowError.
Proof.
  intros Hn. unfold of_int, round.
  assert (Hpos : exists p, n = Zpos p).
  { destruct n as [|p|p]; [lia|by exists p|lia]. }
  destruct Hpos as [p ->].
  change (Qnum (inject_Z (Z.pos p))) with (Z.pos p). cbv iota zeta.
  assert (Hbig : (pow2 1024 <= round_pos (inject_Z (Zpos p)))%Q).
  { apply Qle_trans with (round_pos (inject_Z (2 ^ 1024))).
    - by (vm_compute; discriminate).
    - apply round_pos_mono; [reflexivity|]. rewrite <- Zle_Qle. exact Hn. }
  apply Qle_bool_iff in Hbig. by rewrite Hbig.
Qed.

(** A source height of [2^1024] or more is too large for a float: both
    functions raise [OverflowError], whatever the other dimensions. *)
Theorem huge_height_overflows (ox oy : Z) (target_size : Z * Z)
    (resize_type crop_type : string) :
  2 ^ 1024 <= oy ->
  new_size_keep_aspect_ratio (ox, oy) target_size resize_type = Raise OverflowError
  /\ new_size_by_croping_ratio (ox, oy) target_size crop_type = Raise OverflowError.
Proof.
  intros Hoy.
  assert (Hd : div_by_float_of ox oy = Raise OverflowError).
  { unfold div_by_float_of. by rewrite (of_int_overflow oy). }
  split.
  - unfold new_size_keep_aspect_ratio. cbn [fst snd]. by rewrite Hd.
  - unfold new_size_by_croping_ratio. cbn [fst snd]. by rewrite Hd.
Qed.

Lemma huge_height_overflows_witness :
  new_size_keep_aspect_ratio (3, 10 ^ 400) (4, 5) "outer" = Raise OverflowError.
Proof.
  apply (proj1 (huge_height_overflows 3 (10 ^ 400) (4, 5) "outer" "center"
                  ltac:(vm_compute; discriminate))).
Defined.

End GeometryMoreFacts.

(** ** Further properties of the consumer loop *)

Module GameMoreFacts.

Import Sprite Game SpriteMore GameMore.

Section WithDisplay.

Context `{Display}.

Lemma cam_event_frame (ev : event) :
  is_cam ev = true -> well_formed ev ->
  exists im, frame_of ev = Some im /\ result_of ev = Ok (Some im).
Proof.
  intros Hc Hw. destruct (Hw Hc) as [im Him]. exists im. split; [done|].
  destruct ev as [t k|e|t]; cbn in Him; try discriminate.
  rewrite Hc in Him. cbn. by rewrite Him.
Qed.

Lemma other_event_frame (ev : event) : is_cam ev = false -> frame_of ev = None.
Proof. intros Hc. destruct ev as [t k|e|t]; cbn; [done| |done]. by rewrite Hc. Qed.

Lemma frames_cons (ev : event) (events : list event) :
  frames (ev :: events)
  = match frame_of ev with
    | Some im => im :: frames events
    | None => frames events
    end.
Proof. reflexivity. Qed.

Lemma show_root (s : ImageSprite) (subs : list Sprite) :
  _image_orig (node_self (show (Node s subs))) = _image_orig s
  /\ visible (node_self (show (Node s subs))) ≠ 0.
Proof. cbn [show]. case_bool_decide; cbn; [split; [done|lia]|done]. Qed.

Lemma set_skin_pil (im : PILImage) (s : ImageSprite) :
  exists s', set_skin (SObj (OPil im)) s = (Ok tt, s') /\ _image_orig s' = OPil im.
Proof.
  unfold set_skin. case_bool_decide as Hne.
  - eexists. split; [reflexivity|]. by destruct s.
  - exists s. split; [reflexivity|]. congruence.
Qed.

(** [update] of [use_update_dirty_on_event] over events whose camera
    events all carry an image: the loop returns, the capture counter has
    grown by the number of camera events, the screen has gone through the
    captures of the space key presses alone, a game that saw no camera
    event has the sprite it had, and otherwise the sprite is visible and
    its skin is the image of the last camera event. *)
Theorem dirty_update_loop_spec (events : list event) (self : Game) (screen : Screen) :
  Forall well_formed events ->
  exists self',
    dirty_update_loop self events screen
    = Ok (self',
          foldl (fun sc ev => if is_space_keydown ev then capture_and_display sc
                              else sc) screen events)
    /\ capture_counter self' = capture_counter self + Z.of_nat (length (frames events))
    /\ (frames events = [] -> sprite0 self' = sprite0 self)
    /\ (forall im, last (frames events) = Some im ->
          _image_orig (node_self (sprite0 self')) = OPil im
          /\ visible (node_self (sprite0 self')) ≠ 0).
Proof.
  intros Hwf. revert self screen.
  induction Hwf as [|ev events Hev Hwf IH]; intros self screen.
  - exists self. cbn. split; [reflexivity|]. split; [lia|]. split; [done|].
    intros im [=].
  - cbn [dirty_update_loop foldl].
    change (bool_decide (type_of ev = CAM_EVENT)) with (is_cam ev).
    set (screen1 := if is_space_keydown ev then capture_and_display screen
                    else screen).
    destruct (is_cam ev) eqn:Hc.
    + destruct (cam_event_frame ev Hc Hev) as (im & Hf & Hr).
      rewrite Hr. unfold mbind, result_bind. cbn [skin_of].
      destruct (sprite0 self) as [s subs] eqn:Hs0.
      destruct (set_skin_pil im s) as (s' & -> & Horig).
      destruct (IH (mkGame (show (Node s' subs)) (capture_counter self + 1)) screen1)
        as (self' & -> & Hcount & Hnone & Hlast).
      cbn [capture_counter sprite0] in *.
      exists self'. rewrite frames_cons, Hf. cbn [length].
      destruct (show_root s' subs) as [Hso Hsv].
      split; [reflexivity|]. split; [lia|]. split; [discriminate|].
      intros im0 Hl. destruct (frames events) as [|im' fs] eqn:Hfs.
      * injection Hl as <-. rewrite (Hnone eq_refl), Hso.
        split; [exact Horig|exact Hsv].
      * by apply Hlast.
    + destruct (IH self screen1) as (self' & -> & Hcount & Hnone & Hlast).
      exists self'. by rewrite frames_cons, (other_event_frame ev Hc).
Qed.


(** *** [update] of [use_update_on_event] *)

Lemma image2surface_total (im : PILImage) (pw ph : Z) :
  size_laws -> dim pw -> dim ph ->
  dim (get_size (frombuffer im)).1 -> dim (get_size (frombuffer im)).2 ->
  exists sf, image2surface (Some im) (pw, ph) = Ok sf /\ get_size sf = (pw, ph).
Proof.
  intros Hlaws Hpw Hph Hw Hh.
  destruct (image2surface (Some im) (pw, ph)) as [sf|e] eqn:E.
  - exists sf. split; [done|].
    by eapply SpriteMoreFacts.transform_pygame_image_size.
  - exfalso. revert E. unfold image2surface, transform_pygame_image.
    rewrite (bool_decide_false (0 ≠ 0)) by (intros Hne; by apply Hne).
    destruct (get_size (frombuffer im)) as [ox oy] eqn:Hsz. cbn [fst snd] in *.
    unfold mbind, result_bind, mret, result_ret. cbn [andb].
    case_bool_decide.
    + rewrite GeometryFacts.new_size_keep_aspect_ratio_dim by done.
      case_bool_decide; discriminate.
    + case_bool_decide; discriminate.
Qed.

Lemma update_loop_rects (events : list event) (pw ph : Z) (screen : Screen)
    (dirty_rects : list Rect) :
  size_laws -> dim pw -> dim ph ->
  Forall (fun ev =>
            well_formed ev
            /\ forall im, frame_of ev = Some im ->
                 dim (get_size (frombuffer im)).1
                 /\ dim (get_size (frombuffer im)).2) events ->
  exists screen' rects,
    update_loop (pw, ph) events screen dirty_rects = Ok (screen', dirty_rects ++ rects)
    /\ length rects = length (frames events)
    /\ Forall (fun r => size r = (pw, ph)) rects.
Proof.
  intros Hlaws Hpw Hph Hwf. revert screen dirty_rects.
  induction Hwf as [|ev events [Hev Hdim] Hwf IH]; intros screen dirty_rects.
  - exists screen, []. cbn. by rewrite app_nil_r.
  - cbn [update_loop].
    change (bool_decide (type_of ev = CAM_EVENT)) with (is_cam ev).
    set (screen1 := if is_space_keydown ev then capture_and_display screen
                    else screen).
    destruct (is_cam ev) eqn:Hc.
    + destruct (cam_event_frame ev Hc Hev) as (im & Hf & Hr).
      destruct (Hdim im Hf) as [Hw Hh].
      destruct (image2surface_total im pw ph Hlaws Hpw Hph Hw Hh) as (sf & Hsf & Hsz).
      rewrite Hr. unfold mbind at 1, result_bind at 1.
      rewrite Hsf. unfold mbind, result_bind.
      set (r := rect_centered (get_size sf) (screen_center screen1)).
      destruct (IH (screen_blit screen1 sf (topleft r)) (dirty_rects ++ [r]))
        as (screen' & rects & -> & Hlen & Hall).
      exists screen', (r :: rects). rewrite frames_cons, Hf. cbn [length].
      split; [by rewrite <- app_assoc|]. split; [by rewrite Hlen|].
      constructor; [|done]. subst r. by rewrite Hsz.
    + destruct (IH screen1 dirty_rects) as (screen' & rects & -> & Hlen & Hall).
      exists screen', rects. by rewrite frames_cons, (other_event_frame ev Hc).
Qed.

(** [update] of [use_update_on_event], with pygame building surfaces of
    the sizes it is asked for and all sizes up to [2^24]: over events
    whose camera events all carry an image it returns, and refreshes the
    display with one rectangle of the preview size for each camera
    event. *)
Theorem update_spec (events : list event) (pw ph : Z) (screen : Screen) :
  size_laws -> dim pw -> dim ph ->
  Forall (fun ev =>
            well_formed ev
            /\ forall im, frame_of ev = Some im ->
                 dim (get_size (frombuffer im)).1
                 /\ dim (get_size (frombuffer im)).2) events ->
  exists screen' rects,
    update (pw, ph) screen events = Ok (display_update screen' rects)
    /\ length rects = length (frames events)
    /\ Forall (fun r => size r = (pw, ph)) rects.
Proof.
  intros Hlaws Hpw Hph Hwf.
  destruct (update_loop_rects events pw ph screen [] Hlaws Hpw Hph Hwf)
    as (screen' & rects & Hloop & Hlen & Hall).
  exists screen', rects. unfold update. rewrite Hloop. done.
Qed.

(** *** [Game.__init__] of [use_update_dirty_on_event] *)

Lemma set_rect_ok (x y width height : Z) (s : ImageSprite) :
  0 < width -> 0 < height ->
  exists s',
    set_rect x y width height s = (Ok tt, s')
    /\ rect s' = mkRect x y width height
    /\ (visible s' = visible s /\ get_skin s' = get_skin s)
    /\ _image_orig s' = _image_orig s.
Proof.
  intros Hw Hh. unfold set_rect.
  rewrite (proj2 (Z.ltb_lt 0 width) Hw), (proj2 (Z.ltb_lt 0 height) Hh).
  cbn [negb]. eexists. split; [reflexivity|].
  destruct s as [cache [rx ry rw rh] c p l d v o pa cr hf vf a co].
  unfold topleft, size, set_dirty. cbn.
  repeat case_bool_decide; cbn in *; simplify_eq; done.
Qed.

Lemma set_skin_tuple (rgb : color) (s : ImageSprite) :
  length rgb = 3%nat ->
  exists s',
    set_skin (SObj (OTuple rgb)) s = (Ok tt, s')
    /\ _image_orig s' = OTuple rgb /\ rect s' = rect s.
Proof.
  intros Hlen. unfold set_skin. rewrite Hlen. cbn [Nat.eqb negb].
  case_bool_decide as Hne.
  - eexists. split; [reflexivity|]. by destruct s.
  - exists s. split; [reflexivity|]. split; congruence.
Qed.

(** With positive sizes the game starts with a counter of 0, a preview
    sprite without sub-sprites, hidden, of the preview size and centred in
    the display within one pixel, and a black background that covers the
    display; with a size that is not positive it raises
    [AssertionError]. *)
Theorem init_spec (dw dh pw ph : Z) :
  (0 < dw -> 0 < dh -> 0 < pw -> 0 < ph ->
   exists g bg,
     GameMore.__init__ (dw, dh) (pw, ph) = Ok (g, bg)
     /\ capture_counter g = 0
     /\ get_sprites (sprite0 g) = []
     /\ visible (node_self (sprite0 g)) = 0
     /\ size (rect (node_self (sprite0 g))) = (pw, ph)
     /\ 0 <= dw - (2 * rect_x (rect (node_self (sprite0 g))) + pw) <= 1
     /\ 0 <= dh - (2 * rect_y (rect (node_self (sprite0 g))) + ph) <= 1
     /\ _image_orig bg = OTuple [0; 0; 0]
     /\ rect bg = mkRect 0 0 dw dh)
  /\ (dw <= 0 \/ dh <= 0 \/ pw <= 0 \/ ph <= 0 ->
      exists msg, GameMore.__init__ (dw, dh) (pw, ph) = Raise (AssertionError msg)).
Proof.
  split.
  - intros Hdw Hdh Hpw Hph. unfold GameMore.__init__. cbn [fst snd].
    destruct (set_rect_ok ((dw - pw) `div` 2) ((dh - ph) `div` 2) pw ph
                (new_sprite (10, 10) 3 true) Hpw Hph)
      as (img & -> & Hrect & [Hv _] & _).
    destruct (set_skin_tuple [0; 0; 0] (new_sprite (dw, dh) 0 true) eq_refl)
      as (bg1 & -> & Horig1 & _).
    destruct (set_rect_ok 0 0 dw dh bg1 Hdw Hdh) as (bg & -> & Hrect' & _ & Horig).
    exists (mkGame (hide (Node img [])) 0), bg.
    split; [reflexivity|]. split; [reflexivity|].
    assert (Hhide : hide (Node img []) = Node (set_visible 0 img) []).
    { cbn [hide]. rewrite bool_decide_true; [reflexivity|].
      rewrite Hv. cbn. lia. }
    rewrite Hhide. cbn [sprite0 node_self get_sprites set_visible rect visible].
    rewrite Hrect. cbn [size rect_w rect_h rect_x rect_y].
    repeat apply conj; try (reflexivity || congruence);
      Z.div_mod_to_equations; lia.
  - intros Hbad. unfold GameMore.__init__. cbn [fst snd].
    destruct (Z.ltb_spec 0 pw) as [Hpw|Hpw];
      [|unfold set_rect; rewrite (proj2 (Z.ltb_ge 0 pw) Hpw); by eexists].
    destruct (Z.ltb_spec 0 ph) as [Hph|Hph];
      [|unfold set_rect; rewrite (proj2 (Z.ltb_lt 0 pw) Hpw),
          (proj2 (Z.ltb_ge 0 ph) Hph); by eexists].
    destruct (set_rect_ok ((dw - pw) `div` 2) ((dh - ph) `div` 2) pw ph
                (new_sprite (10, 10) 3 true) Hpw Hph) as (img & -> & _).
    destruct (set_skin_tuple [0; 0; 0] (new_sprite (dw, dh) 0 true) eq_refl)
      as (bg1 & -> & _).
    unfold set_rect.
    destruct (Z.ltb_spec 0 dw) as [Hdw|Hdw]; [|by eexists].
    destruct (Z.ltb_spec 0 dh) as [Hdh|Hdh]; [lia|by eexists].
Qed.


End WithDisplay.

End GameMoreFacts.

(** ** Properties of the camera of the tests *)

Module CameraFacts.

Import Camera.

Section WithPIL.

Context `{PIL}.
Implicit Types (self : LibcameraCameraProxyMock) (c : configuration).

Lemma next_in_cycle self :
  fake_captures self ≠ [] ->
  exists im,
    fake_captures self !! (_take self `mod` length (fake_captures self))%nat = Some im
    /\ next self
       = (Done im, mkMock (fake_captures self) (S (_take self))
                     (sensor_resolution self) (config self)).
Proof.
  intros Hne. unfold next.
  destruct (lookup_lt_is_Some_2 (fake_captures self)
              (_take self `mod` length (fake_captures self))%nat) as [im Him].
  { apply Nat.mod_upper_bound. by destruct (fake_captures self). }
  exists im. by rewrite Him.
Qed.

Lemma capture_image_main self c (sz : Z * Z) :
  fake_captures self ≠ [] -> config self = Some c -> size (main c) = Some sz ->
  exists im,
    fake_captures self !! (_take self `mod` length (fake_captures self))%nat = Some im
    /\ capture_image "main" self
       = (Done (ImageOps_fit im sz),
          mkMock (fake_captures self) (S (_take self)) (sensor_resolution self)
            (config self)).
Proof.
  intros Hne Hc Hsz. destruct (next_in_cycle self Hne) as (im & Him & Hnext).
  exists im. split; [done|]. unfold capture_image. rewrite Hnext.
  cbn [config]. rewrite Hc. cbn. by rewrite Hsz.
Qed.

Lemma capture_images_run (k : nat) self c (sz : Z * Z) :
  fake_captures self ≠ [] -> config self = Some c -> size (main c) = Some sz ->
  (capture_images k "main" self).2
  = mkMock (fake_captures self) (_take self + k) (sensor_resolution self)
      (config self)
  /\ length (capture_images k "main" self).1 = k
  /\ (forall i, (i < k)%nat ->
        (capture_images k "main" self).1 !! i
        = (fun im => Done (ImageOps_fit im sz))
            <$> fake_captures self
                !! ((_take self + i) `mod` length (fake_captures self))%nat).
Proof.
  revert self. induction k as [|k IH]; intros self Hne Hc Hsz.
  - cbn. split; [|split; [done|intros i Hi; lia]].
    destruct self; cbn. by rewrite Nat.add_0_r.
  - cbn [capture_images].
    destruct (capture_image_main self c sz Hne Hc Hsz) as (im & Him & ->).
    set (self1 := mkMock _ _ _ _).
    destruct (IH self1 Hne Hc Hsz) as (Hst & Hlen & Hlk).
    destruct (capture_images k "main" self1) as [rs self2].
    cbn [fst snd] in *. subst self1.
    cbn [fake_captures _take config sensor_resolution] in *.
    split; [rewrite Hst; f_equal; lia|]. split; [cbn [length]; by rewrite Hlen|].
    intros [|i] Hi.
    + rewrite Nat.add_0_r, Him. reflexivity.
    + cbn [lookup list_lookup]. rewrite Hlk by lia.
      by replace (_take self + S i)%nat with (S (_take self) + i)%nat by lia.
Qed.

(** Captures in a row on a configured camera, with at least one fake
    capture: the [i]-th is the fit to the configured size of the fake
    capture the counter has reached, counted modulo the number of fake
    captures, so that the captures repeat with that period; the camera
    keeps its configuration. *)
Theorem capture_images_cycle (k : nat) self c (sz : Z * Z) :
  fake_captures self ≠ [] -> config self = Some c -> size (main c) = Some sz ->
  let n := length (fake_captures self) in
  let captured := (capture_images k "main" self).1 in
  (capture_images k "main" self).2
  = mkMock (fake_captures self) (_take self + k) (sensor_resolution self)
      (config self)
  /\ length captured = k
  /\ (forall i, (i < k)%nat ->
        captured !! i
        = (fun im => Done (ImageOps_fit im sz))
            <$> fake_captures self !! ((_take self + i) `mod` n)%nat)
  /\ (forall i, (i + n < k)%nat -> captured !! (i + n)%nat = captured !! i).
Proof.
  intros Hne Hc Hsz n captured.
  destruct (capture_images_run k self c sz Hne Hc Hsz) as (Hst & Hlen & Hlk).
  split; [done|]. split; [done|]. split; [done|].
  intros i Hi. subst captured. rewrite !Hlk by lia.
  replace (_take self + (i + n))%nat with (_take self + i + 1 * n)%nat by lia.
  subst n. rewrite Nat.Div0.mod_add. reflexivity.
Qed.

Lemma switch_mode_main self c (sz : Z * Z) :
  fake_captures self ≠ [] -> size (main c) = Some sz ->
  exists im,
    fake_captures self !! (_take self `mod` length (fake_captures self))%nat = Some im
    /\ switch_mode_and_capture_image c "main" self
       = (Done (ImageOps_fit im sz),
          mkMock (fake_captures self) (S (_take self)) (sensor_resolution self)
            (config self)).
Proof.
  intros Hne Hsz. unfold switch_mode_and_capture_image.
  destruct (capture_image_main (configure (Some c) self) c sz Hne eq_refl Hsz)
    as (im & Him & ->).
  exists im. split; [exact Him|reflexivity].
Qed.

(** A capture in another mode, on a camera with at least one fake
    capture, consumes one of them whether it succeeds or not; when it
    succeeds the camera is back in the configuration it had, and when it
    fails (a channel other than [main], or no size in the configuration)
    the camera is left in the new configuration. *)
Theorem switch_mode_spec self c (chan : string) :
  fake_captures self ≠ [] ->
  let r := switch_mode_and_capture_image c chan self in
  _take r.2 = S (_take self)
  /\ fake_captures r.2 = fake_captures self
  /\ match r.1 with
     | Done _ => config r.2 = config self
     | Failed _ => config r.2 = Some c
     end
  /\ (forall sz, chan = "main"%string -> size (main c) = Some sz ->
        exists im,
          fake_captures self !! (_take self `mod` length (fake_captures self))%nat
          = Some im
          /\ r.1 = Done (ImageOps_fit im sz))
  /\ (chan ≠ "main"%string \/ size (main c) = None -> exists e, r.1 = Failed e).
Proof.
  intros Hne r. subst r. unfold switch_mode_and_capture_image, capture_image.
  destruct (next_in_cycle (configure (Some c) self) Hne) as (im & Him & ->).
  cbn [configure config fake_captures _take sensor_resolution] in *.
  unfold size_of.
  destruct (String.eqb_spec chan "main") as [->|Hchan].
  - destruct (size (main c)) as [sz|] eqn:Hsz; cbn.
    + repeat apply conj; try done.
      * intros sz' _ [= <-]. by exists im.
      * intros [Hc|Hc]; done.
    + repeat apply conj; try done. intros _. by eexists.
  - assert (Hf : exists e,
        (if (chan =? "type")%string then Failed TypeError
         else Failed (KeyError chan)) = @Failed (Z * Z) e).
    { destruct (chan =? "type")%string; by eexists. }
    destruct Hf as [e ->]. cbn.
    repeat apply conj; try done. intros _. by eexists.
Qed.

(** [create_camera] over at least one fake capture, with [ImageOps.fit]
    returning images of the size it is asked for: the camera comes
    configured for the preview, whose captures all have the size given;
    a capture in the capture mode has the size of the first fake capture
    and leaves the camera in preview mode.  Without fake capture,
    [create_camera] raises [IndexError]. *)
Theorem create_camera_spec (captures : list Image) (sz : Z * Z) :
  (forall im s, image_size (ImageOps_fit im s) = s) ->
  match captures with
  | [] => create_camera captures sz = Failed IndexError
  | im0 :: _ =>
      exists camera capture_config,
        create_camera captures sz = Done (camera, capture_config)
        /\ (forall k,
              Forall (fun r => exists im, r = Done im /\ image_size im = sz)
                (capture_images k "main" camera).1)
        /\ (exists im,
              (switch_mode_and_capture_image capture_config "main" camera).1
              = Done im
              /\ image_size im = image_size im0)
        /\ config (switch_mode_and_capture_image capture_config "main" camera).2
           = config camera
  end.
Proof.
  intros Hfit. destruct captures as [|im0 captures]; [reflexivity|].
  eexists _, _. split; [reflexivity|].
  set (camera := configure _ _). set (capture_config := mkConfiguration _ _).
  assert (Hne : fake_captures camera ≠ []) by done.
  split; [|split].
  - intros k.
    destruct (capture_images_run k camera
                (mkConfiguration "preview" (mkChannel (Some sz) (Some "BGR888"%string)))
                sz Hne eq_refl eq_refl) as (_ & Hlen & Hlk).
    apply Forall_lookup. intros i r Hi.
    assert (Hik : (i < k)%nat).
    { rewrite <- Hlen. by apply lookup_lt_is_Some_1. }
    rewrite (Hlk i Hik) in Hi. apply fmap_Some in Hi as (im & _ & ->).
    exists (ImageOps_fit im sz). by rewrite Hfit.
  - destruct (switch_mode_main camera capture_config (image_size im0) Hne eq_refl)
      as (im & Him & ->).
    eexists. split; [reflexivity|apply Hfit].
  - destruct (switch_mode_main camera capture_config (image_size im0) Hne eq_refl)
      as (im & Him & ->).
    reflexivity.
Qed.


End WithPIL.

End CameraFacts.

(** ** [get_color] with a float factor *)

Module ColorFacts.

Import Float FloatFacts Sprite SpriteMore.

Local Open Scope Q_scope.

Lemma round_pos_nonneg (x : Q) : 0 < x -> 0 <= round_pos x.
Proof.
  intros Hx. rewrite round_pos_eq. pose proof (pow2_pos (ulp_exp x)) as Hp.
  apply Qmult_le_0_compat; [|lra].
  change 0 with (inject_Z 0). rewrite <- Zle_Qle.
  change 0%Z with (rne 0). apply rne_mono.
  apply Qle_shift_div_l; [exact Hp|]. lra.
Qed.

Lemma round_between (x : Q) (c : Z) :
  0 <= x -> x <= inject_Z c -> (0 < c <= 2 ^ 53)%Z ->
  exists v, round x = Fin v /\ 0 <= v /\ v <= inject_Z c.
Proof.
  intros Hx0 Hxc Hc.
  assert (Hc0 : 0 <= inject_Z c) by (rewrite <- (Zle_Qle 0); lia).
  destruct x as [n d]. unfold round. cbn [Qnum]. destruct n as [|p|p].
  - exists 0. split; [done|]. split; [lra|done].
  - set (x := Z.pos p # d) in *.
    assert (Hx : 0 < x) by reflexivity.
    assert (Hv : round_pos x <= inject_Z c).
    { apply Qle_trans with (round_pos (inject_Z c)).
      - by apply round_pos_mono.
      - rewrite round_pos_int by done. apply Qle_refl. }
    pose proof (round_pos_nonneg x Hx) as Hv0.
    exists (round_pos x). cbv zeta.
    destruct (Qle_bool (pow2 1024) (round_pos x)) eqn:Hbig; [|done].
    exfalso. apply Qle_bool_iff in Hbig.
    assert (Hc53 : inject_Z c <= pow2 53).
    { rewrite (pow2_nonneg_Z 53) by lia. rewrite <- Zle_Qle. lia. }
    pose proof (pow2_lt 53 1024 ltac:(lia)). lra.
  - exfalso. unfold Qle in Hx0. cbn in Hx0. lia.
Qed.

Lemma scale_channel_darkens (q : Q) (c : Z) :
  (0 <= c <= 2 ^ 53)%Z -> Qabs q <= 1 ->
  exists v, scale_channel (abs_num (Flt (Fin q))) c = Ok v /\ (0 <= v <= c)%Z.
Proof.
  intros Hc Hq. pose proof (Qabs_nonneg q) as Hq0.
  unfold scale_channel, abs_num.
  destruct (Z.eq_dec c 0) as [->|Hne].
  - exists 0%Z. split; [|lia].
    change (of_int 0) with (Ok (Fin 0)). unfold mbind, result_bind, mul.
    destruct (Qabs q) as [n d]. reflexivity.
  - rewrite of_int_exact by lia. unfold mbind, result_bind, mul.
    pose proof (round_pos_int c ltac:(lia)) as Hfc.
    assert (Hc0 : 0 <= inject_Z c) by (rewrite <- (Zle_Qle 0); lia).
    destruct (round_between (round_pos (inject_Z c) * Qabs q) c) as (v & -> & Hv0 & Hvc).
    + rewrite Hfc. by apply Qmult_le_0_compat.
    + rewrite Hfc. rewrite <- (Qmult_1_r (inject_Z c)) at 2.
      apply Qmult_le_compat_nonneg; split; lra.
    + lia.
    + exists (Qfloor v). split; [by apply to_int_floor|]. split.
      * change 0%Z with (Qfloor 0). by apply Qfloor_resp_le.
      * rewrite <- (Qfloor_Z c). by apply Qfloor_resp_le.
Qed.

Local Close Scope Q_scope.

Section WithPygame.

Context `{Pygame}.

(** On a sprite whose colour has its channels between 0 and 255,
    [get_color] with a float factor between -1 and 1 returns, and returns
    a colour that is not brighter: each channel is between 0 and the
    channel of the sprite's colour. *)
Theorem get_color_darkens (average_color : Surface -> color) (q : Q)
    (self : ImageSprite) :
  truthy_color (color_ self) = true ->
  Forall (fun c => 0 <= c <= 255) (default [] (color_ self)) ->
  (Qabs q <= 1)%Q ->
  exists l,
    (get_color average_color (Flt (Fin q)) self).1 = Ok l
    /\ Forall2 (fun c v => 0 <= v <= c) (default [] (color_ self)) l.
Proof.
  intros Hc Hall Hq. unfold get_color. rewrite Hc. cbn [fst].
  induction Hall as [|c cs Hch Hall IH].
  - exists []. split; [reflexivity|constructor].
  - destruct IH as (l & Hl & Hfa).
    destruct (scale_channel_darkens q c ltac:(lia) Hq) as (v & Hv & Hvc).
    exists (v :: l). split; [|by constructor].
    rewrite SpriteObjectFacts.mapM_cons, Hv. unfold mbind at 1 2, result_bind at 1 2.
    unfold mret at 1, result_ret at 1. cbv beta iota. rewrite Hl.
    unfold mbind, result_bind, mret, result_ret.
    by rewrite Z.min_l by lia.
Qed.

End WithPygame.

End ColorFacts.

(** ** Further scenarios *)

Module MoreScenarios.

Import Sprite Game Symbolic SpriteMore GameMore.

Lemma symbolic_size_laws : size_laws.
Proof. repeat split. Qed.

(** A sprite with a colour. *)
Lemma mutators_mark_dirty_witness :
  apply red_sprite (SetAngle 90) = red_sprite
  \/ dirty (apply red_sprite (SetAngle 90)) = 1.
Proof.
  apply (proj1 (SpriteMoreFacts.mutators_mark_dirty red_sprite (SetAngle 90)
                  ltac:(discriminate))).
Defined.

Lemma rendering_has_rect_size_witness :
  get_size (Fill (Blank (10, 10)) [255; 0; 0] None) = size (rect red_sprite).
Proof.
  apply (SpriteMoreFacts.rendering_has_rect_size red_sprite
           (Fill (Blank (10, 10)) [255; 0; 0] None) symbolic_size_laws).
  reflexivity.
Defined.

Lemma set_skin_then_image_witness :
  (image (set_skin (SObj (OTuple [0; 0; 255])) red_sprite).2).1
  = Ok (Fill (Blank (10, 10)) [0; 0; 255] None).
Proof.
  apply (proj1 (SpriteMoreFacts.set_skin_then_image red_sprite
                  ltac:(intros img Hc; discriminate Hc)) [0; 0; 255]).
  reflexivity.
Defined.

Lemma set_pressed_spec_witness :
  let pressed_down := set_pressed true 1 red_sprite in
  pressed_down = (false, set_visible 0 (set_pressed_ 1 red_sprite))
  /\ set_pressed true 0 pressed_down.2
     = (true, set_visible 1 (set_pressed_ 0 pressed_down.2)).
Proof.
  apply (proj2 (proj2 (proj2 (SpriteObjectFacts.set_pressed_spec red_sprite 1 true))));
    [reflexivity|discriminate|discriminate].
Defined.

Lemma get_color_capped_witness :
  (get_color (fun _ => []) (Int (-2)) (set_color (Some [200; 100; 50]) red_sprite)).1
  = Ok [255; 200; 100].
Proof.
  apply (proj2 (proj2 (SpriteObjectFacts.get_color_capped (fun _ => []) (Int (-2))
                         (set_color (Some [200; 100; 50]) red_sprite) eq_refl))
           (-2) eq_refl).
Defined.

Lemma get_color_darkens_witness :
  exists l,
    (get_color (fun _ => []) (Flt (Float.Fin (1 # 2)))
       (set_color (Some [200; 101; 50]) red_sprite)).1 = Ok l
    /\ Forall2 (fun c v => 0 <= v <= c) [200; 101; 50] l.
Proof.
  apply (ColorFacts.get_color_darkens (fun _ => []) (1 # 2)
           (set_color (Some [200; 101; 50]) red_sprite)).
  - reflexivity.
  - repeat constructor; lia.
  - vm_compute. discriminate.
Defined.

(** A root, and a sprite built with the root for parent. *)
Lemma new_object_registers_witness :
  exists h',
    new_object 1 (store (fun _ => mkObject None []) 0%nat (mkObject None [])) 1
      (Some 0%nat) = Some h'
    /\ _subsprites (h' 0%nat) = [1%nat]
    /\ parent (h' 1%nat) = Some 0%nat.
Proof.
  destruct (SpriteObjectFacts.new_object_registers
              (store (fun _ => mkObject None []) 0%nat (mkObject None [])) 1
              (Some 0%nat))
    as (h' & Hnew & _ & Hparent & Hsubs & _).
  - intros i p. unfold store. destruct (decide (i = 0%nat)); discriminate.
  - intros q [= <-]. lia.
  - exists h'. split; [exact Hnew|]. split; [|exact Hparent].
    apply (Hsubs 0%nat eq_refl).
Defined.

(** A camera frame, then the space key. *)
Lemma dirty_update_loop_spec_witness :
  exists self',
    dirty_update_loop (mkGame (hide (Node red_sprite [])) 0)
      [frame_event (frame 1 (640, 480));
       KeyEvent 768 32] blank_screen
    = Ok (self', [(FromBuffer (0%nat, (2592, 1944)), (0, 0))])
    /\ capture_counter self' = 1
    /\ _image_orig (node_self (sprite0 self')) = OPil (frame 1 (640, 480))
    /\ visible (node_self (sprite0 self')) ≠ 0.
Proof.
  destruct (GameMoreFacts.dirty_update_loop_spec
              [frame_event (frame 1 (640, 480));
               KeyEvent 768 32]
              (mkGame (hide (Node red_sprite [])) 0) blank_screen)
    as (self' & Hrun & Hcount & _ & Hlast).
  - repeat constructor.
    + intros _. by eexists.
    + intros Hcam. vm_compute in Hcam. discriminate Hcam.
  - exists self'. split; [exact Hrun|]. split; [exact Hcount|].
    apply (Hlast (frame 1 (640, 480))). reflexivity.
Defined.

Lemma update_spec_witness :
  exists screen' rects,
    update (640, 480) blank_screen
      [frame_event (frame 1 (1296, 972));
       OtherEvent 5;
       frame_event (frame 2 (640, 480))]
    = Ok (display_update screen' rects)
    /\ length rects = 2%nat
    /\ Forall (fun r => size r = (640, 480)) rects.
Proof.
  apply (GameMoreFacts.update_spec
           [frame_event (frame 1 (1296, 972));
            OtherEvent 5;
            frame_event (frame 2 (640, 480))]
           640 480 blank_screen symbolic_size_laws);
    try (unfold dim, max_dim; lia).
  repeat (apply Forall_cons; split).
  - split; [intros _; by eexists|].
    intros im [= <-]. cbn. unfold dim, max_dim. lia.
  - split; [intros Hc; vm_compute in Hc; discriminate Hc|].
    intros im Him. discriminate Him.
  - split; [intros _; by eexists|].
    intros im [= <-]. cbn. unfold dim, max_dim. lia.
  - constructor.
Defined.

Lemma init_spec_witness :
  exists g bg,
    GameMore.__init__ (800, 480) (640, 480) = Ok (g, bg)
    /\ capture_counter g = 0
    /\ get_sprites (sprite0 g) = []
    /\ visible (node_self (sprite0 g)) = 0
    /\ size (rect (node_self (sprite0 g))) = (640, 480)
    /\ 0 <= 800 - (2 * rect_x (rect (node_self (sprite0 g))) + 640) <= 1
    /\ 0 <= 480 - (2 * rect_y (rect (node_self (sprite0 g))) + 480) <= 1
    /\ _image_orig bg = OTuple [0; 0; 0]
    /\ rect bg = mkRect 0 0 800 480.
Proof.
  apply (proj1 (GameMoreFacts.init_spec 800 480 640 480)); lia.
Defined.

(** Two fake captures, and a camera in preview mode. *)
Lemma capture_images_cycle_witness :
  let self :=
    Camera.mkMock Camera.two_captures 0 (2592, 1944)
      (Some (Camera.mkConfiguration "preview"
               (Camera.mkChannel (Some (640, 480)) (Some "BGR888"%string)))) in
  (Camera.capture_images 5 "main" self).1 !! 3%nat
  = (Camera.capture_images 5 "main" self).1 !! 1%nat.
Proof.
  intros self.
  destruct (CameraFacts.capture_images_cycle 5 self
              (Camera.mkConfiguration "preview"
                 (Camera.mkChannel (Some (640, 480)) (Some "BGR888"%string)))
              (640, 480)) as (_ & _ & _ & Hperiod);
    [discriminate|reflexivity|reflexivity|].
  apply (Hperiod 1%nat). cbn. lia.
Defined.

Lemma switch_mode_spec_witness :
  let self :=
    Camera.mkMock Camera.two_captures 0 (2592, 1944)
      None in
  let r := Camera.switch_mode_and_capture_image
             (Camera.mkConfiguration "preview" (Camera.mkChannel None None))
             "main" self in
  Camera._take r.2 = 1%nat
  /\ exists e, r.1 = Camera.Failed e.
Proof.
  intros self r.
  destruct (CameraFacts.switch_mode_spec self
              (Camera.mkConfiguration "preview" (Camera.mkChannel None None))
              "main" ltac:(discriminate)) as (Htake & _ & _ & _ & Hfail).
  split; [exact Htake|]. apply Hfail. right. reflexivity.
Defined.

Lemma create_camera_spec_witness :
  exists camera capture_config,
    Camera.create_camera Camera.two_captures (640, 480)
    = Camera.Done (camera, capture_config)
    /\ Forall (fun r => exists im, r = Camera.Done im
                                   /\ Camera.image_size im = (640, 480))
         (Camera.capture_images 3 "main" camera).1
    /\ (exists im,
          (Camera.switch_mode_and_capture_image capture_config "main" camera).1
          = Camera.Done im
          /\ Camera.image_size im = (2592, 1944)).
Proof.
  destruct (CameraFacts.create_camera_spec Camera.two_captures (640, 480))
    as (camera & capture_config & Hcam & Hpreview & Hstill & _).
  - reflexivity.
  - exists camera, capture_config.
    split; [exact Hcam|]. split; [apply Hpreview|exact Hstill].
Defined.

End MoreScenarios.
